(** * flypy_extension: shape-code table generator and sound+shape merger

    A shallow embedding of [generator.py] (stage 1: glyph decomposition to
    shape codes) and [transferer.py] (stage 2: pinyin to Xiaohe double pinyin,
    merged with the shape codes), with the properties of the specification
    stated and proved over the embedding.

    Python values are modelled as follows.
    - A [str] is the list of its Unicode code points ([pystr]); Python has no
      character type, so a "part" or a "letter" is a [pystr] as well.
    - A [dict] that is only looked up is a [gmap]; a [dict] that is also
      iterated is an insertion-ordered association list ([pydict]).
    - A [set] is a [gset].
    - A mutable object that is passed around (the visited set, the
      missing-roots set, the single-code list) is threaded as explicit state.
    - The recursion of [expand_part] is driven by a fuel argument, the depth
      of nested calls that is allowed. Python allows a bounded depth too
      ([sys.getrecursionlimit()], 1000 unless it is changed, which the
      repository never does) and raises [RecursionError] beyond it; nothing in
      the repository catches it. Running out of fuel is the outer [None]: the
      call would nest deeper than the fuel, and the outer [None] goes up
      through every caller unchanged, as the exception does. The termination
      theorem shows that this never happens once the fuel exceeds the number
      of table keys, and a cycle of 1000 parts shows that it does happen at
      the depth Python allows. *)

From Stdlib Require Import NArith String Ascii.
From stdpp Require Import gmap list sorting.

Local Open Scope N_scope.
Local Open Scope list_scope.
Set Warnings "-clear-no-such-hyp".

(** ** Python strings *)

Module PyStr.

(** A Python [str]. *)
Definition pystr := list N.

(** Decoding of a UTF-8 byte sequence, used only to write the literals of
    the sources the way the sources write them. *)
Fixpoint utf8_decode (bs : list N) : pystr :=
  match bs with
  | [] => []
  | b :: r =>
    if b <? 128 then b :: utf8_decode r
    else if b <? 224 then
      match r with
      | b1 :: r' => ((b - 192) * 64 + (b1 - 128)) :: utf8_decode r'
      | _ => []
      end
    else if b <? 240 then
      match r with
      | b1 :: b2 :: r' =>
        ((b - 224) * 4096 + (b1 - 128) * 64 + (b2 - 128)) :: utf8_decode r'
      | _ => []
      end
    else
      match r with
      | b1 :: b2 :: b3 :: r' =>
        ((b - 240) * 262144 + (b1 - 128) * 4096 + (b2 - 128) * 64 + (b3 - 128))
          :: utf8_decode r'
      | _ => []
      end
  end.

(** [u "..."] is the Python literal ["..."]. *)
Definition u (s : string) : pystr :=
  utf8_decode (map N_of_ascii (list_ascii_of_string s)).

(** [s.startswith(pre)] *)
Fixpoint startswith (s pre : pystr) {struct pre} : bool :=
  match pre with
  | [] => true
  | p :: pre' =>
    match s with
    | c :: s' => (c =? p) && startswith s' pre'
    | [] => false
    end
  end.

(** [s.endswith(suf)] *)
Definition endswith (s suf : pystr) : bool :=
  startswith (reverse s) (reverse suf).

(** The scan of [str.replace] for a non-empty [old]: left to right, each
    match is replaced and the scan resumes after it ([skip] counts the
    characters of the current match still to be passed over). *)
Fixpoint replace_from (old new : pystr) (skip : nat) (s : pystr) : pystr :=
  match s with
  | [] => []
  | c :: s' =>
    match skip with
    | S k => replace_from old new k s'
    | O =>
      if startswith s old
      then new ++ replace_from old new (pred (length old)) s'
      else c :: replace_from old new O s'
    end
  end.

(** [s.replace(old, new)]; with an empty [old] Python inserts [new] before
    every character and at the end. *)
Definition replace (s old new : pystr) : pystr :=
  match old with
  | [] => new ++ flat_map (λ c, c :: new) s
  | _ :: _ => replace_from old new O s
  end.

(** ["".join(parts)] *)
Definition join (parts : list pystr) : pystr := concat parts.

(** [list(s)]: the one-character strings of [s]. *)
Definition chars (s : pystr) : list pystr := map (λ c, [c]) s.

(** [s[0]] as a string, for a non-empty [s] (the callers guard it). *)
Definition first_char (s : pystr) : pystr := take 1 s.

(** [s[-1]] as a string, for a non-empty [s]. *)
Definition last_char (s : pystr) : pystr :=
  match last s with Some c => [c] | None => [] end.

(** [str.isspace] on one code point. *)
Definition isspace (c : N) : bool :=
  ((9 <=? c) && (c <=? 13)) || ((28 <=? c) && (c <=? 32))
  || (c =? 133) || (c =? 160) || (c =? 5760)
  || ((8192 <=? c) && (c <=? 8202))
  || (c =? 8232) || (c =? 8233) || (c =? 8239) || (c =? 8287) || (c =? 12288).

Fixpoint lstrip (s : pystr) : pystr :=
  match s with
  | c :: s' => if isspace c then lstrip s' else s
  | [] => []
  end.

(** [s.strip()] *)
Definition strip (s : pystr) : pystr := reverse (lstrip (reverse (lstrip s))).

(** The line boundaries of [str.splitlines] other than ["\r\n"]. *)
Definition is_linebreak (c : N) : bool :=
  ((10 <=? c) && (c <=? 13)) || ((28 <=? c) && (c <=? 30))
  || (c =? 133) || (c =? 8232) || (c =? 8233).

Fixpoint splitlines_from (cur : pystr) (s : pystr) : list pystr :=
  match s with
  | [] => match cur with [] => [] | _ => [reverse cur] end
  | c :: s' =>
    if c =? 13 then
      match s' with
      | 10 :: s'' => reverse cur :: splitlines_from [] s''
      | _ => reverse cur :: splitlines_from [] s'
      end
    else if is_linebreak c then reverse cur :: splitlines_from [] s'
    else splitlines_from (c :: cur) s'
  end.

(** [s.splitlines()] *)
Definition splitlines (s : pystr) : list pystr := splitlines_from [] s.

Fixpoint take_word (s : pystr) : pystr * pystr :=
  match s with
  | c :: s' =>
    if isspace c then ([], s)
    else let '(w, r) := take_word s' in (c :: w, r)
  | [] => ([], [])
  end.

(** [s.split(None, 1)] *)
Definition split_ws_1 (s : pystr) : list pystr :=
  match lstrip s with
  | [] => []
  | s1 =>
    let '(w, r) := take_word s1 in
    match lstrip r with
    | [] => [w]
    | r' => [w; r']
    end
  end.

Fixpoint split_on_from (sep : N) (cur : pystr) (s : pystr) : list pystr :=
  match s with
  | [] => [reverse cur]
  | c :: s' =>
    if c =? sep then reverse cur :: split_on_from sep [] s'
    else split_on_from sep (c :: cur) s'
  end.

(** [s.split(sep)] for a one-character separator. *)
Definition split_on (sep : N) (s : pystr) : list pystr :=
  split_on_from sep [] s.

End PyStr.
Import PyStr.

(** ** Insertion-ordered dictionaries *)

Module PyDict.

(** The items of a [dict] in insertion order; a dictionary built by
    [set] has no two items with the same key. *)
Definition pydict (V : Type) := list (pystr * V).

(** [d.get(k)] / [k in d] / [d[k]] *)
Fixpoint get {V} (d : pydict V) (k : pystr) : option V :=
  match d with
  | [] => None
  | (k', v) :: d' => if decide (k' = k) then Some v else get d' k
  end.

(** [d[k] = v]: an existing key keeps its place. *)
Fixpoint set {V} (d : pydict V) (k : pystr) (v : V) : pydict V :=
  match d with
  | [] => [(k, v)]
  | (k', v') :: d' =>
    if decide (k' = k) then (k, v) :: d' else (k', v') :: set d' k v
  end.

(** [d.keys()] *)
Definition keys {V} (d : pydict V) : list pystr := map fst d.

End PyDict.
Import PyDict.

(** ** generator.py *)

Module Generator.

(** [REPLACEMENTS], in the order of the dictionary literal. *)
Definition REPLACEMENTS : pydict pystr :=
  [ (u "甘一", u "其上");
    (u "目一", u "具上");
    (u "于八", u "余下") ].

(** [apply_replacements(parts)] *)
Definition apply_replacements (parts : list pystr) : list pystr :=
  let s := join parts in
  let s := fold_left (λ s kv, replace s kv.1 kv.2) REPLACEMENTS s in
  chars s.

(** The loop of [load_roots] over the lines of the roots file. *)
Fixpoint load_roots_from (lines : list pystr) (rootmap : gmap pystr pystr)
    : gmap pystr pystr :=
  match lines with
  | [] => rootmap
  | line :: rest =>
    match strip line with
    | [] => load_roots_from rest rootmap
    | letter :: roots =>
      load_roots_from rest
        (foldl (λ m root, <[ [root] := [letter] ]> m) rootmap roots)
    end
  end.

(** [load_roots(path)], from the lines of the file. *)
Definition load_roots (lines : list pystr) : gmap pystr pystr :=
  load_roots_from lines ∅.

(** The loop of [load_decomposition] over the lines of the table file. *)
Fixpoint load_decomposition_from (lines : list pystr)
    (decomposition : pydict (list (list pystr)))
    : pydict (list (list pystr)) :=
  match lines with
  | [] => decomposition
  | line :: rest =>
    match strip line with
    | [] => load_decomposition_from rest decomposition
    | line =>
      match split_on 9 line with
      | char :: parts =>
        load_decomposition_from rest (set decomposition char (map chars parts))
      | [] => load_decomposition_from rest decomposition
      end
    end
  end.

(** [load_decomposition(path)], from the lines of the file. *)
Definition load_decomposition (lines : list pystr)
    : pydict (list (list pystr)) :=
  load_decomposition_from lines [].

(** *** The resolver

    [expand_part] mutates two sets it receives: [visited] (one per
    top-level call) and [missing_roots] (one per run). *)
Record rstate := RState {
  visited : gset pystr;
  missing_roots : gset pystr;
}.

Definition add_visited (p : pystr) (st : rstate) : rstate :=
  RState ({[p]} ∪ visited st) (missing_roots st).

Definition add_missing (p : pystr) (st : rstate) : rstate :=
  RState (visited st) ({[p]} ∪ missing_roots st).

(** A call of the resolver: the outer [None] is "out of fuel", the call
    that would nest deeper than allowed ([RecursionError] in Python, which
    no caller catches); otherwise the final state and the Python return
    value ([None] or a list of roots). *)
Definition resolver := pystr → rstate → option (rstate * option (list pystr)).

(** The inner loop [for sp in sub_parts], with [expanded] accumulated;
    a failing sub-part is the [break] with [success = False]. *)
Fixpoint expand_sub_parts (rec : resolver) (sub_parts expanded : list pystr)
    (st : rstate) : option (rstate * option (list pystr)) :=
  match sub_parts with
  | [] => Some (st, Some expanded)
  | sp :: rest =>
    match rec sp st with
    | None => None
    | Some (st', None) => Some (st', None)
    | Some (st', Some res) => expand_sub_parts rec rest (expanded ++ res) st'
    end
  end.

(** The outer loop [for sub_parts in decomposition[part]]; the first
    alternative that succeeds is returned. *)
Fixpoint try_alternatives (rec : resolver) (alts : list (list pystr))
    (st : rstate) : option (rstate * option (list pystr)) :=
  match alts with
  | [] => Some (st, None)
  | sub_parts :: more =>
    match expand_sub_parts rec (apply_replacements sub_parts) [] st with
    | None => None
    | Some (st', Some expanded) => Some (st', Some expanded)
    | Some (st', None) => try_alternatives rec more st'
    end
  end.


(** The state of a run of stage 1. *)
Record gstate := GState {
  g_missing_roots : gset pystr;
  g_singlecode_chars : list (pystr * pystr);
  g_fout : list pystr;
  g_missing_lines : list pystr;
}.

Section Resolver.
Variable decomposition : pydict (list (list pystr)).
Variable rootmap : gmap pystr pystr.

(** [expand_part(part, decomposition, rootmap, visited, missing_roots)].
    [fuel] is the depth of nested calls of [expand_part] still allowed: every
    recursive call of the source takes a frame of the interpreter, and the
    call that would take one more than allowed does not return. *)
Fixpoint expand_part (fuel : nat) (part : pystr) (st : rstate)
    : option (rstate * option (list pystr)) :=
  match fuel with
  | O => None
  | S fuel' =>
    if decide (is_Some (rootmap !! part)) then Some (st, Some [part])
    else if decide (part ∈ visited st) then Some (st, None)
    else
      let st := add_visited part st in
      let tried :=
        match get decomposition part with
        | Some alts => try_alternatives (expand_part fuel') alts st
        | None => Some (st, None)
        end in
      match tried with
      | None => None
      | Some (st', Some expanded) => Some (st', Some expanded)
      | Some (st', None) => Some (add_missing part st', None)
      end
  end.

(** The loop of [get_code_for_decomp] over the top-level parts: each one
    is resolved with a fresh [set()] as its visited set. *)
Fixpoint expand_top (fuel : nat) (ps expanded : list pystr)
    (missing : gset pystr) : option (gset pystr * option (list pystr)) :=
  match ps with
  | [] => Some (missing, Some expanded)
  | p :: rest =>
    match expand_part fuel p (RState ∅ missing) with
    | None => None
    | Some (st', None) => Some (missing_roots st', None)
    | Some (st', Some res) =>
      expand_top fuel rest (expanded ++ res) (missing_roots st')
    end
  end.

(** [[rootmap[p] for p in expanded if p in rootmap]] *)
Definition root_letters (expanded : list pystr) : list pystr :=
  omap (λ p, rootmap !! p) expanded.

(** The part of [get_code_for_decomp] after the expansion loop. *)
Definition code_of_letters (codes : list pystr) (parts : list pystr)
    (char : pystr) (single : list (pystr * pystr))
    : list (pystr * pystr) * option pystr :=
  if decide (codes = []) then (single, None)
  else if decide (length codes = 1%nat)
  then (single ++ [(char, join parts)], None)
  else if decide (4 ≤ length codes)%nat
  then (single, Some ((codes !!! 0%nat) ++ (codes !!! 1%nat)
                      ++ (codes !!! 2%nat) ++ default [] (last codes)))
  else (single, Some (join codes)).

(** [get_code_for_decomp(parts, decomposition, rootmap, missing_roots,
    singlecode_chars, char)] *)
Definition get_code_for_decomp (fuel : nat) (parts : list pystr)
    (char : pystr) (g : gstate) : option (gstate * option pystr) :=
  match expand_top fuel (apply_replacements parts) [] (g_missing_roots g) with
  | None => None
  | Some (missing, None) =>
    Some (GState missing (g_singlecode_chars g) (g_fout g) (g_missing_lines g),
          None)
  | Some (missing, Some expanded) =>
    let '(single, code) :=
      code_of_letters (root_letters expanded) parts char
                      (g_singlecode_chars g) in
    Some (GState missing single (g_fout g) (g_missing_lines g), code)
  end.

(** [f"{char}\t{code}\n"] *)
Definition row (char code : pystr) : pystr := char ++ [9] ++ code ++ [10].

(** The truth value of [code] in [if code:]. *)
Definition truthy (code : option pystr) : bool :=
  match code with
  | Some (_ :: _) => true
  | _ => false
  end.

(** The loop [for parts in decomps] of [main], with the flag [success]. *)
Fixpoint main_alternatives (fuel : nat) (char : pystr)
    (decomps : list (list pystr)) (success : bool) (g : gstate)
    : option (gstate * bool) :=
  match decomps with
  | [] => Some (g, success)
  | parts :: more =>
    match get_code_for_decomp fuel parts char g with
    | None => None
    | Some (g', code) =>
      if truthy code
      then main_alternatives fuel char more true
             (GState (g_missing_roots g') (g_singlecode_chars g')
                     (g_fout g' ++ [row char (default [] code)])
                     (g_missing_lines g'))
      else main_alternatives fuel char more success g'
    end
  end.

(** The loop [for char, decomps in decomposition.items()] of [main]. *)
Fixpoint main_items (fuel : nat) (items : pydict (list (list pystr)))
    (g : gstate) : option gstate :=
  match items with
  | [] => Some g
  | (char, decomps) :: more =>
    match main_alternatives fuel char decomps false g with
    | None => None
    | Some (g', success) =>
      let g' :=
        if success then g'
        else GState (g_missing_roots g') (g_singlecode_chars g') (g_fout g')
                    (g_missing_lines g'
                     ++ map (λ parts, row char (join parts)) decomps) in
      main_items fuel more g'
    end
  end.

End Resolver.

(** [main()], from the lines of the two input files to the final state:
    the rows written to the output file, the two diagnostic collections and
    the lines of the missing log. *)
Definition main (fuel : nat) (root_lines dict_lines : list pystr)
    : option gstate :=
  let rootmap := load_roots root_lines in
  let decomposition := load_decomposition dict_lines in
  main_items decomposition rootmap fuel decomposition (GState ∅ [] [] []).

End Generator.

(** ** transferer.py *)

Module Transferer.

(** [s.lower()] on ASCII text, which is all [_build_xiaohe_map] is applied
    to: the table source [_RAW_XIAOHE] is ASCII. *)
Definition lower (s : pystr) : pystr :=
  map (λ c, if (65 <=? c) && (c <=? 90) then c + 32 else c) s.

(** *** The scheme table *)

Definition _RAW_XIAOHE : pystr := u "
Q iu
W ei
R uan
T ue, ve
Y un
U sh
I ch
O uo
P ie
S iong, ong
D ai
F en
G eng
H ang
J an
K ing, uai
L iang, uang
Z ou
X ia, ua
C ao
V ui
B in
N iao
M ian
".

(** [_INITIALS] *)
Definition _INITIALS : list pystr :=
  map u [ "zh"; "ch"; "sh";
          "b"; "p"; "m"; "f"; "d"; "t"; "n"; "l";
          "g"; "k"; "h"; "j"; "q"; "x"; "r"; "z"; "c"; "s";
          "y"; "w" ]%string.

(** [_SINGLE_VOWELS] *)
Definition _SINGLE_VOWELS : gset pystr :=
  {[ u "a"; u "o"; u "e"; u "i"; u "u"; u "v" ]}.

(** The loop [for tok in toks.split(",")] of [_build_xiaohe_map]. *)
Fixpoint add_tokens (key : pystr) (toks : list pystr) (m : pydict pystr)
    : pydict pystr :=
  match toks with
  | [] => m
  | tok :: rest =>
    let tok := lower (strip tok) in
    add_tokens key rest (match tok with [] => m | _ => set m tok key end)
  end.

(** The loop over the lines; [None] is the [ValueError] of unpacking a
    line that has no second field. *)
Fixpoint add_lines (lines : list pystr) (m : pydict pystr)
    : option (pydict pystr) :=
  match lines with
  | [] => Some m
  | line :: rest =>
    let line := strip line in
    match line with
    | [] => add_lines rest m
    | _ =>
      match split_ws_1 line with
      | [key; toks] =>
        let key := lower (strip key) in
        add_lines rest (add_tokens key (split_on 44 toks) m)
      | _ => None
      end
    end
  end.

(** [_build_xiaohe_map(raw)] *)
Definition _build_xiaohe_map (raw : pystr) : option (pydict pystr) :=
  add_lines (splitlines (strip raw)) [].

(** [_XH = _build_xiaohe_map(_RAW_XIAOHE)] *)
Definition _XH : pydict pystr :=
  Eval vm_compute in default [] (_build_xiaohe_map _RAW_XIAOHE).

(** *** Sorting by descending length *)

(** Insertion that keeps [x] in front of the elements that are not longer. *)
Fixpoint insert_by_neg_len (x : pystr) (l : list pystr) : list pystr :=
  match l with
  | [] => [x]
  | y :: l' =>
    if (length x <? length y)%nat then y :: insert_by_neg_len x l'
    else x :: l
  end.

(** [sorted(l, key=lambda s: -len(s))]: the stable sort by descending
    length (a stable sort is determined by its key). *)
Definition sorted_by_neg_len (l : list pystr) : list pystr :=
  foldr insert_by_neg_len [] l.

(** *** The transliterator *)

(** What a call returns or raises. *)
Inductive result (A : Type) : Type :=
| Return (a : A)
| ValueError.
Arguments Return {A} a.
Arguments ValueError {A}.

(** [_split_initial_final(pinyin)] *)
Definition _split_initial_final (pinyin : pystr) : pystr * pystr :=
  match find (startswith pinyin) (sorted_by_neg_len _INITIALS) with
  | Some init => (init, drop (length init) pinyin)
  | None => ([], pinyin)
  end.

Section Scheme.
(** The scheme table, [_XH] in the source. *)
Variable XH : pydict pystr.
(** [str.isalpha] of the Python runtime on one code point (the Unicode
    database is not part of the repository). *)
Variable isalpha : N → bool.

(** The loop [for k in sorted(_XH.keys(), key=lambda s: -len(s))] with
    its [break]: the letter of the first key that is a suffix. *)
Definition suffix_lookup (final : pystr) : option pystr :=
  match find (endswith final) (sorted_by_neg_len (keys XH)) with
  | Some k => get XH k
  | None => None
  end.

(** [_xiaohe_double_for_zero_initial(final)] *)
Definition _xiaohe_double_for_zero_initial (final : pystr) : pystr * pystr :=
  match final with
  | [] => ([], [])
  | _ =>
    if bool_decide (final ∈ _SINGLE_VOWELS)
       || (bool_decide (length final = 1%nat) && forallb isalpha final)
    then (first_char final, first_char final)
    else
      let second :=
        match get XH final with
        | Some l => l
        | None =>
          match suffix_lookup final with
          | Some l => l
          | None => first_char final
          end
        end in
      (first_char final, second)
  end.

(** [_xiaohe_double(pinyin)] *)
Definition _xiaohe_double (pinyin : pystr) : result (pystr * pystr) :=
  let '(init, fin) := _split_initial_final pinyin in
  match init with
  | [] => Return (_xiaohe_double_for_zero_initial fin)
  | _ =>
    let first :=
      match get XH init with
      | Some l => l
      | None => first_char init
      end in
    let second :=
      match get XH fin with
      | Some l => l
      | None =>
        match suffix_lookup fin with
        | Some (c :: l) => c :: l
        | _ => match fin with [] => [] | _ => first_char fin end
        end
      end in
    match first, second with
    | [], _ | _, [] => ValueError
    | _, _ => Return (first, second)
    end
  end.

(** *** The merge *)

(** What [ERR_LOG] holds: the fatal report, or the final report. *)
Inductive err_log : Type :=
| FatalLog (ch shape : pystr)
| ReportLog (missing_pinyin : gset pystr)
            (cannot_convert : list (pystr * pystr)) (rows : nat).

(** The two files [main] writes; [None] is a file never opened. *)
Record files := Files {
  OUT_FILE : option (list pystr);
  ERR_LOG : option err_log;
}.

(** How the run ends: normally, or by [SystemExit] with a message naming
    the character and the shape code. *)
Inductive exit : Type :=
| Finished
| SystemExit (ch shape : pystr).

(** The loop [for p in pinyins] over [(char_lines, cannot_convert)]. *)
Fixpoint merge_pinyins (ch s_first s_last : pystr) (pinyins : list pystr)
    (char_lines : list pystr) (cannot_convert : list (pystr * pystr))
    : list pystr * list (pystr * pystr) :=
  match pinyins with
  | [] => (char_lines, cannot_convert)
  | p :: rest =>
    match _xiaohe_double p with
    | ValueError =>
      merge_pinyins ch s_first s_last rest char_lines (cannot_convert ++ [(ch, p)])
    | Return (a, b) =>
      let full := a ++ b ++ s_first ++ s_last in
      merge_pinyins ch s_first s_last rest
                    (char_lines ++ [ch ++ [9] ++ full]) cannot_convert
    end
  end.

(** The loop [for shape in shape_list]; [inl] is the fatal exit at a
    shape code shorter than 2. *)
Fixpoint merge_shapes (ch : pystr) (shape_list pinyins : list pystr)
    (char_lines : list pystr) (cannot_convert : list (pystr * pystr))
    : (pystr * pystr) + (list pystr * list (pystr * pystr)) :=
  match shape_list with
  | [] => inr (char_lines, cannot_convert)
  | shape :: rest =>
    if (length shape <? 2)%nat then inl (ch, shape)
    else
      let '(char_lines, cannot_convert) :=
        merge_pinyins ch (first_char shape) (last_char shape) pinyins
                      char_lines cannot_convert in
      merge_shapes ch rest pinyins char_lines cannot_convert
  end.

(** The state of the loop over the characters. *)
Record mstate := MState {
  out_lines : list pystr;
  missing_pinyin : gset pystr;
  cannot_convert : list (pystr * pystr);
}.

(** The loop [for ch, shape_list in shape_map.items()]. *)
Fixpoint merge_items (pinyin_map : gmap pystr (list pystr))
    (items : pydict (list pystr)) (m : mstate)
    : (pystr * pystr) + mstate :=
  match items with
  | [] => inr m
  | (ch, shape_list) :: more =>
    match pinyin_map !! ch with
    | None | Some [] =>
      merge_items pinyin_map more
        (MState (out_lines m) ({[ch]} ∪ missing_pinyin m) (cannot_convert m))
    | Some pinyins =>
      match merge_shapes ch shape_list pinyins [] (cannot_convert m) with
      | inl fatal => inl fatal
      | inr (char_lines, cc) =>
        merge_items pinyin_map more
          (MState (out_lines m ++ char_lines) (missing_pinyin m) cc)
      end
    end
  end.

(** [main()], from the two loaded tables to the files written and the
    way the run ends. *)
Definition main (shape_map : pydict (list pystr))
    (pinyin_map : gmap pystr (list pystr)) : files * exit :=
  match merge_items pinyin_map shape_map (MState [] ∅ []) with
  | inl (ch, shape) =>
    (Files None (Some (FatalLog ch shape)), SystemExit ch shape)
  | inr m =>
    (Files (Some (map (λ line, line ++ [10]) (out_lines m)))
           (Some (ReportLog (missing_pinyin m) (cannot_convert m)
                            (length (out_lines m)))),
     Finished)
  end.

End Scheme.

End Transferer.

(** ** Notions used to state the properties *)

Module Props.
Import Generator.

(** [has_pair a b s]: the characters [a], [b] occur next to each other,
    in this order, somewhere in [s]. *)
Fixpoint has_pair (a b : N) (s : pystr) : bool :=
  match s with
  | c :: t =>
    match t with
    | d :: _ => ((c =? a) && (d =? b)) || has_pair a b t
    | [] => false
    end
  | [] => false
  end.

(** The three replacements of [REPLACEMENTS], applied in order. *)
Definition substitute (s : pystr) : pystr :=
  replace (replace (replace s [29976; 19968] [20854; 19978])
                   [30446; 19968] [20855; 19978])
          [20110; 20843] [20313; 19979].

(** One run of the resolver gives at least what another gives: whenever
    the first returns, the second returns the same value, in a state
    related by [Rel]. *)
Definition simulates (Rel : rstate → rstate → Prop)
    (o1 o2 : option (rstate * option (list pystr))) : Prop :=
  ∀ st1 r, o1 = Some (st1, r) → ∃ st2, o2 = Some (st2, r) ∧ Rel st1 st2.

(** Two states with the same visited set. *)
Definition same_visited (st1 st2 : rstate) : Prop :=
  visited st1 = visited st2.

(** The table in which the Substitution Pass has been applied to every
    alternative. *)
Definition normalize_table (decomposition : pydict (list (list pystr)))
    : pydict (list (list pystr)) :=
  map (λ kv, (kv.1, map apply_replacements kv.2)) decomposition.


(** The parts of a decomposition cycle: 一 (U+4E00) and the characters
    after it, one per index. *)
Definition cycle_part (k : nat) : pystr := [19968 + N.of_nat k].

(** A decomposition cycle of [n] parts and nothing else: every part has one
    alternative, the next part, and the last part has the first. *)
Definition cycle_table (n : nat) : pydict (list (list pystr)) :=
  map (λ k, (cycle_part k, [[cycle_part (S k mod n)]])) (seq 0 n).

(** The number of table keys not yet visited: the measure that decreases
    along the recursion of [expand_part]. *)
Definition unvisited (decomposition : pydict (list (list pystr)))
    (visited : gset pystr) : nat :=
  size (list_to_set (keys decomposition) ∖ visited : gset pystr).

(** The shape code of an alternative, as [get_code_for_decomp] returns it
    with fuel above the number of table entries. *)
Definition code_of (decomposition : pydict (list (list pystr)))
    (rootmap : gmap pystr pystr) (parts : list pystr) : option pystr :=
  match get_code_for_decomp decomposition rootmap
          (S (length decomposition)) parts [] (GState ∅ [] [] []) with
  | Some (_, code) => code
  | None => None
  end.

(** The rows a table should hold: for every character in table order, one
    row per alternative that has a code, in the order of the alternatives. *)
Definition rows_of (decomposition : pydict (list (list pystr)))
    (rootmap : gmap pystr pystr) (items : pydict (list (list pystr)))
    : list pystr :=
  flat_map
    (λ item,
       flat_map
         (λ parts,
            match code_of decomposition rootmap parts with
            | Some code => [row item.1 code]
            | None => []
            end)
         item.2)
    items.

(** The character has at least one phonetic reading. *)
Definition has_readings (pinyin_map : gmap pystr (list pystr))
    (ch : pystr) : bool :=
  match pinyin_map !! ch with
  | Some (_ :: _) => true
  | _ => false
  end.

(** The sorting order of [sorted_by_neg_len]: not shorter than. *)
Definition not_shorter (x y : pystr) : Prop := (length y ≤ length x)%nat.

(** A shape code long enough for stage 2. *)
Definition long_enough (shape : pystr) : Prop := (2 ≤ length shape)%nat.

(** [k] is a key of the table that is a suffix of [final], and no key that
    is a suffix of [final] is longer. *)
Definition longest_suffix_key (XH : pydict pystr) (final k : pystr) : Prop :=
  k ∈ keys XH ∧ endswith final k = true ∧
  ∀ k', k' ∈ keys XH → endswith final k' = true → (length k' ≤ length k)%nat.

(** No known initial is a prefix of the syllable. *)
Definition zero_initial (pinyin : pystr) : Prop :=
  ∀ init, init ∈ Transferer._INITIALS → startswith pinyin init = false.

End Props.

(** ** The resolver without the Substitution Pass

    The reference [expand_part] is compared with: the same recursive descent,
    taking every sequence of sub-parts as the table gives it. *)

Module Plain.
Import Generator.

Fixpoint try_alternatives (rec : resolver) (alts : list (list pystr))
    (st : rstate) : option (rstate * option (list pystr)) :=
  match alts with
  | [] => Some (st, None)
  | sub_parts :: more =>
    match expand_sub_parts rec sub_parts [] st with
    | None => None
    | Some (st', Some expanded) => Some (st', Some expanded)
    | Some (st', None) => try_alternatives rec more st'
    end
  end.

Section Resolver.
Variable decomposition : pydict (list (list pystr)).
Variable rootmap : gmap pystr pystr.

Fixpoint expand_part (fuel : nat) (part : pystr) (st : rstate)
    : option (rstate * option (list pystr)) :=
  match fuel with
  | O => None
  | S fuel' =>
    if decide (is_Some (rootmap !! part)) then Some (st, Some [part])
    else if decide (part ∈ visited st) then Some (st, None)
    else
      let st := add_visited part st in
      let tried :=
        match get decomposition part with
        | Some alts => try_alternatives (expand_part fuel') alts st
        | None => Some (st, None)
        end in
      match tried with
      | None => None
      | Some (st', Some expanded) => Some (st', Some expanded)
      | Some (st', None) => Some (add_missing part st', None)
      end
  end.

Fixpoint expand_top (fuel : nat) (ps expanded : list pystr)
    (missing : gset pystr) : option (gset pystr * option (list pystr)) :=
  match ps with
  | [] => Some (missing, Some expanded)
  | p :: rest =>
    match expand_part fuel p (RState ∅ missing) with
    | None => None
    | Some (st', None) => Some (missing_roots st', None)
    | Some (st', Some res) =>
      expand_top fuel rest (expanded ++ res) (missing_roots st')
    end
  end.

(** The deriver over [expand_top]: [sub_parts] is the sequence that is
    expanded, [parts] the alternative named in the single-letter list. *)
Definition get_code_for_decomp (fuel : nat) (sub_parts parts : list pystr)
    (char : pystr) (g : gstate) : option (gstate * option pystr) :=
  match expand_top fuel sub_parts [] (g_missing_roots g) with
  | None => None
  | Some (missing, None) =>
    Some (GState missing (g_singlecode_chars g) (g_fout g) (g_missing_lines g),
          None)
  | Some (missing, Some expanded) =>
    let '(single, code) :=
      code_of_letters (root_letters rootmap expanded) parts char
                      (g_singlecode_chars g) in
    Some (GState missing single (g_fout g) (g_missing_lines g), code)
  end.

End Resolver.

End Plain.

(** ** transferer.py: the normalizer and the shape-table loader *)

Module TransfererIO.
Import Transferer.

(** [_TONE_MAP], the dictionary given to [str.maketrans]; every key is a
    single code point. *)
Definition _TONE_MAP : pydict pystr :=
  [
    (u "ā", u "a"); (u "á", u "a"); (u "ǎ", u "a"); (u "à", u "a");
    (u "ē", u "e"); (u "é", u "e"); (u "ě", u "e"); (u "è", u "e");
    (u "ī", u "i"); (u "í", u "i"); (u "ǐ", u "i"); (u "ì", u "i");
    (u "ō", u "o"); (u "ó", u "o"); (u "ǒ", u "o"); (u "ò", u "o");
    (u "ū", u "u"); (u "ú", u "u"); (u "ǔ", u "u"); (u "ù", u "u");
    (u "ǖ", u "v"); (u "ǘ", u "v"); (u "ǚ", u "v"); (u "ǜ", u "v");
    (u "ü", u "v");
    (u "ń", u "n"); (u "ň", u "n"); (u "ǹ", u "n");
    (u "ḿ", u "m")
  ].

(** [s.translate(table)] for a table from characters to strings. *)
Definition translate (table : pydict pystr) (s : pystr) : pystr :=
  flat_map (λ c, match get table [c] with Some r => r | None => [c] end) s.

Section Digits.
(** The class [\d] of [re] on one code point: the decimal digits of the
    Unicode database, which is not part of the repository. *)
Variable isdecimal : N → bool.

Fixpoint lstrip_digits (s : pystr) : pystr :=
  match s with
  | c :: s' => if isdecimal c then lstrip_digits s' else s
  | [] => []
  end.

(** [re.sub(r"\d+$", "", s)] on a string that does not end with a line
    feed: the digits at the end are removed. *)
Definition sub_trailing_digits (s : pystr) : pystr :=
  reverse (lstrip_digits (reverse s)).

(** [_remove_tone(s)] *)
Definition _remove_tone (s : pystr) : pystr :=
  sub_trailing_digits (translate _TONE_MAP (strip s)).

End Digits.

Fixpoint lstrip_newlines (s : pystr) : pystr :=
  match s with
  | c :: s' => if (c =? 10) || (c =? 13) then lstrip_newlines s' else s
  | [] => []
  end.

(** [line.rstrip("\n\r")] *)
Definition rstrip_newlines (s : pystr) : pystr :=
  reverse (lstrip_newlines (reverse s)).

(** What [_load_shape_table] gives: the table, or the [ValueError] that
    names the number and the text of a line without a second field. *)
Inductive shape_table : Type :=
| Loaded (mp : pydict (list pystr))
| FormatError (ln : nat) (line : pystr).

(** [mp[ch].append(code)] on a [defaultdict(list)]. *)
Definition append_code (mp : pydict (list pystr)) (ch code : pystr)
    : pydict (list pystr) :=
  set mp ch (default [] (get mp ch) ++ [code]).

(** The loop of [_load_shape_table] over the lines, numbered from [ln]. *)
Fixpoint _load_shape_table_from (ln : nat) (lines : list pystr)
    (mp : pydict (list pystr)) : shape_table :=
  match lines with
  | [] => Loaded mp
  | line :: rest =>
    let line := rstrip_newlines line in
    match strip line with
    | [] => _load_shape_table_from (S ln) rest mp
    | _ =>
      match split_on 9 line with
      | ch :: code :: _ =>
        _load_shape_table_from (S ln) rest (append_code mp ch code)
      | _ => FormatError ln line
      end
    end
  end.

(** [_load_shape_table(path)], from the lines of the file. *)
Definition _load_shape_table (lines : list pystr) : shape_table :=
  _load_shape_table_from 1 lines [].

(** The lines a text file gives when it is iterated: each ends at a line
    feed, a carriage return or both, which are read as one line feed and
    kept; the last line may have none. The encoding is not modelled: the
    content is the text. *)
Fixpoint file_lines_from (cur : pystr) (s : pystr) : list pystr :=
  match s with
  | [] => match cur with [] => [] | _ => [reverse cur] end
  | c :: s' =>
    if c =? 13 then
      match s' with
      | 10 :: s'' => reverse (10 :: cur) :: file_lines_from [] s''
      | _ => reverse (10 :: cur) :: file_lines_from [] s'
      end
    else if c =? 10 then reverse (10 :: cur) :: file_lines_from [] s'
    else file_lines_from (c :: cur) s'
  end.

Definition file_lines (content : pystr) : list pystr :=
  file_lines_from [] content.

(** Stage 1 followed by the loading of its output file in stage 2: the rows
    [main] of the generator wrote are the content of the file. *)
Definition load_stage1_output (fuel : nat) (root_lines dict_lines : list pystr)
    : option shape_table :=
  match Generator.main fuel root_lines dict_lines with
  | Some g => Some (_load_shape_table (file_lines (concat (Generator.g_fout g))))
  | None => None
  end.

(** *** The pinyin database *)

Fixpoint split_on_1_from (sep : N) (cur : pystr) (s : pystr) : list pystr :=
  match s with
  | [] => [reverse cur]
  | c :: s' =>
    if c =? sep then [reverse cur; s']
    else split_on_1_from sep (c :: cur) s'
  end.

(** [s.split(sep, 1)] for a one-character separator. *)
Definition split_on_1 (sep : N) (s : pystr) : list pystr :=
  split_on_1_from sep [] s.

Fixpoint split_ws_from (cur : pystr) (s : pystr) : list pystr :=
  match s with
  | [] => match cur with [] => [] | _ => [reverse cur] end
  | c :: s' =>
    if isspace c then
      match cur with
      | [] => split_ws_from [] s'
      | _ => reverse cur :: split_ws_from [] s'
      end
    else split_ws_from (c :: cur) s'
  end.

(** [s.split()]: the words between runs of white space. *)
Definition split_ws (s : pystr) : list pystr := split_ws_from [] s.

(** The class [[0-9A-Fa-f]] of the pattern. *)
Definition is_hex (c : N) : bool :=
  ((48 <=? c) && (c <=? 57)) || ((65 <=? c) && (c <=? 70))
  || ((97 <=? c) && (c <=? 102)).

(** The hexadecimal digits at the start of a string, and the rest. *)
Fixpoint span_hex (s : pystr) : pystr * pystr :=
  match s with
  | c :: s' =>
    if is_hex c then let '(h, r) := span_hex s' in (c :: h, r)
    else ([], s)
  | [] => ([], [])
  end.

(** [re.match(r"U\+([0-9A-Fa-f]+)\s*:\s*(.+)$", line)] on a line that
    has been stripped: the two groups, or [None]. The pattern matches in
    one way at most. A hexadecimal digit is neither white space nor a
    colon, so group 1 is the whole run of digits after [U+]. The line does
    not end with white space, so [$] is its end, and group 2, which holds
    no line feed, starts at the first character after the colon that is not
    white space. *)
Definition match_entry (line : pystr) : option (pystr * pystr) :=
  match line with
  | 85 :: 43 :: rest =>
    match span_hex rest with
    | ([], _) => None
    | (code_hex, rest) =>
      match lstrip rest with
      | 58 :: rest =>
        match lstrip rest with
        | [] => None
        | payload =>
          if bool_decide (10 ∈ payload) then None
          else Some (code_hex, payload)
        end
      | _ => None
      end
    end
  | _ => None
  end.

(** The value of a hexadecimal digit. *)
Definition hex_digit (c : N) : N :=
  if c <=? 57 then c - 48 else if c <=? 70 then c - 55 else c - 87.

(** [int(code_hex, 16)] on a string of hexadecimal digits. *)
Definition int_hex (code_hex : pystr) : N :=
  fold_left (λ n c, 16 * n + hex_digit c) code_hex 0.

(** [chr(n)]: [None] is the [ValueError] above the last code point. *)
Definition chr (n : N) : option pystr :=
  if n <=? 1114111 then Some [n] else None.

(** The loop [for token in block.split()] for one block of the payload. *)
Definition block_tokens (block : pystr) : list pystr :=
  let block := strip block in
  match block with
  | [] => []
  | _ =>
    omap (λ token,
            let token := strip token in
            match token with [] => None | _ => Some token end)
         (split_ws block)
  end.

(** [raw_list] after the loop [for block in payload.split(",")]. *)
Definition raw_list (payload : pystr) : list pystr :=
  flat_map block_tokens (split_on 44 payload).

(** The loop that removes duplicates and keeps the order. *)
Fixpoint uniq_from (seen : gset pystr) (norm_list : list pystr)
    : list pystr :=
  match norm_list with
  | [] => []
  | p :: rest =>
    if decide (p ∈ seen) then uniq_from seen rest
    else p :: uniq_from ({[p]} ∪ seen) rest
  end.

(** [mp[ch].extend(uniq)] on a [defaultdict(list)]. *)
Definition extend_readings (mp : pydict (list pystr)) (ch : pystr)
    (uniq : list pystr) : pydict (list pystr) :=
  set mp ch (default [] (get mp ch) ++ uniq).

Section Database.
Variable isdecimal : N → bool.
(** [str.lower] of the Python runtime, on any text (the Unicode database
    is not part of the repository). *)
Variable str_lower : pystr → pystr.

(** [norm_list]: the tokens normalised, the empty results dropped. *)
Definition norm_list (raw : list pystr) : list pystr :=
  omap (λ p,
          let p0 := replace (str_lower (_remove_tone isdecimal p))
                            [252] [118] in
          match p0 with [] => None | _ => Some p0 end)
       raw.

(** The body of the loop of [_load_pinyin_db] for one line, up to the
    update of the table: the character and its readings [uniq], or [None]
    where the body ends before the update. *)
Definition read_line (line : pystr) : option (pystr * list pystr) :=
  let line := strip (default [] (head (split_on_1 35 line))) in
  match line with
  | [] => None
  | _ =>
    match match_entry line with
    | None => None
    | Some (code_hex, payload) =>
      let payload := strip payload in
      match chr (int_hex code_hex) with
      | None => None
      | Some ch =>
        match uniq_from ∅ (norm_list (raw_list payload)) with
        | [] => None
        | uniq => Some (ch, uniq)
        end
      end
    end
  end.

(** The loop of [_load_pinyin_db] over the lines. *)
Fixpoint _load_pinyin_db_from (lines : list pystr)
    (mp : pydict (list pystr)) : pydict (list pystr) :=
  match lines with
  | [] => mp
  | line :: rest =>
    match read_line line with
    | None => _load_pinyin_db_from rest mp
    | Some (ch, uniq) =>
      _load_pinyin_db_from rest (extend_readings mp ch uniq)
    end
  end.

(** [_load_pinyin_db(path)], from the lines of the file. *)
Definition _load_pinyin_db (lines : list pystr) : pydict (list pystr) :=
  _load_pinyin_db_from lines [].

End Database.

(** [pinyin_map.get(ch)] in [main]: the loaded table as a map. *)
Definition lookup_table (mp : pydict (list pystr))
    : gmap pystr (list pystr) :=
  list_to_map mp.

End TransfererIO.

(** ** Notions used to state further properties *)

Module MoreProps.
Import Generator Props.

(** What a run of the resolver may do to the two sets: both only grow, and
    a part newly recorded as missing is not a root and was first visited
    during the run. *)
Definition bookkeeping (rootmap : gmap pystr pystr) (st st' : rstate) : Prop :=
  visited st ⊆ visited st' ∧
  missing_roots st ⊆ missing_roots st' ∧
  ∀ p, p ∈ missing_roots st' →
    p ∈ missing_roots st ∨
    (rootmap !! p = None ∧ p ∈ visited st' ∧ p ∉ visited st).

(** Two tables with the same entries outside a set of parts. *)
Definition agree_outside (V : gset pystr)
    (d1 d2 : pydict (list (list pystr))) : Prop :=
  ∀ k, k ∉ V → get d1 k = get d2 k.

(** The lines of the missing log for the characters of a table: every
    alternative of a character none of whose alternatives has a code. *)
Definition missing_lines_of (decomposition : pydict (list (list pystr)))
    (rootmap : gmap pystr pystr) (items : pydict (list (list pystr)))
    : list pystr :=
  flat_map
    (λ item,
       if forallb (λ parts,
                     bool_decide (code_of decomposition rootmap parts = None))
                  item.2
       then map (λ parts, row item.1 (join parts)) item.2
       else [])
    items.

(** The row of one shape code and one reading of a character, when the
    reading can be transliterated. *)
Definition composite (XH : pydict pystr) (isalpha : N → bool)
    (ch shape p : pystr) : option pystr :=
  match Transferer._xiaohe_double XH isalpha p with
  | Transferer.Return (a, b) =>
    Some (ch ++ [9] ++ a ++ b ++ first_char shape ++ last_char shape)
  | Transferer.ValueError => None
  end.

(** The entry of the cannot-convert list for one reading of a character,
    when the reading cannot be transliterated. *)
Definition unconverted (XH : pydict pystr) (isalpha : N → bool)
    (ch p : pystr) : option (pystr * pystr) :=
  match Transferer._xiaohe_double XH isalpha p with
  | Transferer.Return _ => None
  | Transferer.ValueError => Some (ch, p)
  end.

(** The readings of a character, none when it is not in the map. *)
Definition readings (pinyin_map : gmap pystr (list pystr)) (ch : pystr)
    : list pystr :=
  default [] (pinyin_map !! ch).

(** The rows of the final table: characters in table order, for each its
    shape codes in order, for each of these the readings in order. *)
Definition merged_rows (XH : pydict pystr) (isalpha : N → bool)
    (pinyin_map : gmap pystr (list pystr)) (items : pydict (list pystr))
    : list pystr :=
  flat_map
    (λ item,
       flat_map (λ shape,
                   omap (composite XH isalpha item.1 shape)
                        (readings pinyin_map item.1))
                item.2)
    items.

(** The cannot-convert list, in the same order. *)
Definition unconverted_of (XH : pydict pystr) (isalpha : N → bool)
    (pinyin_map : gmap pystr (list pystr)) (items : pydict (list pystr))
    : list (pystr * pystr) :=
  flat_map
    (λ item,
       flat_map (λ shape,
                   omap (unconverted XH isalpha item.1)
                        (readings pinyin_map item.1))
                item.2)
    items.

(** The number of pairs of a shape code and a reading in the table. *)
Definition pair_count (pinyin_map : gmap pystr (list pystr))
    (items : pydict (list pystr)) : nat :=
  sum_list (map (λ item, length item.2 * length (readings pinyin_map item.1))%nat
                items).

(** The fields of a line of the shape file, none for a blank line. *)
Definition shape_fields (line : pystr) : option (list pystr) :=
  let line := TransfererIO.rstrip_newlines line in
  match strip line with
  | [] => None
  | _ => Some (split_on 9 line)
  end.

(** A line the loader accepts: blank, or with two fields at least. *)
Definition well_formed (line : pystr) : bool :=
  match shape_fields line with
  | None | Some (_ :: _ :: _) => true
  | Some _ => false
  end.

(** The shape codes the lines give for a character, in order: the second
    fields of the lines whose first field is the character. *)
Definition codes_in (lines : list pystr) (ch : pystr) : list pystr :=
  omap (λ line,
          match shape_fields line with
          | Some (c :: code :: _) => if decide (c = ch) then Some code else None
          | _ => None
          end)
       lines.

(** The shape table stage 1 stands for: the characters of the
    decomposition table that have a code, in table order, each with the
    codes of its alternatives in order. *)
Definition shape_map_of (decomposition : pydict (list (list pystr)))
    (rootmap : gmap pystr pystr) : pydict (list pystr) :=
  omap (λ item : pystr * list (list pystr),
          match omap (code_of decomposition rootmap) item.2 with
          | [] => None
          | codes => Some (item.1, codes)
          end)
       decomposition.

(** The letters an alternative resolves to: the letters of the roots its
    parts expand to, in order; none when a part does not resolve. *)
Definition letters_of (decomposition : pydict (list (list pystr)))
    (rootmap : gmap pystr pystr) (parts : list pystr)
    : option (list pystr) :=
  match expand_top decomposition rootmap (S (length decomposition))
                   (apply_replacements parts) [] ∅ with
  | Some (_, Some expanded) => Some (root_letters rootmap expanded)
  | _ => None
  end.

(** The entries of the single-code log for the characters of a table: the
    character and the joined parts of every alternative that resolves to
    exactly one letter. *)
Definition single_entries (decomposition : pydict (list (list pystr)))
    (rootmap : gmap pystr pystr) (items : pydict (list (list pystr)))
    : list (pystr * pystr) :=
  flat_map
    (λ item,
       omap (λ parts,
               match letters_of decomposition rootmap parts with
               | Some [_] => Some (item.1, join parts)
               | _ => None
               end)
            item.2)
    items.

(** The readings the lines of the pinyin database give for a character:
    those of each line that names the character, in file order. *)
Definition readings_in (isdecimal : N → bool) (str_lower : pystr → pystr)
    (lines : list pystr) (ch : pystr) : list pystr :=
  flat_map
    (λ line,
       match TransfererIO.read_line isdecimal str_lower line with
       | Some (c, uniq) => if decide (c = ch) then uniq else []
       | None => []
       end)
    lines.

(** A scheme table the transliterator can use: no key occurs twice, and
    no key and no letter is empty. *)
Definition usable (m : pydict pystr) : Prop :=
  NoDup (keys m) ∧ Forall (λ kv : pystr * pystr, kv.1 ≠ [] ∧ kv.2 ≠ []) m.

(** A line of the table source that has a key letter and nothing else. *)
Definition lone_word (line : pystr) : Prop :=
  strip line ≠ [] ∧ Forall (λ c, isspace c = false) (strip line).

(** A character and a code that make a row the loader reads back: no tab,
    line feed or carriage return in the character, and a non-empty code
    without white space. *)
Definition readable (ch code : pystr) : Prop :=
  (9 ∉ ch) ∧ (10 ∉ ch) ∧ (13 ∉ ch) ∧
  code ≠ [] ∧ Forall (λ c, isspace c = false) code.

End MoreProps.

(** * Properties *)

(** ** Python strings *)

Module PyStrFacts.
Import Props.

Lemma join_chars (s : pystr) : join (chars s) = s.
Proof.
  unfold join, chars. induction s as [|c s IH]; simpl; [done|].
  by rewrite IH.
Qed.

(** A list property proved by looking at the first two characters. *)
Lemma two_step_ind (P : pystr → Prop) :
  P [] → (∀ c, P [c]) →
  (∀ c d t, P t → P (d :: t) → P (c :: d :: t)) →
  ∀ s, P s.
Proof.
  intros Hnil Hone Hstep s.
  assert (H : P s ∧ ∀ c, P (c :: s)); [|by destruct H].
  induction s as [|d t [IH1 IH2]]; split; auto.
Qed.

(** The scan of [replace] for a two-character pattern. *)
Lemma replace_pair_nil (a b : N) (new : pystr) : replace [] [a; b] new = [].
Proof. reflexivity. Qed.

Lemma replace_pair_one (a b c : N) (new : pystr) :
  replace [c] [a; b] new = [c].
Proof. simpl. by rewrite andb_false_r. Qed.

Lemma replace_pair_cons2 (a b c d : N) (new t : pystr) :
  replace (c :: d :: t) [a; b] new =
  if (c =? a) && (d =? b) then new ++ replace t [a; b] new
  else c :: replace (d :: t) [a; b] new.
Proof. unfold replace. simpl. by rewrite andb_true_r. Qed.

Lemma replace_pair_hit (a b : N) (new t : pystr) :
  replace (a :: b :: t) [a; b] new = new ++ replace t [a; b] new.
Proof. by rewrite replace_pair_cons2, !N.eqb_refl. Qed.

Lemma replace_pair_miss (a b c d : N) (new t : pystr) :
  ¬ (c = a ∧ d = b) →
  replace (c :: d :: t) [a; b] new = c :: replace (d :: t) [a; b] new.
Proof.
  intros Hne. rewrite replace_pair_cons2.
  destruct (N.eqb_spec c a), (N.eqb_spec d b); simpl; try done.
  destruct Hne; done.
Qed.

Lemma has_pair_cons (a b c : N) (s : pystr) :
  has_pair a b s = true → has_pair a b (c :: s) = true.
Proof.
  intros H. destruct s as [|d t]; [done|].
  change (has_pair a b (c :: d :: t))
    with (((c =? a) && (d =? b)) || has_pair a b (d :: t)).
  rewrite H. apply orb_true_r.
Qed.

Lemma has_pair_cons2 (a b c d : N) (t : pystr) :
  has_pair a b (c :: d :: t) = ((c =? a) && (d =? b)) || has_pair a b (d :: t).
Proof. reflexivity. Qed.

(** A string without the pattern is left as it is. *)
Lemma replace_absent (a b : N) (new s : pystr) :
  has_pair a b s = false → replace s [a; b] new = s.
Proof.
  induction s as [|c|c d t _ IH] using two_step_ind; intros H.
  - done.
  - apply replace_pair_one.
  - rewrite has_pair_cons2 in H. apply orb_false_iff in H as [H1 H2].
    rewrite replace_pair_miss.
    + by rewrite IH.
    + intros [-> ->]. by rewrite !N.eqb_refl in H1.
Qed.

(** The first character after a replacement is the old one or the first
    character of the replacement text. *)
Lemma replace_head (a b x y : N) (s : pystr) :
  head (replace s [a; b] [x; y]) = head s ∨
  head (replace s [a; b] [x; y]) = Some x.
Proof.
  destruct s as [|c [|d t]].
  - by left.
  - left. by rewrite replace_pair_one.
  - destruct (decide (c = a ∧ d = b)) as [[-> ->]|Hne].
    + right. by rewrite replace_pair_hit.
    + left. by rewrite replace_pair_miss.
Qed.

Lemma has_pair_head (c d e : N) (s : pystr) :
  has_pair c d (e :: s) = true →
  (e = c ∧ head s = Some d) ∨ has_pair c d s = true.
Proof.
  destruct s as [|f t]; [done|].
  rewrite has_pair_cons2. intros [H|H]%orb_true_iff; [left|by right].
  apply andb_true_iff in H as [H1 H2].
  apply N.eqb_eq in H1, H2. by subst.
Qed.

(** A pair found after a replacement was there before, and is not the
    replaced pattern, provided the replacement text cannot take part in it. *)
Lemma has_pair_replace (a b x y c d : N) (s : pystr) :
  d ≠ x → c ≠ y → ¬ (c = x ∧ d = y) →
  has_pair c d (replace s [a; b] [x; y]) = true →
  has_pair c d s = true ∧ ¬ (c = a ∧ d = b).
Proof.
  intros Hdx Hcy Hxy.
  induction s as [|e|e f t IHt IHft] using two_step_ind.
  - done.
  - by rewrite replace_pair_one.
  - destruct (decide (e = a ∧ f = b)) as [[-> ->]|Hne].
    + rewrite replace_pair_hit. simpl app.
      intros [[-> H]|H]%has_pair_head.
      { simpl in H. destruct Hxy. split; congruence. }
      apply has_pair_head in H as [[-> _]|H]; [done|].
      destruct (IHt H) as [H1 H2]. split; [|done].
      by do 2 apply has_pair_cons.
    + rewrite replace_pair_miss by done.
      intros [[-> H]|H]%has_pair_head.
      * destruct (replace_head a b x y (f :: t)) as [Hh|Hh];
          rewrite Hh in H; simpl in H; [|congruence].
        injection H as ->. split; [|done].
        by rewrite has_pair_cons2, !N.eqb_refl.
      * destruct (IHft H) as [H1 H2]. split; [|done].
        by apply has_pair_cons.
Qed.

End PyStrFacts.

(** ** The Substitution Pass *)

Module SubstitutionFacts.
Import Generator Props PyStrFacts.

Lemma apply_replacements_substitute (parts : list pystr) :
  apply_replacements parts = chars (substitute (join parts)).
Proof. reflexivity. Qed.

Local Ltac distinct := first [ discriminate | intros [? ?]; discriminate ].

(** After the pass none of the three patterns is left. *)
Lemma substitute_clean (s : pystr) :
  has_pair 29976 19968 (substitute s) = false ∧
  has_pair 30446 19968 (substitute s) = false ∧
  has_pair 20110 20843 (substitute s) = false.
Proof.
  unfold substitute.
  repeat split; apply not_true_is_false; intros H.
  - apply has_pair_replace in H as [H _]; [|distinct..].
    apply has_pair_replace in H as [H _]; [|distinct..].
    apply has_pair_replace in H as [_ H]; [|distinct..].
    by apply H.
  - apply has_pair_replace in H as [H _]; [|distinct..].
    apply has_pair_replace in H as [_ H]; [|distinct..].
    by apply H.
  - apply has_pair_replace in H as [_ H]; [|distinct..].
    by apply H.
Qed.

Lemma substitute_idempotent (s : pystr) :
  substitute (substitute s) = substitute s.
Proof.
  destruct (substitute_clean s) as (H1 & H2 & H3).
  unfold substitute at 1.
  by rewrite (replace_absent _ _ _ _ H1), (replace_absent _ _ _ _ H2),
    (replace_absent _ _ _ _ H3).
Qed.

(** A second application of the pass changes nothing. *)
Lemma apply_replacements_fixed (parts : list pystr) :
  apply_replacements (apply_replacements parts) = apply_replacements parts.
Proof.
  rewrite !apply_replacements_substitute, join_chars.
  by rewrite substitute_idempotent.
Qed.

(** Every part the pass returns is a one-character string. *)
Lemma apply_replacements_chars (parts : list pystr) (p : pystr) :
  p ∈ apply_replacements parts → length p = 1%nat.
Proof.
  rewrite apply_replacements_substitute. unfold chars.
  intros (c & -> & _)%list_elem_of_fmap. done.
Qed.

End SubstitutionFacts.

Module SubstitutionClaims.
Import Generator SubstitutionFacts.

(** C8. The Substitution Pass is idempotent: for every sequence of parts,
    applying [apply_replacements] to its own result gives that result
    again. *)
Theorem apply_replacements_idempotent (parts : list pystr) :
  apply_replacements (apply_replacements parts) = apply_replacements parts.
Proof. apply apply_replacements_fixed. Qed.

(** The same on the input of the specification's examples: 甘一 becomes
    其上 and stays so. *)
Example apply_replacements_twice :
  apply_replacements [u "日"; u "甘"; u "一"; u "目"; u "一"; u "于"; u "八"]
    = chars (u "日其上具上余下") ∧
  apply_replacements (chars (u "日其上具上余下"))
    = chars (u "日其上具上余下").
Proof. split; reflexivity. Qed.

(** [str.replace] with an empty pattern, as Python does it. *)
Example replace_empty_pattern : replace (u "abc") [] (u "-") = u "-a-b-c-".
Proof. reflexivity. Qed.

(** The literals decode to the code points of the source. *)
Example REPLACEMENTS_codepoints :
  REPLACEMENTS = [ ([29976; 19968], [20854; 19978]);
                   ([30446; 19968], [20855; 19978]);
                   ([20110; 20843], [20313; 19979]) ].
Proof. reflexivity. Qed.

End SubstitutionClaims.

(** ** The resolver *)

Module ResolverFacts.
Import Generator Props PyStrFacts SubstitutionFacts.

(** *** The two loops, for any recursive callee *)

Section Loops.
Variables rec1 rec2 : resolver.
Variable Rel : rstate → rstate → Prop.

Lemma expand_sub_parts_simulates (sub_parts : list pystr) :
  (∀ sp st1 st2, sp ∈ sub_parts → Rel st1 st2 →
     simulates Rel (rec1 sp st1) (rec2 sp st2)) →
  ∀ expanded st1 st2, Rel st1 st2 →
    simulates Rel (expand_sub_parts rec1 sub_parts expanded st1)
                  (expand_sub_parts rec2 sub_parts expanded st2).
Proof.
  induction sub_parts as [|sp rest IH]; intros Hrec expanded st1 st2 Hst.
  - intros st1' r [= <- <-]. by exists st2.
  - simpl. intros st1' r.
    destruct (rec1 sp st1) as [[sta [res|]]|] eqn:E1; [| |done].
    + destruct (Hrec sp st1 st2 ltac:(left) Hst _ _ E1) as (stb & -> & Hab).
      apply IH; [|done]. intros sp' ? ? Hin. apply Hrec. by right.
    + intros [= <- <-].
      destruct (Hrec sp st1 st2 ltac:(left) Hst _ _ E1) as (stb & -> & Hab).
      by exists stb.
Qed.

Lemma try_alternatives_simulates (alts : list (list pystr)) :
  (∀ alt sp st1 st2, alt ∈ alts → sp ∈ apply_replacements alt →
     Rel st1 st2 → simulates Rel (rec1 sp st1) (rec2 sp st2)) →
  ∀ st1 st2, Rel st1 st2 →
    simulates Rel (try_alternatives rec1 alts st1)
                  (try_alternatives rec2 alts st2).
Proof.
  induction alts as [|alt more IH]; intros Hrec st1 st2 Hst.
  - intros st1' r [= <- <-]. by exists st2.
  - simpl. intros st1' r.
    pose proof (expand_sub_parts_simulates (apply_replacements alt)
      (λ sp sa sb Hin, Hrec alt sp sa sb ltac:(left) Hin) [] st1 st2 Hst)
      as Hsim.
    destruct (expand_sub_parts rec1 _ [] st1) as [[sta [res|]]|] eqn:E1;
      [| |done].
    + intros [= <- <-].
      destruct (Hsim _ _ eq_refl) as (stb & -> & Hab). by exists stb.
    + destruct (Hsim _ _ eq_refl) as (stb & -> & Hab).
      apply IH; [|done]. intros alt' sp ? ? Hin. apply Hrec. by right.
Qed.

End Loops.

Section Monotone.
Variable rec : resolver.
(** The callee only adds to the visited set. *)
Hypothesis rec_grows :
  ∀ sp st st' r, rec sp st = Some (st', r) → visited st ⊆ visited st'.

Lemma expand_sub_parts_grows (sub_parts expanded : list pystr)
    (st st' : rstate) r :
  expand_sub_parts rec sub_parts expanded st = Some (st', r) →
  visited st ⊆ visited st'.
Proof.
  revert expanded st. induction sub_parts as [|sp rest IH];
    intros expanded st; simpl.
  - by intros [= <- <-].
  - destruct (rec sp st) as [[sta [res|]]|] eqn:E1; [| |done].
    + intros H%IH. apply rec_grows in E1. set_solver.
    + intros [= <- <-]. by apply rec_grows in E1.
Qed.

Lemma try_alternatives_grows (alts : list (list pystr)) (st st' : rstate) r :
  try_alternatives rec alts st = Some (st', r) →
  visited st ⊆ visited st'.
Proof.
  revert st. induction alts as [|alt more IH]; intros st; simpl.
  - by intros [= <- <-].
  - destruct (expand_sub_parts rec _ [] st) as [[sta [res|]]|] eqn:E1;
      [| |done]; apply expand_sub_parts_grows in E1.
    + by intros [= <- <-].
    + intros H%IH. set_solver.
Qed.

End Monotone.

(** *** [expand_part] *)

Section Resolver.
Variable decomposition : pydict (list (list pystr)).
Variable rootmap : gmap pystr pystr.

Local Abbreviation expand_part := (expand_part decomposition rootmap).

(** One unfolding of [expand_part] at a part that is neither a root nor
    visited. *)
Lemma expand_part_fresh (fuel : nat) (part : pystr) (st : rstate) :
  rootmap !! part = None → part ∉ visited st →
  expand_part (S fuel) part st =
  match
    match get decomposition part with
    | Some alts =>
      try_alternatives (expand_part fuel) alts (add_visited part st)
    | None => Some (add_visited part st, None)
    end
  with
  | None => None
  | Some (st', Some expanded) => Some (st', Some expanded)
  | Some (st', None) => Some (add_missing part st', None)
  end.
Proof.
  intros Hroot Hvis. simpl.
  destruct (decide (is_Some (rootmap !! part))) as [[l Hl]|_]; [congruence|].
  by destruct (decide (part ∈ visited st)).
Qed.

Lemma expand_part_root (fuel : nat) (part : pystr) (st : rstate) :
  is_Some (rootmap !! part) →
  expand_part (S fuel) part st = Some (st, Some [part]).
Proof.
  intros Hroot. simpl.
  by destruct (decide (is_Some (rootmap !! part))).
Qed.

Lemma expand_part_visited (fuel : nat) (part : pystr) (st : rstate) :
  rootmap !! part = None → part ∈ visited st →
  expand_part (S fuel) part st = Some (st, None).
Proof.
  intros Hroot Hvis. simpl.
  destruct (decide (is_Some (rootmap !! part))) as [[l Hl]|_]; [congruence|].
  by destruct (decide (part ∈ visited st)).
Qed.

(** The three ways a call can go. *)
Lemma expand_part_cases (part : pystr) (st : rstate) :
  is_Some (rootmap !! part) ∨
  (rootmap !! part = None ∧ part ∈ visited st) ∨
  (rootmap !! part = None ∧ part ∉ visited st).
Proof.
  destruct (rootmap !! part) eqn:E; [by left; eexists|right].
  destruct (decide (part ∈ visited st)); auto.
Qed.

(** The visited set only grows, and holds the part afterwards unless the
    part is a root. *)
Lemma expand_part_grows (fuel : nat) (part : pystr) (st st' : rstate) r :
  expand_part fuel part st = Some (st', r) →
  visited st ⊆ visited st' ∧ (rootmap !! part = None → part ∈ visited st').
Proof.
  revert part st st' r. induction fuel as [|fuel IH];
    intros part st st' r; [done|].
  destruct (expand_part_cases part st) as [Hr|[[Hr Hv]|[Hr Hv]]].
  - rewrite expand_part_root by done. intros [= <- <-].
    split; [done|]. intros Hn. rewrite Hn in Hr. by destruct Hr.
  - rewrite expand_part_visited by done. by intros [= <- <-].
  - rewrite expand_part_fresh by done.
    assert (∀ sta ra,
      match get decomposition part with
      | Some alts =>
        try_alternatives (expand_part fuel) alts (add_visited part st)
      | None => Some (add_visited part st, None)
      end = Some (sta, ra) →
      {[part]} ∪ visited st ⊆ visited sta) as Hsub.
    { intros sta ra. destruct (get decomposition part) as [alts|].
      - intros H. eapply try_alternatives_grows in H; [done|].
        intros sp s s' r' Hs. by apply IH in Hs as [? _].
      - by intros [= <- <-]. }
    destruct (match get decomposition part with Some _ => _ | None => _ end)
      as [[sta [res|]]|]; [| |done].
    + intros [= <- <-]. specialize (Hsub _ _ eq_refl). set_solver.
    + intros [= <- <-]. specialize (Hsub _ _ eq_refl). simpl. set_solver.
Qed.

Section Simulation.
Variable Rel : rstate → rstate → Prop.
Hypothesis Rel_visited : ∀ st1 st2, Rel st1 st2 → visited st1 = visited st2.
Hypothesis Rel_add_visited :
  ∀ p st1 st2, Rel st1 st2 → Rel (add_visited p st1) (add_visited p st2).
Hypothesis Rel_add_missing :
  ∀ p st1 st2, Rel st1 st2 → Rel (add_missing p st1) (add_missing p st2).

(** A run with more fuel, from a related state, returns the same value
    in a related state. *)
Lemma expand_part_simulates (fuel1 fuel2 : nat) (part : pystr)
    (st1 st2 : rstate) :
  (fuel1 ≤ fuel2)%nat → Rel st1 st2 →
  simulates Rel (expand_part fuel1 part st1) (expand_part fuel2 part st2).
Proof.
  revert fuel2 part st1 st2. induction fuel1 as [|fuel1 IH];
    intros fuel2 part st1 st2 Hle Hst; [done|].
  destruct fuel2 as [|fuel2]; [lia|].
  pose proof (Rel_visited _ _ Hst) as Hvis.
  destruct (expand_part_cases part st1) as [Hr|[[Hr Hv]|[Hr Hv]]].
  - rewrite !expand_part_root by done.
    intros ? ? [= <- <-]. by exists st2.
  - rewrite !expand_part_visited by (done || congruence).
    intros ? ? [= <- <-]. by exists st2.
  - rewrite !expand_part_fresh by (done || congruence).
    assert (simulates Rel
      match get decomposition part with
      | Some alts =>
        try_alternatives (expand_part fuel1) alts (add_visited part st1)
      | None => Some (add_visited part st1, None)
      end
      match get decomposition part with
      | Some alts =>
        try_alternatives (expand_part fuel2) alts (add_visited part st2)
      | None => Some (add_visited part st2, None)
      end) as Hsim.
    { destruct (get decomposition part) as [alts|].
      - apply try_alternatives_simulates; [|by apply Rel_add_visited].
        intros alt sp sa sb _ _ Hab. apply IH; [lia|done].
      - intros ? ? [= <- <-]. eexists. split; [done|].
        by apply Rel_add_visited. }
    intros st1' r.
    destruct (match get decomposition part with Some _ => _ | None => _ end)
      as [[sta [res|]]|]; [| |done].
    + intros [= <- <-]. destruct (Hsim _ _ eq_refl) as (stb & -> & Hab).
      by exists stb.
    + intros [= <- <-]. destruct (Hsim _ _ eq_refl) as (stb & -> & Hab).
      exists (add_missing part stb). split; [done|].
      by apply Rel_add_missing.
Qed.

End Simulation.


(** Another missing-roots set changes neither the value returned nor the
    visited set. *)
Lemma expand_part_any_missing (fuel1 fuel2 : nat) (part : pystr)
    (st1 st2 : rstate) :
  (fuel1 ≤ fuel2)%nat → same_visited st1 st2 →
  simulates same_visited (expand_part fuel1 part st1)
                         (expand_part fuel2 part st2).
Proof.
  apply expand_part_simulates; unfold same_visited; simpl; congruence.
Qed.

End Resolver.

(** *** Termination *)

Section Termination.
Variable decomposition : pydict (list (list pystr)).
Variable rootmap : gmap pystr pystr.

Local Abbreviation expand_part := (expand_part decomposition rootmap).

Lemma get_Some_key {V} (d : pydict V) (k : pystr) (v : V) :
  get d k = Some v → k ∈ keys d.
Proof.
  induction d as [|[k' v'] d IH]; simpl; [done|].
  destruct (decide (k' = k)) as [->|_]; [left|right; auto].
Qed.

Lemma unvisited_mono (V V' : gset pystr) :
  V ⊆ V' → (unvisited decomposition V' ≤ unvisited decomposition V)%nat.
Proof. intros H. apply subseteq_size. set_solver. Qed.

Lemma unvisited_add (p : pystr) (V : gset pystr) :
  p ∈ keys decomposition → p ∉ V →
  (unvisited decomposition ({[p]} ∪ V) < unvisited decomposition V)%nat.
Proof.
  intros Hk Hv. apply subset_size. apply strict_spec_alt.
  split; [set_solver|]. intros Heq.
  assert (p ∈ (list_to_set (keys decomposition) ∖ V : gset pystr)) as Hin
    by (apply elem_of_difference; split; [by apply elem_of_list_to_set|done]).
  rewrite <- Heq in Hin. set_solver.
Qed.

Lemma size_list_to_set_le (l : list pystr) :
  (size (list_to_set l : gset pystr) ≤ length l)%nat.
Proof.
  induction l as [|x l IH].
  - by rewrite list_to_set_nil, size_empty.
  - rewrite list_to_set_cons, size_union_alt, size_singleton. simpl.
    pose proof (subseteq_size (list_to_set l ∖ {[x]}) (list_to_set l : gset pystr)
                  ltac:(set_solver)).
    lia.
Qed.

Lemma unvisited_le (V : gset pystr) :
  (unvisited decomposition V ≤ length decomposition)%nat.
Proof.
  unfold unvisited.
  etrans; [apply (subseteq_size _ (list_to_set (keys decomposition)));
           set_solver|].
  etrans; [apply size_list_to_set_le|].
  unfold keys. by rewrite length_map.
Qed.

Section TotalLoops.
Variable rec : resolver.
Variable V0 : gset pystr.
(** The callee returns, from every state that has visited [V0]. *)
Hypothesis rec_total :
  ∀ sp st, V0 ⊆ visited st →
    ∃ st' r, rec sp st = Some (st', r) ∧ visited st ⊆ visited st'.

Lemma expand_sub_parts_total (sub_parts expanded : list pystr)
    (st : rstate) :
  V0 ⊆ visited st →
  ∃ st' r, expand_sub_parts rec sub_parts expanded st = Some (st', r)
           ∧ visited st ⊆ visited st'.
Proof.
  revert expanded st. induction sub_parts as [|sp rest IH];
    intros expanded st Hst; simpl.
  - by exists st, (Some expanded).
  - destruct (rec_total sp st Hst) as (sta & [res|] & -> & Hsub).
    + destruct (IH (expanded ++ res) sta) as (stb & r & -> & Hsub');
        [set_solver|].
      exists stb, r. split; [done|set_solver].
    + by exists sta, None.
Qed.

Lemma try_alternatives_total (alts : list (list pystr)) (st : rstate) :
  V0 ⊆ visited st →
  ∃ st' r, try_alternatives rec alts st = Some (st', r)
           ∧ visited st ⊆ visited st'.
Proof.
  revert st. induction alts as [|alt more IH]; intros st Hst; simpl.
  - by exists st, None.
  - destruct (expand_sub_parts_total (apply_replacements alt) [] st Hst)
      as (sta & [res|] & -> & Hsub).
    + by exists sta, (Some res).
    + destruct (IH sta) as (stb & r & -> & Hsub'); [set_solver|].
      exists stb, r. split; [done|set_solver].
Qed.

End TotalLoops.

(** With more fuel than there are unvisited table keys, [expand_part]
    returns. *)
Lemma expand_part_total (fuel : nat) (part : pystr) (st : rstate) :
  (unvisited decomposition (visited st) < fuel)%nat →
  ∃ st' r, expand_part fuel part st = Some (st', r)
           ∧ visited st ⊆ visited st'.
Proof.
  revert part st. induction fuel as [|fuel IH]; intros part st Hfuel; [lia|].
  destruct (expand_part_cases rootmap part st) as [Hr|[[Hr Hv]|[Hr Hv]]].
  - rewrite expand_part_root by done. by exists st, (Some [part]).
  - rewrite expand_part_visited by done. by exists st, None.
  - rewrite expand_part_fresh by done.
    destruct (get decomposition part) as [alts|] eqn:Hget.
    + apply get_Some_key in Hget.
      pose proof (unvisited_add part (visited st) Hget Hv) as Hlt.
      destruct (try_alternatives_total (expand_part fuel)
                  ({[part]} ∪ visited st)) with (alts := alts)
                  (st := add_visited part st)
        as (sta & r & -> & Hsub); [|done|].
      * intros sp s Hs. apply IH.
        pose proof (unvisited_mono _ _ Hs). lia.
      * simpl in Hsub.
        destruct r as [res|]; eexists _, _; (split; [done|]);
          simpl; set_solver.
    + eexists _, _. split; [done|]. simpl. set_solver.
Qed.

(** In particular, fuel above the number of table entries is enough from
    any state. *)
Lemma expand_part_enough (fuel : nat) (part : pystr) (st : rstate) :
  (length decomposition < fuel)%nat →
  ∃ st' r, expand_part fuel part st = Some (st', r).
Proof.
  intros Hfuel.
  destruct (expand_part_total fuel part st) as (st' & r & H & _).
  - pose proof (unvisited_le (visited st)). lia.
  - by exists st', r.
Qed.

End Termination.

(** *** Failure *)

Section Failure.
Variable decomposition : pydict (list (list pystr)).
Variable rootmap : gmap pystr pystr.

Local Abbreviation expand_part := (expand_part decomposition rootmap).




(** Once a part that is not a root has been visited, a sequence that
    contains it does not resolve. *)
Lemma expand_sub_parts_visited (fuel : nat) (x : pystr)
    (sub_parts expanded : list pystr) (st st' : rstate) r :
  rootmap !! x = None → x ∈ visited st → x ∈ sub_parts →
  expand_sub_parts (expand_part fuel) sub_parts expanded st = Some (st', r) →
  r = None.
Proof.
  intros Hr. revert expanded st.
  induction sub_parts as [|sp rest IH]; intros expanded st Hv Hin; simpl.
  - by apply elem_of_nil in Hin.
  - destruct (expand_part fuel sp st) as [[sta [res|]]|] eqn:E; [| |done].
    + apply elem_of_cons in Hin as [->|Hin].
      * destruct fuel; [done|].
        rewrite expand_part_visited in E by done. done.
      * apply expand_part_grows in E as [Hsub _].
        apply IH; [set_solver|done].
    + by intros [= <- <-].
Qed.

(** A sequence with the same non-root sub-part at two places does not
    resolve. *)
Lemma expand_sub_parts_duplicate (fuel : nat) (x : pystr) (i j : nat)
    (sub_parts expanded : list pystr) (st st' : rstate) r :
  rootmap !! x = None → (i < j)%nat →
  sub_parts !! i = Some x → sub_parts !! j = Some x →
  expand_sub_parts (expand_part fuel) sub_parts expanded st = Some (st', r) →
  r = None.
Proof.
  intros Hr. revert i j expanded st.
  induction sub_parts as [|sp rest IH]; intros i j expanded st Hij Hi Hj;
    simpl; [done|].
  destruct (expand_part fuel sp st) as [[sta [res|]]|] eqn:E; [| |done].
  - destruct j as [|j]; [lia|]. simpl in Hj.
    destruct i as [|i]; simpl in Hi.
    + injection Hi as ->.
      apply expand_part_grows in E as [_ Hx].
      apply expand_sub_parts_visited with (x := x); [done|by apply Hx|].
      by eapply list_elem_of_lookup_2.
    + apply (IH i j); [lia|done..].
  - by intros [= <- <-].
Qed.

(** What resolves, resolves to roots. *)
Lemma expand_sub_parts_roots (rec : resolver)
    (sub_parts expanded : list pystr) (st st' : rstate) res :
  (∀ sp s s' r', rec sp s = Some (s', Some r') →
     Forall (λ p, is_Some (rootmap !! p)) r') →
  Forall (λ p, is_Some (rootmap !! p)) expanded →
  expand_sub_parts rec sub_parts expanded st = Some (st', Some res) →
  Forall (λ p, is_Some (rootmap !! p)) res.
Proof.
  intros Hrec. revert expanded st.
  induction sub_parts as [|sp rest IH]; intros expanded st Hexp; simpl.
  - by intros [= <- <-].
  - destruct (rec sp st) as [[sta [r1|]]|] eqn:E; [| |done].
    + apply IH. apply Forall_app. split; [done|]. by eapply Hrec.
    + done.
Qed.

Lemma try_alternatives_roots (rec : resolver)
    (alts : list (list pystr)) (st st' : rstate) res :
  (∀ sp s s' r', rec sp s = Some (s', Some r') →
     Forall (λ p, is_Some (rootmap !! p)) r') →
  try_alternatives rec alts st = Some (st', Some res) →
  Forall (λ p, is_Some (rootmap !! p)) res.
Proof.
  intros Hrec. revert st.
  induction alts as [|alt more IH]; intros st; simpl; [done|].
  destruct (expand_sub_parts rec _ [] st) as [[sta [r1|]]|] eqn:E;
    [| |done].
  - intros [= <- <-]. by eapply expand_sub_parts_roots in E.
  - apply IH.
Qed.

Lemma expand_part_roots (fuel : nat) (part : pystr) (st st' : rstate) res :
  expand_part fuel part st = Some (st', Some res) →
  Forall (λ p, is_Some (rootmap !! p)) res.
Proof.
  revert part st st' res. induction fuel as [|fuel IH];
    intros part st st' res; [done|].
  destruct (expand_part_cases rootmap part st) as [Hr|[[Hr Hv]|[Hr Hv]]].
  - rewrite expand_part_root by done. intros [= <- <-]. by constructor.
  - by rewrite expand_part_visited.
  - rewrite expand_part_fresh by done.
    destruct (get decomposition part) as [alts|]; [|done].
    destruct (try_alternatives _ alts _) as [[sta [r1|]]|] eqn:E; [| |done].
    + intros [= <- <-]. eapply try_alternatives_roots in E; [done|].
      intros sp s s' r'. apply IH.
    + done.
Qed.

End Failure.

End ResolverFacts.

(** ** The Decomposition Resolver: termination, cycles, the visited set *)

(** ** Cycles longer than the depth allowed *)

Module CycleFacts.
Import Generator Props ResolverFacts.




Lemma get_cycle_table_key (n : nat) (p : pystr) alts :
  get (cycle_table n) p = Some alts → ∃ k, (k < n)%nat ∧ p = cycle_part k.
Proof.
  unfold cycle_table. generalize (seq 0 n) (elem_of_seq 0 n).
  intros l Hl Hget.
  assert (∃ k, k ∈ l ∧ p = cycle_part k) as (k & Hk & ->).
  { clear Hl. induction l as [|j l IH]; simpl in Hget; [done|].
    destruct (decide (cycle_part j = p)) as [<-|_].
    - exists j. split; [by left|done].
    - destruct (IH Hget) as (k & ? & ?). exists k. split; [by right|done]. }
  exists k. split; [|done]. apply Hl in Hk. lia.
Qed.





End CycleFacts.

Module ResolverClaims.
Import Generator Props ResolverFacts CycleFacts.




(** An empty alternative is a way out of a cycle: 甲 is made of 乙 and 乙 of
    甲, nothing is a root, and 甲 has an empty alternative besides (a line
    with two tabs in a row gives one); the resolver returns the empty list
    for 甲, not [None]. *)
Example empty_alternative_resolves :
  let decomposition := load_decomposition
                         [u "甲" ++ [9] ++ u "乙" ++ [9; 9] ++ u "乙" ++ [10];
                          u "乙" ++ [9] ++ u "甲" ++ [10]] in
  decomposition = [(u "甲", [[u "乙"]; []; [u "乙"]]); (u "乙", [[u "甲"]])] ∧
  expand_part decomposition ∅ 3 (u "甲") (RState ∅ ∅)
  = Some (RState {[ u "甲"; u "乙" ]} {[ u "乙" ]}, Some []).
Proof. split; vm_compute; reflexivity. Qed.

(** C9 (amended). Within one call of [expand_part] the visited set only
    grows, and a part that is not a root is in it once the part has been
    expanded, whether the expansion failed or succeeded. Hence an
    alternative whose sequence of sub-parts after the Substitution Pass (the
    sequence the loop goes through, not the alternative as the table has it)
    has the same non-root sub-part at two places does not resolve: the loop
    over it returns [None] and the next alternative is tried. *)
Theorem visited_never_removed
    (decomposition : pydict (list (list pystr)))
    (rootmap : gmap pystr pystr) (fuel : nat) :
  (∀ part st st' r,
     expand_part decomposition rootmap fuel part st = Some (st', r) →
     visited st ⊆ visited st' ∧
     (rootmap !! part = None → part ∈ visited st')) ∧
  (∀ alt more i j x st,
     (length decomposition < fuel)%nat →
     rootmap !! x = None → (i < j)%nat →
     apply_replacements alt !! i = Some x →
     apply_replacements alt !! j = Some x →
     ∃ st',
       expand_sub_parts (expand_part decomposition rootmap fuel)
         (apply_replacements alt) [] st = Some (st', None) ∧
       try_alternatives (expand_part decomposition rootmap fuel)
         (alt :: more) st
       = try_alternatives (expand_part decomposition rootmap fuel) more st').
Proof.
  split.
  - intros part st st' r. apply expand_part_grows.
  - intros alt more i j x st Hfuel Hr Hij Hi Hj.
    destruct (expand_sub_parts_total
                (expand_part decomposition rootmap fuel) ∅)
      with (sub_parts := apply_replacements alt) (expanded := @nil pystr)
           (st := st)
      as (st' & r & H & _); [|set_solver|].
    + intros sp s _. apply expand_part_total.
      pose proof (unvisited_le decomposition (visited s)). lia.
    + assert (r = None) as ->
        by exact (expand_sub_parts_duplicate _ _ _ _ _ _ _ _ _ _ _
                    Hr Hij Hi Hj H).
      exists st'. split; [exact H|]. simpl. by rewrite H.
Qed.

(** 乙 is the root 一 and resolves on its own, yet the alternative 乙乙 of
    another part does not. *)
Lemma visited_never_removed_witness :
  let decomposition := [(u "甲", [[u "乙"; u "乙"]]); (u "乙", [[u "一"]])] in
  let rootmap : gmap pystr pystr := {[ u "一" := u "g" ]} in
  expand_part decomposition rootmap 3 (u "乙") (RState ∅ ∅)
    = Some (RState {[ u "乙" ]} ∅, Some [u "一"]) ∧
  ∃ st', expand_sub_parts (expand_part decomposition rootmap 3)
           (apply_replacements [u "乙"; u "乙"]) [] (RState {[ u "甲" ]} ∅)
         = Some (st', None).
Proof.
  intros decomposition rootmap. split.
  - vm_compute. reflexivity.
  - destruct (proj2 (visited_never_removed decomposition rootmap 3)
                [u "乙"; u "乙"] [] 0%nat 1%nat (u "乙")
                (RState {[ u "甲" ]} ∅))
      as (st' & H & _); [simpl; lia|done|lia|done|done|].
    by exists st'.
Defined.

(** C9, as the claim states it, fails where the Substitution Pass takes one
    of the two occurrences away: 甘 is not a root, resolves on its own (to
    口) and stands twice in the alternative 甘一甘 of 甲; the loop goes
    through 其上甘, and both the alternative and 甲 resolve. *)
Lemma duplicate_in_alternative_resolves :
  let decomposition := [(u "甲", [[u "甘"; u "一"; u "甘"]]);
                        (u "甘", [[u "口"]])] in
  let rootmap : gmap pystr pystr :=
    {[ u "其" := u "q"; u "上" := u "s"; u "口" := u "k" ]} in
  let alt := [u "甘"; u "一"; u "甘"] in
  rootmap !! u "甘" = None ∧
  alt !! 0%nat = Some (u "甘") ∧ alt !! 2%nat = Some (u "甘") ∧
  expand_part decomposition rootmap 3 (u "甘") (RState ∅ ∅)
  = Some (RState {[ u "甘" ]} ∅, Some [u "口"]) ∧
  apply_replacements alt = [u "其"; u "上"; u "甘"] ∧
  expand_sub_parts (expand_part decomposition rootmap 3)
                   (apply_replacements alt) [] (RState {[ u "甲" ]} ∅)
  = Some (RState {[ u "甲"; u "甘" ]} ∅, Some [u "其"; u "上"; u "口"]) ∧
  expand_part decomposition rootmap 3 (u "甲") (RState ∅ ∅)
  = Some (RState {[ u "甲"; u "甘" ]} ∅, Some [u "其"; u "上"; u "口"]).
Proof. repeat split; vm_compute; reflexivity. Qed.

(** The same through [expand_part]: 甲, whose only alternative is 乙乙, does
    not resolve. *)
Example duplicate_sub_part_fails :
  let decomposition := [(u "甲", [[u "乙"; u "乙"]]); (u "乙", [[u "一"]])] in
  let rootmap : gmap pystr pystr := {[ u "一" := u "g" ]} in
  expand_part decomposition rootmap 3 (u "甲") (RState ∅ ∅)
    = Some (RState {[ u "甲"; u "乙" ]} {[ u "甲" ]}, None).
Proof. vm_compute. reflexivity. Qed.

(** The visited set is per top-level part: as the alternative of a
    character, handed to [get_code_for_decomp], 乙乙 resolves, each 乙 with
    a visited set of its own. *)
Example top_level_duplicate_resolves :
  let decomposition := [(u "甲", [[u "乙"; u "乙"]]); (u "乙", [[u "一"]])] in
  let rootmap : gmap pystr pystr := {[ u "一" := u "g" ]} in
  get_code_for_decomp decomposition rootmap 3 [u "乙"; u "乙"] (u "甲")
                      (GState ∅ [] [] [])
    = Some (GState ∅ [] [] [], Some (u "gg")).
Proof. vm_compute. reflexivity. Qed.

(** The sub-parts are those left by the Substitution Pass: the alternative
    甘一甘一 is gone through as 其上其上, and resolves when 其 and 上 are roots,
    although 甘 is not. *)
Example substituted_duplicate_resolves :
  let decomposition := [(u "甲", [[u "甘"; u "一"; u "甘"; u "一"]])] in
  let rootmap : gmap pystr pystr := {[ u "其" := u "q"; u "上" := u "s" ]} in
  expand_part decomposition rootmap 2 (u "甲") (RState ∅ ∅)
    = Some (RState {[ u "甲" ]} ∅, Some [u "其"; u "上"; u "其"; u "上"]).
Proof. vm_compute. reflexivity. Qed.

End ResolverClaims.

(** ** The Shape-Code Deriver *)

Module DeriverFacts.
Import Generator Props ResolverFacts.

Section Deriver.
Variable decomposition : pydict (list (list pystr)).
Variable rootmap : gmap pystr pystr.

(** The top-level loop resolves to roots. *)
Lemma expand_top_roots (fuel : nat) (ps expanded : list pystr)
    (missing missing' : gset pystr) res :
  Forall (λ p, is_Some (rootmap !! p)) expanded →
  expand_top decomposition rootmap fuel ps expanded missing
    = Some (missing', Some res) →
  Forall (λ p, is_Some (rootmap !! p)) res.
Proof.
  revert expanded missing. induction ps as [|p rest IH];
    intros expanded missing Hexp; simpl.
  - by intros [= <- <-].
  - destruct (expand_part _ _ fuel p _) as [[sta [r1|]]|] eqn:E; [| |done].
    + apply IH. apply Forall_app. split; [done|].
      by eapply expand_part_roots.
    + done.
Qed.

(** Every root has its letter, in order. *)
Lemma root_letters_all (expanded : list pystr) :
  Forall (λ p, is_Some (rootmap !! p)) expanded →
  Forall2 (λ p l, rootmap !! p = Some l) expanded
          (root_letters rootmap expanded).
Proof.
  unfold root_letters. induction 1 as [|p ps [l Hl] _ IH]; simpl.
  - constructor.
  - rewrite Hl. simpl. by constructor.
Qed.

Lemma root_letters_values (expanded : list pystr) (l : pystr) :
  l ∈ root_letters rootmap expanded → ∃ p, rootmap !! p = Some l.
Proof.
  unfold root_letters. intros (p & _ & Hp)%list_elem_of_omap. by exists p.
Qed.

(** The top-level loop returns with fuel above the number of entries,
    and neither more fuel nor another missing-roots set changes the value. *)
Lemma expand_top_enough (fuel : nat) (ps expanded : list pystr)
    (missing : gset pystr) :
  (length decomposition < fuel)%nat →
  ∃ missing' r,
    expand_top decomposition rootmap fuel ps expanded missing
      = Some (missing', r).
Proof.
  intros Hfuel. revert expanded missing.
  induction ps as [|p rest IH]; intros expanded missing; simpl.
  - by eexists _, _.
  - destruct (expand_part_enough decomposition rootmap fuel p
                (RState ∅ missing) Hfuel) as (sta & [r1|] & ->).
    + apply IH.
    + by eexists _, _.
Qed.

Lemma expand_top_any (fuel1 fuel2 : nat) (ps expanded : list pystr)
    (m1 m2 m1' : gset pystr) r :
  (fuel1 ≤ fuel2)%nat →
  expand_top decomposition rootmap fuel1 ps expanded m1 = Some (m1', r) →
  ∃ m2', expand_top decomposition rootmap fuel2 ps expanded m2
           = Some (m2', r).
Proof.
  intros Hle. revert expanded m1 m2.
  induction ps as [|p rest IH]; intros expanded m1 m2; simpl.
  - intros [= <- <-]. by eexists.
  - assert (same_visited (RState ∅ m1) (RState ∅ m2)) as Hst by done.
    pose proof (expand_part_any_missing decomposition rootmap fuel1 fuel2 p
                  _ _ Hle Hst) as Hsim.
    destruct (expand_part _ _ fuel1 p _) as [[sta [r1|]]|]; [| |done].
    + destruct (Hsim _ _ eq_refl) as (stb & -> & _). apply IH.
    + destruct (Hsim _ _ eq_refl) as (stb & -> & _).
      intros [= <- <-]. by eexists.
Qed.

End Deriver.

End DeriverFacts.

Module DeriverClaims.
Import Generator Props ResolverFacts DeriverFacts.

(** C1. When every part of an alternative resolves, the resolved roots are
    mapped to their letters one for one, and [get_code_for_decomp] returns:
    with exactly 1 letter, [None], after appending the character and the
    concatenated alternative to the single-letter list; with 2 or 3
    letters, all of them; with 4 or more, the first three and the last. *)
Theorem get_code_for_decomp_rule
    (decomposition : pydict (list (list pystr)))
    (rootmap : gmap pystr pystr) (fuel : nat)
    (parts : list pystr) (char : pystr) (g : gstate)
    (missing : gset pystr) (expanded : list pystr) :
  expand_top decomposition rootmap fuel (apply_replacements parts) []
             (g_missing_roots g) = Some (missing, Some expanded) →
  let letters := root_letters rootmap expanded in
  let run := get_code_for_decomp decomposition rootmap fuel parts char g in
  let unchanged :=
    GState missing (g_singlecode_chars g) (g_fout g) (g_missing_lines g) in
  Forall2 (λ p l, rootmap !! p = Some l) expanded letters ∧
  (length letters = 1%nat →
     run = Some (GState missing
                        (g_singlecode_chars g ++ [(char, join parts)])
                        (g_fout g) (g_missing_lines g),
                 None)) ∧
  (length letters = 2%nat ∨ length letters = 3%nat →
     run = Some (unchanged, Some (join letters))) ∧
  ((4 ≤ length letters)%nat →
     ∃ a b c z : pystr,
       letters !! 0%nat = Some a ∧ letters !! 1%nat = Some b ∧
       letters !! 2%nat = Some c ∧ last letters = Some z ∧
       run = Some (unchanged, Some (a ++ b ++ c ++ z))).
Proof.
  intros H letters run unchanged.
  split; [|split; [|split]].
  - apply root_letters_all. by eapply expand_top_roots in H.
  - intros Hlen. subst run. unfold get_code_for_decomp, code_of_letters.
    rewrite H. fold letters. clearbody letters.
    destruct (decide (letters = [])) as [E|_]; [by rewrite E in Hlen|].
    by destruct (decide (length letters = 1%nat)).
  - intros Hlen. subst run. unfold get_code_for_decomp, code_of_letters.
    rewrite H. fold letters. clearbody letters.
    destruct (decide (letters = [])) as [E|_];
      [rewrite E in Hlen; simpl in Hlen; lia|].
    destruct (decide (length letters = 1%nat)); [lia|].
    by destruct (decide (4 ≤ length letters)%nat); [lia|].
  - intros Hlen. subst run. unfold get_code_for_decomp, code_of_letters.
    rewrite H. fold letters. clearbody letters.
    destruct letters as [|a [|b [|c rest]]]; simpl in Hlen; try lia.
    destruct (last (_ :: _)) as [z|] eqn:Hz; [|by apply last_None in Hz].
    exists a, b, c, z. repeat (split; [done|]).
    destruct (decide (a :: b :: c :: rest = [])); [done|].
    destruct (decide (length (a :: b :: c :: rest) = 1%nat)); [done|].
    destruct (decide (4 ≤ length (a :: b :: c :: rest))%nat);
      [|simpl in *; lia].
    done.
Qed.

(** The example of the specification: 旦 is 日 over 一, with the roots
    一 = G, 口 = K and 日 = J, and gets the code JG. *)
Lemma get_code_for_decomp_rule_witness :
  let decomposition := [(u "旦", [[u "日"; u "一"]])] in
  let rootmap : gmap pystr pystr :=
    {[ u "一" := u "G"; u "口" := u "K"; u "日" := u "J" ]} in
  let g := GState ∅ [] [] [] in
  expand_top decomposition rootmap 2 (apply_replacements [u "日"; u "一"]) []
             (g_missing_roots g) = Some (∅, Some [u "日"; u "一"]) ∧
  get_code_for_decomp decomposition rootmap 2 [u "日"; u "一"] (u "旦") g
    = Some (g, Some (u "JG")).
Proof.
  intros decomposition rootmap g.
  assert (expand_top decomposition rootmap 2
            (apply_replacements [u "日"; u "一"]) [] (g_missing_roots g)
          = Some (∅, Some [u "日"; u "一"])) as H by (vm_compute; reflexivity).
  split; [exact H|].
  destruct (get_code_for_decomp_rule decomposition rootmap 2
              [u "日"; u "一"] (u "旦") g ∅ _ H) as (_ & _ & H23 & _).
  rewrite H23; [reflexivity|]. left. vm_compute. reflexivity.
Defined.

(** The examples of the specification: three letters are kept, of five the
    fourth is dropped, and one letter gives no code but an entry in the
    single-letter list. *)
Example three_letters_kept :
  let rootmap : gmap pystr pystr :=
    {[ u "一" := u "G"; u "口" := u "K"; u "日" := u "J" ]} in
  get_code_for_decomp [] rootmap 1 [u "日"; u "口"; u "一"] (u "字")
                      (GState ∅ [] [] [])
    = Some (GState ∅ [] [] [], Some (u "JKG")).
Proof. vm_compute. reflexivity. Qed.

Example five_letters_first_three_and_last :
  let rootmap : gmap pystr pystr :=
    {[ u "一" := u "a"; u "二" := u "b"; u "三" := u "c";
       u "四" := u "d"; u "五" := u "e" ]} in
  get_code_for_decomp [] rootmap 1
                      [u "一"; u "二"; u "三"; u "四"; u "五"] (u "字")
                      (GState ∅ [] [] [])
    = Some (GState ∅ [] [] [], Some (u "abce")).
Proof. vm_compute. reflexivity. Qed.

Example one_letter_rejected :
  let rootmap : gmap pystr pystr :=
    {[ u "一" := u "G"; u "口" := u "K"; u "日" := u "J" ]} in
  get_code_for_decomp [] rootmap 1 [u "口"] (u "字") (GState ∅ [] [] [])
    = Some (GState ∅ [(u "字", u "口")] [] [], None).
Proof. vm_compute. reflexivity. Qed.

End DeriverClaims.

(** ** The Table Generator *)

Module TableFacts.
Import Generator Props ResolverFacts DeriverFacts.

(** Every letter of a loaded root map is a one-character string. *)
Lemma load_roots_from_letters (lines : list pystr)
    (rootmap : gmap pystr pystr) :
  (∀ p l, rootmap !! p = Some l → length l = 1%nat) →
  ∀ p l, load_roots_from lines rootmap !! p = Some l → length l = 1%nat.
Proof.
  revert rootmap. induction lines as [|line rest IH]; intros rootmap Hm;
    simpl; [done|].
  destruct (strip line) as [|letter roots]; [by apply IH|].
  apply IH. clear IH. revert rootmap Hm.
  induction roots as [|root roots IH]; intros rootmap Hm; simpl; [done|].
  apply IH. intros p l. rewrite lookup_insert.
  case_decide; [|apply Hm]. intros Hl. by injection Hl as <-.
Qed.

Lemma load_roots_letters (lines : list pystr) (p l : pystr) :
  load_roots lines !! p = Some l → length l = 1%nat.
Proof. apply load_roots_from_letters. intros ? ?. by rewrite lookup_empty. Qed.

(** The code does not depend on the character or on the list the
    single-letter entries go to. *)
Lemma code_of_letters_code (codes parts parts' : list pystr)
    (char char' : pystr) (single single' : list (pystr * pystr)) :
  (code_of_letters codes parts char single).2
  = (code_of_letters codes parts' char' single').2.
Proof. unfold code_of_letters. by repeat case_decide. Qed.

(** A code made of non-empty letters is not empty. *)
Lemma code_of_letters_truthy (codes parts : list pystr) (char : pystr)
    (single : list (pystr * pystr)) :
  Forall (λ l, l ≠ []) codes →
  truthy (code_of_letters codes parts char single).2
  = bool_decide (is_Some (code_of_letters codes parts char single).2).
Proof.
  intros Hne. unfold code_of_letters.
  destruct codes as [|a codes]; [done|].
  apply Forall_cons in Hne as [Ha _].
  destruct a as [|x a]; [done|].
  repeat case_decide; simpl; try done.
Qed.

Section Table.
Variable decomposition : pydict (list (list pystr)).
Variable rootmap : gmap pystr pystr.
Hypothesis letters_nonempty : ∀ p l, rootmap !! p = Some l → l ≠ [].

Lemma root_letters_nonempty (expanded : list pystr) :
  Forall (λ l, l ≠ []) (root_letters rootmap expanded).
Proof.
  apply Forall_forall. intros l (p & Hp)%root_letters_values.
  by eapply letters_nonempty.
Qed.

(** With enough fuel [get_code_for_decomp] returns the code [code_of]
    names, writes no row, and a code it returns is not empty. *)
Lemma get_code_for_decomp_code_of (fuel : nat) (parts : list pystr)
    (char : pystr) (g : gstate) :
  (length decomposition < fuel)%nat →
  ∃ g',
    get_code_for_decomp decomposition rootmap fuel parts char g
      = Some (g', code_of decomposition rootmap parts) ∧
    g_fout g' = g_fout g ∧
    truthy (code_of decomposition rootmap parts)
      = bool_decide (is_Some (code_of decomposition rootmap parts)).
Proof.
  intros Hfuel. unfold code_of, get_code_for_decomp.
  destruct (expand_top_enough decomposition rootmap
              (S (length decomposition)) (apply_replacements parts) [] ∅)
    as (m0 & r & H0); [lia|].
  simpl g_missing_roots. simpl g_singlecode_chars.
  assert (S (length decomposition) ≤ fuel)%nat as Hle by lia.
  destruct (expand_top_any decomposition rootmap _ fuel _ _ _
              (g_missing_roots g) _ _ Hle H0) as (m & H).
  rewrite H0, H. destruct r as [expanded|];
    [|eexists; split; [reflexivity|]; split; reflexivity].
  pose proof (code_of_letters_truthy (root_letters rootmap expanded)
                parts [] [] (root_letters_nonempty expanded)) as Ht.
  pose proof (code_of_letters_code (root_letters rootmap expanded)
                parts parts char [] (g_singlecode_chars g) []) as Hc.
  destruct (code_of_letters _ parts char _) as [single code].
  destruct (code_of_letters _ parts [] _) as [single0 code0].
  simpl in *. subst code0.
  eexists. split; [reflexivity|]. split; [reflexivity|done].
Qed.

(** The rows of one character. *)
Lemma main_alternatives_rows (fuel : nat) (char : pystr)
    (decomps : list (list pystr)) (success : bool) (g : gstate) :
  (length decomposition < fuel)%nat →
  ∃ g' success',
    main_alternatives decomposition rootmap fuel char decomps success g
      = Some (g', success') ∧
    g_fout g' = g_fout g ++ rows_of decomposition rootmap [(char, decomps)].
Proof.
  intros Hfuel. unfold rows_of. simpl. rewrite app_nil_r.
  revert success g. induction decomps as [|parts more IH];
    intros success g; simpl.
  - eexists _, _. by rewrite app_nil_r.
  - destruct (get_code_for_decomp_code_of fuel parts char g Hfuel)
      as (g' & -> & Hout & Ht).
    rewrite Ht. destruct (code_of decomposition rootmap parts) as [code|];
      simpl.
    + edestruct IH as (g'' & s'' & -> & Hout'').
      eexists _, _. split; [done|]. rewrite Hout''. simpl.
      by rewrite Hout, <- app_assoc.
    + edestruct IH as (g'' & s'' & -> & Hout'').
      eexists _, _. split; [done|]. by rewrite Hout'', Hout.
Qed.

(** The rows of the table. *)
Lemma main_items_rows (fuel : nat) (items : pydict (list (list pystr)))
    (g : gstate) :
  (length decomposition < fuel)%nat →
  ∃ g',
    main_items decomposition rootmap fuel items g = Some g' ∧
    g_fout g' = g_fout g ++ rows_of decomposition rootmap items.
Proof.
  intros Hfuel. revert g. induction items as [|[char decomps] more IH];
    intros g; simpl.
  - eexists. by rewrite app_nil_r.
  - destruct (main_alternatives_rows fuel char decomps false g Hfuel)
      as (g' & success & -> & Hout).
    edestruct IH as (g'' & -> & Hout'').
    eexists. split; [done|]. rewrite Hout''.
    unfold rows_of in *. simpl in *. rewrite app_nil_r in Hout.
    destruct success; simpl; rewrite Hout; by rewrite <- app_assoc.
Qed.

End Table.

End TableFacts.

Module TableClaims.
Import Generator Props TableFacts.

(** C4. [main] goes through the characters of the decomposition table in
    order and, for each, through all its alternatives in order; the rows it
    writes are exactly one row per alternative whose code is not [None]
    (so several rows for a character with several such alternatives),
    where the code of an alternative is what [get_code_for_decomp]
    returns for it. *)
Theorem main_emits_every_alternative
    (fuel : nat) (root_lines dict_lines : list pystr) :
  let rootmap := load_roots root_lines in
  let decomposition := load_decomposition dict_lines in
  (length decomposition < fuel)%nat →
  ∃ g,
    main fuel root_lines dict_lines = Some g ∧
    g_fout g = rows_of decomposition rootmap decomposition ∧
    ∀ parts char g0, ∃ g1,
      get_code_for_decomp decomposition rootmap fuel parts char g0
        = Some (g1, code_of decomposition rootmap parts).
Proof.
  intros rootmap decomposition Hfuel.
  assert (∀ p l, rootmap !! p = Some l → l ≠ []) as Hletters.
  { intros p l Hl%load_roots_letters ->. done. }
  destruct (main_items_rows decomposition rootmap Hletters fuel decomposition
              (GState ∅ [] [] []) Hfuel) as (g & Hmain & Hout).
  exists g. split; [done|]. split; [done|].
  intros parts char g0.
  destruct (get_code_for_decomp_code_of decomposition rootmap Hletters fuel
              parts char g0 Hfuel) as (g1 & H & _).
  by exists g1.
Qed.

(** 旦 has two alternatives that both resolve, 日一 and 口一, and gets two
    rows; 吕 resolves to a single letter and gets none. *)
Lemma main_emits_every_alternative_witness :
  let root_lines := [u "G一"; u "K口"; u "J日"] in
  let dict_lines := [u "旦" ++ [9] ++ u "日一" ++ [9] ++ u "口一";
                     u "吕" ++ [9] ++ u "口"] in
  (length (load_decomposition dict_lines) < 3)%nat ∧
  ∃ g,
    main 3 root_lines dict_lines = Some g ∧
    g_fout g = [row (u "旦") (u "JG"); row (u "旦") (u "KG")].
Proof.
  intros root_lines dict_lines.
  assert (length (load_decomposition dict_lines) < 3)%nat as Hfuel
    by (vm_compute; lia).
  split; [exact Hfuel|].
  destruct (main_emits_every_alternative 3 root_lines dict_lines Hfuel)
    as (g & Hmain & Hout & _).
  exists g. split; [exact Hmain|]. rewrite Hout. vm_compute. reflexivity.
Defined.

End TableClaims.

(** ** The Substitution Pass inside the resolver *)

Module NormalizationFacts.
Import Generator Props SubstitutionFacts.

Lemma get_normalize_table (decomposition : pydict (list (list pystr)))
    (part : pystr) :
  get (normalize_table decomposition) part
  = map apply_replacements <$> get decomposition part.
Proof.
  induction decomposition as [|[k alts] d IH]; simpl; [done|].
  by destruct (decide (k = part)).
Qed.

(** The loops depend on the callee only through its results. *)
Lemma expand_sub_parts_ext (rec1 rec2 : resolver)
    (sub_parts expanded : list pystr) (st : rstate) :
  (∀ sp s, rec1 sp s = rec2 sp s) →
  expand_sub_parts rec1 sub_parts expanded st
  = expand_sub_parts rec2 sub_parts expanded st.
Proof.
  intros Hrec. revert expanded st.
  induction sub_parts as [|sp rest IH]; intros expanded st; simpl; [done|].
  rewrite Hrec. by destruct (rec2 sp st) as [[sta [res|]]|].
Qed.

(** The loop over the alternatives is the plain loop over the substituted
    alternatives. *)
Lemma try_alternatives_plain (rec1 rec2 : resolver)
    (alts : list (list pystr)) (st : rstate) :
  (∀ sp s, rec1 sp s = rec2 sp s) →
  try_alternatives rec1 alts st
  = Plain.try_alternatives rec2 (map apply_replacements alts) st.
Proof.
  intros Hrec. revert st.
  induction alts as [|alt more IH]; intros st; simpl; [done|].
  rewrite (expand_sub_parts_ext rec1 rec2) by done.
  by destruct (expand_sub_parts rec2 _ [] st) as [[sta [res|]]|].
Qed.

Section Refinement.
Variable decomposition : pydict (list (list pystr)).
Variable rootmap : gmap pystr pystr.

Lemma expand_part_plain (fuel : nat) (part : pystr) (st : rstate) :
  expand_part decomposition rootmap fuel part st
  = Plain.expand_part (normalize_table decomposition) rootmap fuel part st.
Proof.
  revert part st. induction fuel as [|fuel IH]; intros part st; [done|].
  simpl. rewrite get_normalize_table.
  destruct (decide (is_Some (rootmap !! part))); [done|].
  destruct (decide (part ∈ visited st)); [done|].
  destruct (get decomposition part) as [alts|]; simpl; [|done].
  by rewrite (try_alternatives_plain _
                (Plain.expand_part (normalize_table decomposition)
                                   rootmap fuel)).
Qed.

Lemma expand_top_plain (fuel : nat) (ps expanded : list pystr)
    (missing : gset pystr) :
  expand_top decomposition rootmap fuel ps expanded missing
  = Plain.expand_top (normalize_table decomposition) rootmap fuel ps
                     expanded missing.
Proof.
  revert expanded missing. induction ps as [|p rest IH];
    intros expanded missing; simpl; [done|].
  rewrite expand_part_plain.
  by destruct (Plain.expand_part _ _ fuel p _) as [[sta [res|]]|].
Qed.

End Refinement.

(** Normalizing a normalized table changes nothing. *)
Lemma normalize_table_idempotent
    (decomposition : pydict (list (list pystr))) :
  normalize_table (normalize_table decomposition)
  = normalize_table decomposition.
Proof.
  unfold normalize_table. rewrite map_map. apply map_ext.
  intros [k alts]. simpl. f_equal. rewrite map_map. apply map_ext.
  apply apply_replacements_fixed.
Qed.

End NormalizationFacts.

Module NormalizationClaims.
Import Generator Props NormalizationFacts.

(** C7. The Substitution Pass is applied to every sequence of sub-parts
    before any element of the sequence is expanded, at every level of the
    recursion: [expand_part] is the resolver without the pass run on the
    table whose alternatives have all been substituted, and
    [get_code_for_decomp] is the deriver without the pass run on the
    substituted alternative over that table. *)
Theorem substitution_before_every_expansion
    (decomposition : pydict (list (list pystr)))
    (rootmap : gmap pystr pystr) (fuel : nat) :
  (∀ part st,
     expand_part decomposition rootmap fuel part st
     = Plain.expand_part (normalize_table decomposition) rootmap fuel part st)
  ∧
  (∀ parts char g,
     get_code_for_decomp decomposition rootmap fuel parts char g
     = Plain.get_code_for_decomp (normalize_table decomposition) rootmap fuel
         (apply_replacements parts) parts char g).
Proof.
  split.
  - apply expand_part_plain.
  - intros parts char g.
    unfold get_code_for_decomp, Plain.get_code_for_decomp.
    by rewrite expand_top_plain.
Qed.

(** Re-applying the pass is harmless: the resolver gives the same on a
    table that has already been substituted. *)
Lemma expand_part_normalized_table
    (decomposition : pydict (list (list pystr)))
    (rootmap : gmap pystr pystr) (fuel : nat) (part : pystr) (st : rstate) :
  expand_part (normalize_table decomposition) rootmap fuel part st
  = expand_part decomposition rootmap fuel part st.
Proof.
  by rewrite !expand_part_plain, normalize_table_idempotent.
Qed.

(** The pass bears on the sequences that are about to be expanded, not on
    what an expansion returns: 乙 expands to the root 甘, and the roots
    甘 一 returned for 甲 are left as they are. *)
Example expansion_result_left_alone :
  let decomposition := [(u "甲", [[u "乙"; u "一"]]); (u "乙", [[u "甘"]])] in
  let rootmap : gmap pystr pystr := {[ u "甘" := u "f"; u "一" := u "g" ]} in
  expand_part decomposition rootmap 3 (u "甲") (RState ∅ ∅)
    = Some (RState {[ u "甲"; u "乙" ]} ∅, Some [u "甘"; u "一"]).
Proof. vm_compute. reflexivity. Qed.

End NormalizationClaims.

(** ** The Phonetic Transliterator *)

Module TransliteratorFacts.
Import Transferer Props.

(** *** Prefixes, suffixes, dictionaries *)

Lemma startswith_length (s pre : pystr) :
  startswith s pre = true → (length pre ≤ length s)%nat.
Proof.
  revert s. induction pre as [|p pre IH]; intros s; simpl; [lia|].
  destruct s as [|c s]; [done|]. intros [_ H]%andb_true_iff.
  apply IH in H. simpl. lia.
Qed.

Lemma endswith_length (s suf : pystr) :
  endswith s suf = true → (length suf ≤ length s)%nat.
Proof.
  unfold endswith. intros H%startswith_length.
  by rewrite !length_reverse in H.
Qed.

Lemma get_key_Some {V} (d : pydict V) (k : pystr) :
  k ∈ keys d → is_Some (get d k).
Proof.
  induction d as [|[k' v'] d IH]; simpl.
  - by intros ?%elem_of_nil.
  - destruct (decide (k' = k)); [by eexists|].
    intros [?|?]%elem_of_cons; [congruence|auto].
Qed.

Lemma get_Some_item {V} (d : pydict V) (k : pystr) (v : V) :
  get d k = Some v → (k, v) ∈ d.
Proof.
  induction d as [|[k' v'] d IH]; simpl; [done|].
  destruct (decide (k' = k)) as [->|_].
  - intros [= ->]. by left.
  - intros H. right. auto.
Qed.

(** *** The stable sort by descending length *)

Lemma insert_by_neg_len_perm (x : pystr) (l : list pystr) :
  insert_by_neg_len x l ≡ₚ x :: l.
Proof.
  induction l as [|y l IH]; simpl; [done|].
  destruct (length x <? length y)%nat; [|done].
  rewrite IH. apply Permutation_swap.
Qed.

Lemma sorted_by_neg_len_perm (l : list pystr) : sorted_by_neg_len l ≡ₚ l.
Proof.
  unfold sorted_by_neg_len. induction l as [|x l IH]; simpl; [done|].
  by rewrite insert_by_neg_len_perm, IH.
Qed.

Lemma insert_by_neg_len_sorted (x : pystr) (l : list pystr) :
  StronglySorted not_shorter l →
  StronglySorted not_shorter (insert_by_neg_len x l).
Proof.
  induction 1 as [|y l Hl IH Hy]; simpl.
  - repeat constructor.
  - destruct (Nat.ltb_spec (length x) (length y)) as [Hlt|Hge].
    + constructor; [done|].
      rewrite insert_by_neg_len_perm. constructor; [unfold not_shorter; lia|done].
    + constructor; [by constructor|].
      constructor; [done|].
      eapply Forall_impl; [exact Hy|]. unfold not_shorter. simpl. intros; lia.
Qed.

Lemma sorted_by_neg_len_sorted (l : list pystr) :
  StronglySorted not_shorter (sorted_by_neg_len l).
Proof.
  unfold sorted_by_neg_len. induction l as [|x l IH]; simpl.
  - constructor.
  - by apply insert_by_neg_len_sorted.
Qed.

(** The first hit in a list sorted by descending length is a longest hit. *)
Lemma find_sorted_longest (P : pystr → bool) (l : list pystr) (k : pystr) :
  StronglySorted not_shorter l →
  find P l = Some k →
  P k = true ∧ k ∈ l ∧
  ∀ k', k' ∈ l → P k' = true → (length k' ≤ length k)%nat.
Proof.
  induction 1 as [|y l Hl IH Hy]; simpl; [done|].
  destruct (P y) eqn:Py.
  - intros [= <-]. split; [done|]. split; [by left|].
    intros k' [->|Hin]%elem_of_cons _; [done|].
    rewrite Forall_forall in Hy. by apply Hy.
  - intros Hf. destruct (IH Hf) as (Hk & Hin & Hmax).
    split; [done|]. split; [by right|].
    intros k' [->|Hin']%elem_of_cons Hk'; [congruence|by apply Hmax].
Qed.

Lemma find_None_all (P : pystr → bool) (l : list pystr) :
  find P l = None ↔ ∀ k, k ∈ l → P k = false.
Proof.
  induction l as [|y l IH]; simpl.
  - split; [by intros _ k ?%elem_of_nil|done].
  - destruct (P y) eqn:Py.
    + split; [done|]. intros H. specialize (H y ltac:(left)). congruence.
    + rewrite IH. split.
      * intros H k [->|?]%elem_of_cons; auto.
      * intros H k Hin. apply H. by right.
Qed.

(** The first hit of the sorted search is a longest hit of the list. *)
Lemma find_sorted_by_neg_len (P : pystr → bool) (l : list pystr) :
  match find P (sorted_by_neg_len l) with
  | Some k =>
    P k = true ∧ k ∈ l ∧
    ∀ k', k' ∈ l → P k' = true → (length k' ≤ length k)%nat
  | None => ∀ k, k ∈ l → P k = false
  end.
Proof.
  destruct (find P (sorted_by_neg_len l)) as [k|] eqn:Hf.
  - apply find_sorted_longest in Hf as (Hk & Hin & Hmax);
      [|apply sorted_by_neg_len_sorted].
    split; [done|]. rewrite sorted_by_neg_len_perm in Hin. split; [done|].
    intros k' Hin'. apply Hmax. by rewrite sorted_by_neg_len_perm.
  - intros k Hin. rewrite find_None_all in Hf. apply Hf.
    by rewrite sorted_by_neg_len_perm.
Qed.

(** *** The split and the suffix search *)

Lemma _split_initial_final_zero (pinyin : pystr) :
  zero_initial pinyin → _split_initial_final pinyin = ([], pinyin).
Proof.
  intros Hz. unfold _split_initial_final.
  pose proof (find_sorted_by_neg_len (startswith pinyin) _INITIALS) as Hf.
  destruct (find _ _) as [init|]; [|done].
  destruct Hf as (Hs & Hin & _). by rewrite (Hz init Hin) in Hs.
Qed.

Lemma _SINGLE_VOWELS_length (final : pystr) :
  final ∈ _SINGLE_VOWELS → length final = 1%nat.
Proof.
  unfold _SINGLE_VOWELS. rewrite !elem_of_union, !elem_of_singleton.
  intros H. repeat destruct H as [H|H]; by subst.
Qed.

Lemma first_char_nonempty (s : pystr) : s ≠ [] → first_char s ≠ [].
Proof. by destruct s. Qed.

Lemma first_char_single (s : pystr) : length s = 1%nat → first_char s = s.
Proof. by destruct s as [|c [|d s]]. Qed.

Section Scheme.
Variable XH : pydict pystr.
Variable isalpha : N → bool.

(** The suffix search finds the letter of a longest key that is a suffix,
    if any key is a suffix at all. *)
Lemma suffix_lookup_spec (final : pystr) :
  match suffix_lookup XH final with
  | Some letter =>
    ∃ k, longest_suffix_key XH final k ∧ get XH k = Some letter
  | None => ∀ k, k ∈ keys XH → endswith final k = false
  end.
Proof.
  unfold suffix_lookup.
  pose proof (find_sorted_by_neg_len (endswith final) (keys XH)) as Hf.
  destruct (find _ _) as [k|]; [|done].
  destruct Hf as (Hk & Hin & Hmax).
  destruct (get_key_Some XH k Hin) as [letter Hl]. rewrite Hl.
  by exists k.
Qed.

(** What the table of the source satisfies: keys of two letters or more,
    no empty letter. *)
Hypothesis keys_long : ∀ k, k ∈ keys XH → (2 ≤ length k)%nat.
Hypothesis letters_nonempty : ∀ k l, get XH k = Some l → l ≠ [].

(** A final that has a key as a suffix is not handled as a single letter. *)
Lemma suffixed_final_not_single (final k : pystr) :
  k ∈ keys XH → endswith final k = true →
  bool_decide (final ∈ _SINGLE_VOWELS)
  || (bool_decide (length final = 1%nat) && forallb isalpha final) = false.
Proof.
  intros Hk Hs. apply endswith_length in Hs. apply keys_long in Hk.
  apply orb_false_iff. split.
  - apply bool_decide_eq_false. intros H. apply _SINGLE_VOWELS_length in H. lia.
  - apply andb_false_iff. left. apply bool_decide_eq_false. lia.
Qed.

(** The second letter, when the final is not a key but a key is a
    suffix of it. *)
Lemma _xiaohe_double_suffix (pinyin init fin k : pystr) :
  _split_initial_final pinyin = (init, fin) →
  get XH fin = None →
  k ∈ keys XH → endswith fin k = true →
  ∃ kmax letter first,
    longest_suffix_key XH fin kmax ∧ get XH kmax = Some letter ∧
    _xiaohe_double XH isalpha pinyin = Return (first, letter).
Proof.
  intros Hsplit Hget Hk Hs.
  pose proof (suffix_lookup_spec fin) as Hlook.
  destruct (suffix_lookup XH fin) as [letter|] eqn:Hsl;
    [|by rewrite (Hlook k Hk) in Hs].
  destruct Hlook as (kmax & Hmax & Hl).
  exists kmax, letter. unfold _xiaohe_double. rewrite Hsplit.
  destruct init as [|i0 init].
  - exists (first_char fin). split; [done|]. split; [done|].
    unfold _xiaohe_double_for_zero_initial.
    rewrite (suffixed_final_not_single fin k Hk Hs), Hget, Hsl.
    destruct fin; [|done].
    apply endswith_length in Hs. apply keys_long in Hk. simpl in Hs. lia.
  - rewrite Hget, Hsl.
    pose proof (letters_nonempty _ _ Hl) as Hne.
    destruct letter as [|c letter]; [done|].
    destruct (get XH (i0 :: init)) as [l1|] eqn:Hi.
    + apply letters_nonempty in Hi. destruct l1; [done|]. by eexists.
    + by eexists.
Qed.

(** The second letter, when neither the final nor a suffix of it is a
    key. *)
Lemma _xiaohe_double_fallback (pinyin init fin : pystr) :
  _split_initial_final pinyin = (init, fin) →
  get XH fin = None → fin ≠ [] →
  (∀ k, k ∈ keys XH → endswith fin k = false) →
  ∃ first,
    _xiaohe_double XH isalpha pinyin = Return (first, first_char fin).
Proof.
  intros Hsplit Hget Hfin Hnone.
  pose proof (suffix_lookup_spec fin) as Hlook.
  destruct (suffix_lookup XH fin) as [letter|] eqn:Hsl.
  { destruct Hlook as (k & (Hk & Hs & _) & _). by rewrite (Hnone k Hk) in Hs. }
  unfold _xiaohe_double. rewrite Hsplit.
  destruct init as [|i0 init].
  - exists (first_char fin). unfold _xiaohe_double_for_zero_initial.
    rewrite Hget, Hsl. destruct fin; [done|]. by destruct (orb _ _).
  - rewrite Hget, Hsl.
    destruct fin as [|f0 fin]; [done|].
    destruct (get XH (i0 :: init)) as [l1|] eqn:Hi.
    + apply letters_nonempty in Hi. destruct l1; [done|]. by eexists.
    + by eexists.
Qed.

(** The zero-initial case of a single letter. *)
Lemma _xiaohe_double_single (pinyin : pystr) :
  zero_initial pinyin →
  pinyin ∈ _SINGLE_VOWELS ∨ (∃ c, pinyin = [c] ∧ isalpha c = true) →
  _xiaohe_double XH isalpha pinyin = Return (pinyin, pinyin).
Proof.
  intros Hz Hsingle. unfold _xiaohe_double.
  rewrite (_split_initial_final_zero pinyin Hz).
  unfold _xiaohe_double_for_zero_initial.
  destruct Hsingle as [Hv|(c & -> & Hc)].
  - pose proof (_SINGLE_VOWELS_length _ Hv) as Hlen.
    rewrite (bool_decide_eq_true_2 _ Hv). simpl.
    rewrite first_char_single by done. by destruct pinyin.
  - simpl. rewrite Hc. simpl. by rewrite orb_true_r.
Qed.

End Scheme.

(** The table of the source has keys of two letters or more and no empty
    letter. *)
Lemma _XH_keys_long (k : pystr) : k ∈ keys _XH → (2 ≤ length k)%nat.
Proof.
  assert (Forall (λ k, 2 ≤ length k)%nat (keys _XH)) as H
    by (vm_compute; repeat constructor).
  rewrite Forall_forall in H. apply H.
Qed.

Lemma _XH_letters_nonempty (k l : pystr) : get _XH k = Some l → l ≠ [].
Proof.
  assert (Forall (λ kv : pystr * pystr, kv.2 ≠ []) _XH) as H
    by (repeat constructor; done).
  rewrite Forall_forall in H. intros Hget%get_Some_item. by apply H in Hget.
Qed.

Lemma a_zero_initial : zero_initial (u "a").
Proof.
  assert (Forall (λ init, startswith (u "a") init = false) _INITIALS) as H
    by (repeat constructor).
  rewrite Forall_forall in H. exact H.
Qed.

End TransliteratorFacts.

Module TransliteratorClaims.
Import Transferer Props TransliteratorFacts.

(** C5. Let [fin] be the final of a syllable, not itself a key of the
    scheme table. If some key is a suffix of [fin], the second letter
    returned is the letter of a key that is a suffix of [fin] and that no
    other such key exceeds in length; this holds with and without an
    initial. If no key is a suffix of [fin] (and [fin] is not empty), the
    second letter is the first letter of [fin]. *)
Theorem longest_suffix_wins (isalpha : N → bool) (pinyin init fin : pystr) :
  _split_initial_final pinyin = (init, fin) →
  get _XH fin = None →
  ((∃ k, k ∈ keys _XH ∧ endswith fin k = true) →
     ∃ kmax letter first,
       longest_suffix_key _XH fin kmax ∧ get _XH kmax = Some letter ∧
       _xiaohe_double _XH isalpha pinyin = Return (first, letter)) ∧
  ((∀ k, k ∈ keys _XH → endswith fin k = false) → fin ≠ [] →
     ∃ first,
       _xiaohe_double _XH isalpha pinyin = Return (first, first_char fin)).
Proof.
  intros Hsplit Hget. split.
  - intros (k & Hk & Hs).
    by eapply (_xiaohe_double_suffix _XH isalpha _XH_keys_long
                 _XH_letters_nonempty).
  - intros Hnone Hfin.
    by eapply (_xiaohe_double_fallback _XH isalpha _XH_letters_nonempty).
Qed.

(** The final "uiang" is not a key; the keys "ang" (letter h) and "iang"
    (letter l) are suffixes of it, and the longer one gives the letter. *)
Lemma longest_suffix_wins_witness :
  let isalpha := λ c, (97 <=? c) && (c <=? 122) in
  _split_initial_final (u "kuiang") = (u "k", u "uiang") ∧
  get _XH (u "uiang") = None ∧
  (u "ang" ∈ keys _XH ∧ endswith (u "uiang") (u "ang") = true) ∧
  (u "iang" ∈ keys _XH ∧ endswith (u "uiang") (u "iang") = true) ∧
  _xiaohe_double _XH isalpha (u "kuiang") = Return (u "k", u "l").
Proof.
  intros isalpha.
  assert (_split_initial_final (u "kuiang") = (u "k", u "uiang")) as Hsplit
    by reflexivity.
  assert (get _XH (u "uiang") = None) as Hget by reflexivity.
  assert (u "ang" ∈ keys _XH ∧ endswith (u "uiang") (u "ang") = true) as Hang.
  { split; [|reflexivity]. apply list_elem_of_In. vm_compute. tauto. }
  assert (u "iang" ∈ keys _XH ∧ endswith (u "uiang") (u "iang") = true)
    as Hiang.
  { split; [|reflexivity]. apply list_elem_of_In. vm_compute. tauto. }
  repeat (split; [assumption|]).
  destruct (proj1 (longest_suffix_wins isalpha _ _ _ Hsplit Hget))
    as (kmax & letter & first & _ & _ & Heq).
  { by exists (u "ang"). }
  rewrite Heq. vm_compute in Heq. by injection Heq as <- <-.
Defined.

(** C6. For a syllable of which no known initial is a prefix and which is a
    single simple vowel or one alphabetic character, both letters returned
    are that syllable; in particular "a" gives ("a", "a"). *)
Theorem zero_initial_single_letter_doubles
    (XH : pydict pystr) (isalpha : N → bool) :
  (∀ pinyin,
     zero_initial pinyin →
     pinyin ∈ _SINGLE_VOWELS ∨ (∃ c, pinyin = [c] ∧ isalpha c = true) →
     _xiaohe_double XH isalpha pinyin = Return (pinyin, pinyin)) ∧
  _xiaohe_double XH isalpha (u "a") = Return (u "a", u "a").
Proof.
  split.
  - apply _xiaohe_double_single.
  - apply _xiaohe_double_single; [apply a_zero_initial|].
    left. unfold _SINGLE_VOWELS. set_solver.
Qed.

(** The letter ê (U+00EA) alone: no initial, alphabetic, not one of the six
    simple vowels. *)
Lemma zero_initial_single_letter_doubles_witness :
  let isalpha := λ c, ((97 <=? c) && (c <=? 122)) || (c =? 234) in
  zero_initial [234] ∧
  (∃ c, [234] = [c] ∧ isalpha c = true) ∧
  _xiaohe_double _XH isalpha [234] = Return ([234], [234]).
Proof.
  intros isalpha.
  assert (zero_initial [234]) as Hz.
  { assert (Forall (λ init, startswith [234] init = false) _INITIALS) as H
      by (repeat constructor).
    rewrite Forall_forall in H. exact H. }
  assert (∃ c, [234] = [c] ∧ isalpha c = true) as Hc by (by exists 234).
  split; [exact Hz|]. split; [exact Hc|].
  apply (proj1 (zero_initial_single_letter_doubles _XH isalpha));
    [exact Hz|by right].
Defined.

End TransliteratorClaims.

(** ** The Merge Generator *)

Module MergeFacts.
Import Transferer Props.

Section Merge.
Variable XH : pydict pystr.
Variable isalpha : N → bool.
Variable pinyin_map : gmap pystr (list pystr).

Local Abbreviation merge_shapes := (merge_shapes XH isalpha).
Local Abbreviation merge_items := (merge_items XH isalpha pinyin_map).

(** The loop over the shape codes stops at the first short one. *)
Lemma merge_shapes_short (ch : pystr) (pre post pinyins : list pystr)
    (shape : pystr) (char_lines : list pystr)
    (cc : list (pystr * pystr)) :
  Forall long_enough pre → (length shape < 2)%nat →
  merge_shapes ch (pre ++ shape :: post) pinyins char_lines cc
  = inl (ch, shape).
Proof.
  intros Hpre Hshort. revert char_lines cc.
  induction Hpre as [|s pre Hs _ IH]; intros char_lines cc; simpl.
  - by apply Nat.ltb_lt in Hshort as ->.
  - unfold long_enough in Hs.
    destruct (Nat.ltb_spec (length s) 2); [lia|].
    destruct (merge_pinyins _ _ _ _ _ _ _ _) as [cl' cc']. apply IH.
Qed.

(** Without a short shape code the loop runs to its end. *)
Lemma merge_shapes_long (ch : pystr) (shapes pinyins : list pystr)
    (char_lines : list pystr) (cc : list (pystr * pystr)) :
  Forall long_enough shapes →
  ∃ out, merge_shapes ch shapes pinyins char_lines cc = inr out.
Proof.
  intros Hall. revert char_lines cc.
  induction Hall as [|s shapes Hs _ IH]; intros char_lines cc; simpl.
  - by eexists.
  - unfold long_enough in Hs.
    destruct (Nat.ltb_spec (length s) 2); [lia|].
    destruct (merge_pinyins _ _ _ _ _ _ _ _) as [cl' cc']. apply IH.
Qed.

(** What the loop does with a character that has readings, or none. *)
Lemma merge_items_read (ch : pystr) (shapes : list pystr)
    (more : pydict (list pystr)) (m : mstate) :
  has_readings pinyin_map ch = true →
  ∃ pinyins,
    pinyin_map !! ch = Some pinyins ∧
    merge_items ((ch, shapes) :: more) m =
    match merge_shapes ch shapes pinyins [] (cannot_convert m) with
    | inl fatal => inl fatal
    | inr (char_lines, cc) =>
      merge_items more
        (MState (out_lines m ++ char_lines) (missing_pinyin m) cc)
    end.
Proof.
  unfold has_readings. simpl.
  destruct (pinyin_map !! ch) as [[|p ps]|]; [done| |done].
  intros _. by eexists.
Qed.

Lemma merge_items_unread (ch : pystr) (shapes : list pystr)
    (more : pydict (list pystr)) (m : mstate) :
  has_readings pinyin_map ch = false →
  merge_items ((ch, shapes) :: more) m =
  merge_items more
    (MState (out_lines m) ({[ch]} ∪ missing_pinyin m) (cannot_convert m)).
Proof.
  unfold has_readings. simpl.
  by destruct (pinyin_map !! ch) as [[|p ps]|].
Qed.

(** The loop over the characters stops at the first short shape code of
    a character that has readings. *)
Lemma merge_items_short (before after : pydict (list pystr))
    (ch shape : pystr) (pre post : list pystr) (m : mstate) :
  (∀ c sl, (c, sl) ∈ before → has_readings pinyin_map c = true →
     Forall long_enough sl) →
  has_readings pinyin_map ch = true →
  Forall long_enough pre → (length shape < 2)%nat →
  merge_items (before ++ (ch, pre ++ shape :: post) :: after) m
  = inl (ch, shape).
Proof.
  intros Hbefore Hch Hpre Hshort. revert m.
  induction before as [|[c sl] before IH]; intros m.
  - rewrite app_nil_l.
    destruct (merge_items_read ch (pre ++ shape :: post) after m Hch)
      as (pinyins & _ & ->).
    by rewrite merge_shapes_short.
  - rewrite <- app_comm_cons.
    assert (∀ c' sl', (c', sl') ∈ before →
              has_readings pinyin_map c' = true → Forall long_enough sl')
      as Hrest by (intros c' sl' Hin; apply Hbefore; by right).
    destruct (has_readings pinyin_map c) eqn:Hc.
    + destruct (merge_items_read c sl
                  (before ++ (ch, pre ++ shape :: post) :: after) m Hc)
        as (pinyins & _ & ->).
      destruct (merge_shapes_long c sl pinyins [] (cannot_convert m))
        as ([cl' cc'] & ->); [apply (Hbefore c sl); [by left|done]|].
      by apply IH.
    + rewrite merge_items_unread by done. by apply IH.
Qed.

(** Without a short shape code on a character that has readings, the
    loop runs to its end; the characters without readings are recorded,
    and leaving them out of the table gives the same rows and the same
    list of unconverted readings. *)
Lemma merge_items_long (items : pydict (list pystr)) (m : mstate) :
  (∀ c sl, (c, sl) ∈ items → has_readings pinyin_map c = true →
     Forall long_enough sl) →
  ∃ m' m'',
    merge_items items m = inr m' ∧
    merge_items (filter (λ item, has_readings pinyin_map item.1 = true)
                        items) m = inr m'' ∧
    out_lines m'' = out_lines m' ∧
    cannot_convert m'' = cannot_convert m' ∧
    missing_pinyin m ⊆ missing_pinyin m' ∧
    ∀ c sl, (c, sl) ∈ items → has_readings pinyin_map c = false →
      c ∈ missing_pinyin m'.
Proof.
  assert (∀ items m1 m2,
    (∀ c sl, (c, sl) ∈ items → has_readings pinyin_map c = true →
       Forall long_enough sl) →
    out_lines m1 = out_lines m2 → cannot_convert m1 = cannot_convert m2 →
    ∃ m' m'',
      merge_items items m1 = inr m' ∧
      merge_items (filter (λ item, has_readings pinyin_map item.1 = true)
                          items) m2 = inr m'' ∧
      out_lines m'' = out_lines m' ∧
      cannot_convert m'' = cannot_convert m' ∧
      missing_pinyin m1 ⊆ missing_pinyin m' ∧
      ∀ c sl, (c, sl) ∈ items → has_readings pinyin_map c = false →
        c ∈ missing_pinyin m') as Hgen; [|intros; by apply Hgen].
  clear items m.
  induction items as [|[c sl] items IH]; intros m1 m2 Hall Hout Hcc.
  - exists m1, m2. repeat split; try done. by intros ? ? ?%elem_of_nil.
  - assert (∀ c' sl', (c', sl') ∈ items →
              has_readings pinyin_map c' = true → Forall long_enough sl')
      as Hrest by (intros c' sl' Hin; apply Hall; by right).
    destruct (has_readings pinyin_map c) eqn:Hc.
    + rewrite (filter_cons_True
                 (λ item, has_readings pinyin_map item.1 = true)
                 (c, sl) items) by done.
      destruct (merge_items_read c sl items m1 Hc) as (pinyins & Hp & ->).
      destruct (merge_items_read c sl
                  (filter (λ item, has_readings pinyin_map item.1 = true)
                          items) m2 Hc) as (pinyins' & Hp' & ->).
      assert (pinyins' = pinyins) as -> by congruence.
      rewrite <- Hcc.
      destruct (merge_shapes_long c sl pinyins [] (cannot_convert m1))
        as ([cl' cc'] & ->); [apply (Hall c sl); [by left|done]|].
      destruct (IH (MState (out_lines m1 ++ cl') (missing_pinyin m1) cc')
                   (MState (out_lines m2 ++ cl') (missing_pinyin m2) cc'))
        as (m' & m'' & H1 & H2 & H3 & H4 & H5 & H6);
        [done|simpl; congruence|done|].
      exists m', m''. repeat split; try done.
      intros c' sl' [[= -> ->]|Hin]%elem_of_cons Hc'; [congruence|].
      by eapply H6.
    + rewrite (filter_cons_False
                 (λ item, has_readings pinyin_map item.1 = true)
                 (c, sl) items) by (simpl; congruence).
      rewrite merge_items_unread by done.
      destruct (IH (MState (out_lines m1) ({[c]} ∪ missing_pinyin m1)
                           (cannot_convert m1)) m2)
        as (m' & m'' & H1 & H2 & H3 & H4 & H5 & H6); [done..|].
      simpl in H5.
      exists m', m''. repeat split; try done; [set_solver|].
      intros c' sl' [[= -> ->]|Hin]%elem_of_cons Hc'; [set_solver|].
      by eapply H6.
Qed.

(** A run of the loop that ends with [inl] has met a short shape code of a
    character that has readings. *)
Lemma merge_shapes_inl (ch : pystr) (shapes pinyins : list pystr)
    (char_lines : list pystr) (cc : list (pystr * pystr)) (c s : pystr) :
  merge_shapes ch shapes pinyins char_lines cc = inl (c, s) →
  c = ch ∧ s ∈ shapes ∧ (length s < 2)%nat.
Proof.
  revert char_lines cc. induction shapes as [|shape rest IH];
    intros char_lines cc; simpl; [done|].
  destruct (Nat.ltb_spec (length shape) 2) as [Hlt|Hge].
  - intros [= <- <-]. split; [done|]. split; [by left|done].
  - destruct (merge_pinyins _ _ _ _ _ _ _ _) as [cl' cc'].
    intros (-> & Hin & Hlen)%IH. split; [done|]. split; [by right|done].
Qed.

Lemma merge_items_inl (items : pydict (list pystr)) (m : mstate)
    (c s : pystr) :
  merge_items items m = inl (c, s) →
  ∃ sl, (c, sl) ∈ items ∧ s ∈ sl ∧ (length s < 2)%nat ∧
        has_readings pinyin_map c = true.
Proof.
  revert m. induction items as [|[ch shapes] items IH]; intros m; [done|].
  destruct (has_readings pinyin_map ch) eqn:Hch.
  - destruct (merge_items_read ch shapes items m Hch) as (pinyins & _ & ->).
    destruct (merge_shapes ch shapes pinyins [] (cannot_convert m))
      as [[c' s']|[cl' cc']] eqn:Hs.
    + intros [= -> ->]. apply merge_shapes_inl in Hs as (-> & Hin & Hlen).
      exists shapes. split; [by left|done].
    + intros (sl & Hin & H)%IH. exists sl. split; [by right|done].
  - rewrite merge_items_unread by done.
    intros (sl & Hin & H)%IH. exists sl. split; [by right|done].
Qed.

(** A run of the loop that reaches its end has met no short shape code on
    a character that has readings. *)
Lemma merge_shapes_inr (ch : pystr) (shapes pinyins : list pystr)
    (char_lines : list pystr) (cc : list (pystr * pystr)) out :
  merge_shapes ch shapes pinyins char_lines cc = inr out →
  Forall long_enough shapes.
Proof.
  revert char_lines cc. induction shapes as [|shape rest IH];
    intros char_lines cc; simpl; [constructor|].
  destruct (Nat.ltb_spec (length shape) 2) as [Hlt|Hge]; [done|].
  destruct (merge_pinyins _ _ _ _ _ _ _ _) as [cl' cc'].
  intros H%IH. by constructor.
Qed.

Lemma merge_items_inr (items : pydict (list pystr)) (m m' : mstate) :
  merge_items items m = inr m' →
  ∀ c sl, (c, sl) ∈ items → has_readings pinyin_map c = true →
    Forall long_enough sl.
Proof.
  revert m. induction items as [|[ch shapes] items IH]; intros m Hm c sl Hin Hc.
  - by apply elem_of_nil in Hin.
  - destruct (has_readings pinyin_map ch) eqn:Hch.
    + destruct (merge_items_read ch shapes items m Hch)
        as (pinyins & _ & Heq).
      rewrite Heq in Hm.
      destruct (merge_shapes ch shapes pinyins [] (cannot_convert m))
        as [[c' s']|[cl' cc']] eqn:Hs; [done|].
      apply elem_of_cons in Hin as [[= -> ->]|Hin].
      * by eapply merge_shapes_inr.
      * by eapply IH.
    + rewrite merge_items_unread in Hm by done.
      apply elem_of_cons in Hin as [[= -> ->]|Hin]; [congruence|].
      by eapply IH.
Qed.

End Merge.

End MergeFacts.

Module MergeClaims.
Import Transferer Props MergeFacts.

(** C3. When the loop of [main] comes to a shape code shorter than 2 of a
    character that has readings (everything before it, in table order,
    being long enough), the run ends at once by [SystemExit]: the error
    log names the character and the code, and the output file is never
    written, whatever rows earlier characters had produced and whatever
    follows in the table. *)
Theorem short_shape_code_aborts
    (XH : pydict pystr) (isalpha : N → bool)
    (pinyin_map : gmap pystr (list pystr))
    (before after : pydict (list pystr)) (ch shape : pystr)
    (pre post : list pystr) :
  (∀ c sl, (c, sl) ∈ before → has_readings pinyin_map c = true →
     Forall long_enough sl) →
  has_readings pinyin_map ch = true →
  Forall long_enough pre → (length shape < 2)%nat →
  main XH isalpha (before ++ (ch, pre ++ shape :: post) :: after) pinyin_map
  = (Files None (Some (FatalLog ch shape)), SystemExit ch shape).
Proof.
  intros Hbefore Hch Hpre Hshort. unfold main.
  by rewrite (merge_items_short XH isalpha pinyin_map before after ch shape
                pre post _ Hbefore Hch Hpre Hshort).
Qed.

(** 日 has produced a row and 口 has a good first code when the code "k"
    of 口 is met; 旦 is never looked at. *)
Lemma short_shape_code_aborts_witness :
  let isalpha := λ c, (97 <=? c) && (c <=? 122) in
  let pinyin_map : gmap pystr (list pystr) :=
    {[ u "日" := [u "ri"]; u "口" := [u "kou"]; u "旦" := [u "dan"] ]} in
  let before := [(u "日", [u "jg"])] in
  let after := [(u "旦", [u "jgg"])] in
  has_readings pinyin_map (u "口") = true ∧
  main _XH isalpha
       (before ++ (u "口", [u "kab"] ++ u "k" :: [u "kk"]) :: after)
       pinyin_map
  = (Files None (Some (FatalLog (u "口") (u "k"))),
     SystemExit (u "口") (u "k")).
Proof.
  intros isalpha pinyin_map before after.
  assert (has_readings pinyin_map (u "口") = true) as Hch
    by (vm_compute; reflexivity).
  split; [exact Hch|].
  apply short_shape_code_aborts.
  - intros c sl Hin _. apply list_elem_of_singleton in Hin.
    injection Hin as -> ->. repeat constructor.
  - exact Hch.
  - repeat constructor.
  - simpl. lia.
Defined.

(** Wherever a character with readings has a short shape code, the run does
    not finish: it ends by [SystemExit] on such a character and code, the
    output file unwritten. *)
Lemma short_shape_code_anywhere_aborts
    (XH : pydict pystr) (isalpha : N → bool)
    (shape_map : pydict (list pystr))
    (pinyin_map : gmap pystr (list pystr)) (ch shape : pystr)
    (shapes : list pystr) :
  (ch, shapes) ∈ shape_map → has_readings pinyin_map ch = true →
  shape ∈ shapes → (length shape < 2)%nat →
  ∃ c s sl,
    (c, sl) ∈ shape_map ∧ s ∈ sl ∧ (length s < 2)%nat ∧
    has_readings pinyin_map c = true ∧
    main XH isalpha shape_map pinyin_map
    = (Files None (Some (FatalLog c s)), SystemExit c s).
Proof.
  intros Hin Hch Hs Hshort. unfold main.
  destruct (merge_items XH isalpha pinyin_map shape_map (MState [] ∅ []))
    as [[c s]|m'] eqn:Hm.
  - apply merge_items_inl in Hm as (sl & H1 & H2 & H3 & H4).
    by exists c, s, sl.
  - pose proof (merge_items_inr XH isalpha pinyin_map _ _ _ Hm ch shapes
                  Hin Hch) as Hall.
    rewrite Forall_forall in Hall. specialize (Hall shape Hs).
    unfold long_enough in Hall. lia.
Qed.

(** C10. The length check bears only on characters that have readings: if
    every shape code of every such character is long enough, the run
    finishes, whatever the shape codes of the characters without readings.
    Those characters are recorded as missing, and the rows written are
    those of the table without them. *)
Theorem unread_character_not_validated
    (XH : pydict pystr) (isalpha : N → bool)
    (shape_map : pydict (list pystr))
    (pinyin_map : gmap pystr (list pystr)) :
  (∀ c sl, (c, sl) ∈ shape_map → has_readings pinyin_map c = true →
     Forall long_enough sl) →
  ∃ rows missing cc n,
    main XH isalpha shape_map pinyin_map
    = (Files (Some rows) (Some (ReportLog missing cc n)), Finished) ∧
    (∀ c sl, (c, sl) ∈ shape_map → has_readings pinyin_map c = false →
       c ∈ missing) ∧
    OUT_FILE (main XH isalpha
                (filter (λ item, has_readings pinyin_map item.1 = true)
                        shape_map)
                pinyin_map).1 = Some rows.
Proof.
  intros Hall.
  destruct (merge_items_long XH isalpha pinyin_map shape_map
              (MState [] ∅ []) Hall)
    as (m' & m'' & H1 & H2 & H3 & H4 & _ & H6).
  unfold main. rewrite H1, H2. simpl.
  eexists _, _, _, _. split; [reflexivity|]. split; [exact H6|].
  by rewrite H3.
Qed.

(** 口 has no reading and the one-letter code "k": the run finishes with
    the row of 日 and records 口 as missing. *)
Lemma unread_character_not_validated_witness :
  let isalpha := λ c, (97 <=? c) && (c <=? 122) in
  let pinyin_map : gmap pystr (list pystr) := {[ u "日" := [u "ri"] ]} in
  let shape_map := [(u "口", [u "k"]); (u "日", [u "jg"])] in
  has_readings pinyin_map (u "口") = false ∧
  ∃ missing cc n,
    main _XH isalpha shape_map pinyin_map
    = (Files (Some [u "日" ++ [9] ++ u "rijg" ++ [10]])
             (Some (ReportLog missing cc n)), Finished) ∧
    u "口" ∈ missing.
Proof.
  intros isalpha pinyin_map shape_map.
  assert (has_readings pinyin_map (u "口") = false) as Hch
    by (vm_compute; reflexivity).
  split; [exact Hch|].
  destruct (unread_character_not_validated _XH isalpha shape_map pinyin_map)
    as (rows & missing & cc & n & Hmain & Hmiss & Hrows).
  - intros c sl [[= -> ->]|Hin]%elem_of_cons Hc.
    + rewrite Hch in Hc. discriminate.
    + apply list_elem_of_singleton in Hin. injection Hin as -> ->.
      repeat constructor.
  - exists missing, cc, n. split.
    + rewrite Hmain. vm_compute in Hrows. injection Hrows as <-. reflexivity.
    + apply (Hmiss (u "口") [u "k"]); [by left|exact Hch].
Defined.

End MergeClaims.

(** * Further properties of the code *)

(** ** The Substitution Pass: shape of the result *)

Module SubstitutionExtras.
Import Generator Props PyStrFacts SubstitutionFacts.

Lemma replace_pair_length (a b x y : N) (s : pystr) :
  length (replace s [a; b] [x; y]) = length s.
Proof.
  induction s as [|c|c d t IHt IHdt] using two_step_ind.
  - done.
  - by rewrite replace_pair_one.
  - rewrite replace_pair_cons2. destruct ((c =? a) && (d =? b)).
    + by rewrite length_app, IHt.
    + cbn [length]. by rewrite IHdt.
Qed.

Lemma substitute_length (s : pystr) : length (substitute s) = length s.
Proof. unfold substitute. by rewrite !replace_pair_length. Qed.

Lemma chars_inj (s t : pystr) : chars s = chars t → s = t.
Proof.
  revert t. induction s as [|c s IH]; intros [|d t]; simpl; try done.
  intros [= -> H]. by rewrite (IH _ H).
Qed.

(** A replacement that leaves the string as it is had nothing to replace. *)
Lemma replace_pair_fixed (a b x y : N) (s : pystr) :
  ¬ (a = x ∧ b = y) →
  replace s [a; b] [x; y] = s → has_pair a b s = false.
Proof.
  intros Hne.
  induction s as [|c|c d t IHt IHdt] using two_step_ind; [done..|].
  rewrite replace_pair_cons2, has_pair_cons2.
  destruct (N.eqb_spec c a) as [->|], (N.eqb_spec d b) as [->|]; simpl;
    try (intros [= H]; by apply IHdt).
  intros [= -> ->]. by destruct Hne.
Qed.

(** X1. The pass returns one-character parts, as many as the parts it was
    given have characters in total: every replacement puts two characters
    in the place of two. *)
Theorem apply_replacements_shape (parts : list pystr) :
  length (apply_replacements parts) = length (join parts) ∧
  Forall (λ p, length p = 1%nat) (apply_replacements parts).
Proof.
  split.
  - rewrite apply_replacements_substitute. unfold chars.
    by rewrite length_map, substitute_length.
  - apply Forall_forall. apply apply_replacements_chars.
Qed.

(** X2. The pass changes its input exactly when one of the three patterns
    甘一, 目一, 于八 occurs in the concatenated parts: the result is the
    character list of the input if and only if none of them occurs. *)
Theorem apply_replacements_unchanged_iff (parts : list pystr) :
  apply_replacements parts = chars (join parts) ↔
  has_pair 29976 19968 (join parts) = false ∧
  has_pair 30446 19968 (join parts) = false ∧
  has_pair 20110 20843 (join parts) = false.
Proof.
  rewrite apply_replacements_substitute. split.
  - intros H%chars_inj. destruct (substitute_clean (join parts)) as (H1 & H2 & H3).
    by rewrite H in H1, H2, H3.
  - intros (H1 & H2 & H3). f_equal. unfold substitute.
    by rewrite (replace_absent _ _ _ _ H1), (replace_absent _ _ _ _ H2),
      (replace_absent _ _ _ _ H3).
Qed.

End SubstitutionExtras.

(** ** Dictionaries and text helpers *)

Module PyFacts.
Import Props.

Lemma get_set {V} (d : pydict V) (k k' : pystr) (v : V) :
  get (set d k v) k' = if decide (k = k') then Some v else get d k'.
Proof.
  induction d as [|[k0 v0] d IH]; simpl.
  - by destruct (decide (k = k')).
  - destruct (decide (k0 = k)) as [->|Hne]; simpl.
    + by destruct (decide (k = k')).
    + rewrite IH. destruct (decide (k0 = k')) as [->|]; [|done].
      by destruct (decide (k = k')).
Qed.

Lemma set_items {V} (d : pydict V) (k : pystr) (v : V) (item : pystr * V) :
  item ∈ set d k v → item = (k, v) ∨ item ∈ d.
Proof.
  induction d as [|[k0 v0] d IH]; simpl.
  - intros ->%list_elem_of_singleton. by left.
  - destruct (decide (k0 = k)) as [->|Hne].
    + intros [->|?]%elem_of_cons; [by left|right; by right].
    + intros [->|[->|?]%IH]%elem_of_cons; [right; by left|by left|].
      right; by right.
Qed.

Lemma keys_set {V} (d : pydict V) (k : pystr) (v : V) :
  keys (set d k v) = if decide (k ∈ keys d) then keys d else keys d ++ [k].
Proof.
  unfold keys. induction d as [|[k0 v0] d IH]; simpl.
  - destruct (decide (k ∈ [])) as [?%elem_of_nil|]; done.
  - destruct (decide (k0 = k)) as [->|Hne]; simpl.
    + destruct (decide (k ∈ k :: map fst d)) as [|Hn]; [done|].
      destruct Hn. by left.
    + rewrite IH.
      destruct (decide (k ∈ map fst d)) as [Hin|Hin],
               (decide (k ∈ k0 :: map fst d)) as [Hin'|Hin']; try done.
      * destruct Hin'. by right.
      * apply elem_of_cons in Hin' as [->|?]; done.
Qed.

Lemma keys_set_NoDup {V} (d : pydict V) (k : pystr) (v : V) :
  NoDup (keys d) → NoDup (keys (set d k v)).
Proof.
  intros Hd. rewrite keys_set. case_decide; [done|].
  apply NoDup_app. split; [done|]. split; [|apply NoDup_singleton].
  intros x Hx ->%list_elem_of_singleton. done.
Qed.

(** What [strip] leaves starts and ends with a character that is not
    white space. *)
Lemma lstrip_head (s : pystr) (c : N) (r : pystr) :
  lstrip s = c :: r → isspace c = false.
Proof.
  induction s as [|d s IH]; simpl; [done|].
  destruct (isspace d) eqn:Hd; [done|]. by intros [= <- _].
Qed.

Lemma lstrip_suffix (s : pystr) : lstrip s `suffix_of` s.
Proof.
  induction s as [|d s IH]; simpl; [done|].
  destruct (isspace d); [by apply suffix_cons_r|done].
Qed.

Lemma strip_head (s : pystr) (c : N) (r : pystr) :
  strip s = c :: r → isspace c = false.
Proof.
  unfold strip. intros H.
  pose proof (lstrip_suffix (reverse (lstrip s))) as Hsuf.
  apply suffix_prefix_reverse in Hsuf. rewrite reverse_involutive, H in Hsuf.
  destruct (lstrip s) as [|d t] eqn:Hl.
  - by apply prefix_nil_inv in Hsuf.
  - apply prefix_cons_inv_1 in Hsuf as ->. by eapply lstrip_head.
Qed.

Lemma strip_last (s : pystr) (c : N) :
  last (strip s) = Some c → isspace c = false.
Proof.
  unfold strip. rewrite last_reverse.
  destruct (lstrip (reverse (lstrip s))) as [|d t] eqn:Hl; [done|].
  intros [= <-]. by eapply lstrip_head.
Qed.

(** The fields of [split] hold no separator, and joining them with the
    separator gives the string back. *)
Lemma split_on_from_fields (sep : N) (cur s : pystr) :
  sep ∉ cur →
  Forall (λ f, sep ∉ f) (split_on_from sep cur s).
Proof.
  revert cur. induction s as [|c s IH]; intros cur Hcur; simpl.
  - constructor; [|constructor]. by rewrite elem_of_reverse.
  - destruct (N.eqb_spec c sep) as [->|Hne].
    + constructor; [by rewrite elem_of_reverse|].
      apply IH. by intros ?%elem_of_nil.
    + apply IH. intros [->|?]%elem_of_cons; done.
Qed.

Lemma split_on_fields (sep : N) (s : pystr) :
  Forall (λ f, sep ∉ f) (split_on sep s).
Proof. apply split_on_from_fields. by intros ?%elem_of_nil. Qed.

Lemma split_on_from_head (sep : N) (cur s : pystr) :
  ∃ f fs, split_on_from sep cur s = f :: fs ∧
          (cur ≠ [] → f ≠ []) ∧
          (∀ c r, s = c :: r → c ≠ sep → f ≠ []).
Proof.
  revert cur. induction s as [|c s IH]; intros cur; simpl.
  - eexists _, _. split; [done|]. split; [|done].
    intros Hne Hr. apply Hne. by rewrite <- (reverse_involutive cur), Hr.
  - destruct (N.eqb_spec c sep) as [->|Hne].
    + eexists _, _. split; [done|]. split.
      * intros Hc Hr. apply Hc. by rewrite <- (reverse_involutive cur), Hr.
      * by intros ? ? [= <- _].
    + destruct (IH (c :: cur)) as (f & fs & -> & Hf & _).
      exists f, fs. split; [done|]. split; intros; by apply Hf.
Qed.

End PyFacts.

(** ** The two loaders of stage 1 *)

Module LoaderExtras.
Import Generator Props PyFacts.

Lemma load_roots_from_app (l1 l2 : list pystr) (m : gmap pystr pystr) :
  load_roots_from (l1 ++ l2) m = load_roots_from l2 (load_roots_from l1 m).
Proof.
  revert m. induction l1 as [|line l1 IH]; intros m; simpl; [done|].
  by destruct (strip line).
Qed.

Lemma insert_roots_hit (letter root : N) (roots : list N)
    (m : gmap pystr pystr) :
  root ∈ roots →
  foldl (λ m root, <[ [root] := [letter] ]> m) m roots !! [root]
  = Some [letter].
Proof.
  revert m. induction roots as [|r roots IH]; intros m Hin; simpl.
  - by apply elem_of_nil in Hin.
  - destruct (decide (root ∈ roots)) as [Hr|Hr]; [by apply IH|].
    apply elem_of_cons in Hin as [->|?]; [|done].
    clear IH. revert m. induction roots as [|r' roots IH]; intros m; simpl.
    + by rewrite lookup_insert_eq.
    + rewrite not_elem_of_cons in Hr. destruct Hr as [Hne Hr].
      rewrite insert_insert_ne by congruence. by apply IH.
Qed.

Lemma insert_roots_miss (letter : N) (roots : list N) (k : pystr)
    (m : gmap pystr pystr) :
  (∀ root, root ∈ roots → k ≠ [root]) →
  foldl (λ m root, <[ [root] := [letter] ]> m) m roots !! k = m !! k.
Proof.
  revert m. induction roots as [|r roots IH]; intros m Hk; simpl; [done|].
  rewrite IH by (intros root Hin; apply Hk; by right).
  apply lookup_insert_ne. intros <-. by eapply Hk; [left|].
Qed.

Lemma insert_roots_inv (letter : N) (roots : list N) (k l : pystr)
    (m : gmap pystr pystr) :
  foldl (λ m root, <[ [root] := [letter] ]> m) m roots !! k = Some l →
  (∃ root, root ∈ roots ∧ k = [root] ∧ l = [letter]) ∨ m !! k = Some l.
Proof.
  revert m. induction roots as [|r roots IH]; intros m; simpl; [by right|].
  intros [(root & Hin & -> & ->)|H]%IH.
  - left. exists root. split; [by right|done].
  - rewrite lookup_insert in H. case_decide as Hk.
    + injection H as <-. left. exists r. split; [by left|done].
    + by right.
Qed.

(** The entries of a loaded root map. *)
Lemma load_roots_entries (lines : list pystr) (p l : pystr) :
  load_roots lines !! p = Some l →
  (∃ root, p = [root]) ∧ (∃ letter, l = [letter] ∧ isspace letter = false).
Proof.
  unfold load_roots.
  assert (∀ m : gmap pystr pystr,
    (∀ p l, m !! p = Some l →
       (∃ root, p = [root]) ∧ (∃ letter, l = [letter] ∧ isspace letter = false)) →
    load_roots_from lines m !! p = Some l →
    (∃ root, p = [root]) ∧ (∃ letter, l = [letter] ∧ isspace letter = false))
    as Hgen.
  { induction lines as [|line rest IH]; intros m Hm; simpl; [apply Hm|].
    destruct (strip line) as [|letter roots] eqn:Hs; [by apply IH|].
    apply IH. intros p' l' [(root & _ & -> & ->)|H]%insert_roots_inv.
    - split; [by eexists|]. eexists. split; [done|]. by eapply strip_head.
    - by apply Hm. }
  apply Hgen. intros p' l'. by rewrite lookup_empty.
Qed.

(** X3. In a loaded root map every key is a one-character string and every
    letter is a one-character string whose character is not white space. *)
Theorem load_roots_shape (lines : list pystr) (p l : pystr) :
  load_roots lines !! p = Some l →
  (∃ root, p = [root]) ∧ (∃ letter, l = [letter] ∧ isspace letter = false).
Proof. apply load_roots_entries. Qed.

(** A roots file of two lines, the second with two roots. *)
Lemma load_roots_shape_witness :
  load_roots [u "G一" ++ [10]; u "K口日" ++ [10]] !! u "日" = Some (u "K") ∧
  (∃ root, u "日" = [root]) ∧
  (∃ letter, u "K" = [letter] ∧ isspace letter = false).
Proof.
  assert (load_roots [u "G一" ++ [10]; u "K口日" ++ [10]] !! u "日"
          = Some (u "K")) as Hget by (vm_compute; reflexivity).
  split; [exact Hget|].
  exact (load_roots_shape _ _ _ Hget).
Defined.

(** X4. A later line of the roots file overrides the earlier ones: after a
    line with letter [letter] and roots [roots], each of these roots has that
    letter, every other key has what it had, and a blank line changes
    nothing. *)
Theorem load_roots_last_line (lines : list pystr) (line : pystr) :
  match strip line with
  | [] => load_roots (lines ++ [line]) = load_roots lines
  | letter :: roots =>
    (∀ root, root ∈ roots →
       load_roots (lines ++ [line]) !! [root] = Some [letter]) ∧
    (∀ k, (∀ root, root ∈ roots → k ≠ [root]) →
       load_roots (lines ++ [line]) !! k = load_roots lines !! k)
  end.
Proof.
  unfold load_roots. rewrite load_roots_from_app. simpl.
  destruct (strip line) as [|letter roots]; [done|]. split.
  - intros root Hin. by apply insert_roots_hit.
  - intros k Hk. by apply insert_roots_miss.
Qed.

Lemma load_decomposition_from_app (l1 l2 : list pystr)
    (d : pydict (list (list pystr))) :
  load_decomposition_from (l1 ++ l2) d
  = load_decomposition_from l2 (load_decomposition_from l1 d).
Proof.
  revert d. induction l1 as [|line l1 IH]; intros d; simpl; [done|].
  destruct (strip line); [done|]. by destruct (split_on 9 _).
Qed.

(** The key and the alternatives a line of the table file stands for. *)
Lemma split_line_key (line : pystr) (char : pystr) (parts : list pystr) :
  strip line ≠ [] → split_on 9 (strip line) = char :: parts →
  char ≠ [] ∧ (9 ∉ char) ∧ Forall (λ f, 9 ∉ f) parts.
Proof.
  intros Hne Hsplit.
  pose proof (split_on_fields 9 (strip line)) as Hf. rewrite Hsplit in Hf.
  apply Forall_cons in Hf as [Hc Hp]. split; [|done].
  destruct (split_on_from_head 9 [] (strip line)) as (f & fs & Heq & _ & Hhead).
  unfold split_on in Hsplit. rewrite Hsplit in Heq. injection Heq as <- <-.
  destruct (strip line) as [|c r] eqn:Hs; [done|].
  apply (Hhead c r eq_refl). intros ->. by apply strip_head in Hs.
Qed.

(** The entries of a loaded decomposition table. *)
Lemma load_decomposition_entries (lines : list pystr) :
  NoDup (keys (load_decomposition lines)) ∧
  Forall (λ item : pystr * list (list pystr),
            (item.1 ≠ []) ∧ (9 ∉ item.1) ∧
            Forall (Forall (λ p, ∃ c, p = [c] ∧ c ≠ 9)) item.2)
         (load_decomposition lines).
Proof.
  unfold load_decomposition.
  assert (∀ d : pydict (list (list pystr)),
    NoDup (keys d) ∧
    Forall (λ item : pystr * list (list pystr),
              (item.1 ≠ []) ∧ (9 ∉ item.1) ∧
              Forall (Forall (λ p, ∃ c, p = [c] ∧ c ≠ 9)) item.2) d →
    NoDup (keys (load_decomposition_from lines d)) ∧
    Forall (λ item : pystr * list (list pystr),
              (item.1 ≠ []) ∧ (9 ∉ item.1) ∧
              Forall (Forall (λ p, ∃ c, p = [c] ∧ c ≠ 9)) item.2)
           (load_decomposition_from lines d)) as Hgen.
  { induction lines as [|line rest IH]; intros d Hd; simpl; [done|].
    destruct (strip line) as [|c0 r0] eqn:Hs; [by apply IH|].
    rewrite <- Hs.
    destruct (split_on 9 (strip line)) as [|char parts] eqn:Hsplit;
      [by apply IH|].
    apply IH. destruct Hd as [Hnd Hall]. split; [by apply keys_set_NoDup|].
    destruct (split_line_key line char parts) as (H1 & H2 & H3);
      [by rewrite Hs|done|].
    apply Forall_forall. intros item [->|Hin]%set_items.
    - simpl. split; [done|]. split; [done|].
      apply Forall_forall. intros alt (f & -> & Hf)%list_elem_of_fmap.
      rewrite Forall_forall in H3. specialize (H3 f Hf).
      apply Forall_forall. intros p (c & -> & Hc)%list_elem_of_fmap.
      exists c. split; [done|]. by intros ->.
    - rewrite Forall_forall in Hall. by apply Hall. }
  apply Hgen. split; [constructor|constructor].
Qed.

(** X5. In a loaded decomposition table no key occurs twice, every key is
    non-empty and holds no tab, and every part of every alternative is a
    one-character string other than a tab. *)
Theorem load_decomposition_shape (lines : list pystr) :
  NoDup (keys (load_decomposition lines)) ∧
  Forall (λ item : pystr * list (list pystr),
            (item.1 ≠ []) ∧ (9 ∉ item.1) ∧
            Forall (Forall (λ p, ∃ c, p = [c] ∧ c ≠ 9)) item.2)
         (load_decomposition lines).
Proof. apply load_decomposition_entries. Qed.

(** X6. A later line of the table file replaces the alternatives an earlier
    line gave for the same character and leaves the other characters alone;
    a blank line changes nothing. *)
Theorem load_decomposition_last_line (lines : list pystr) (line : pystr) :
  match strip line with
  | [] => load_decomposition (lines ++ [line]) = load_decomposition lines
  | _ =>
    ∃ char parts,
      split_on 9 (strip line) = char :: parts ∧
      get (load_decomposition (lines ++ [line])) char
        = Some (map chars parts) ∧
      ∀ k, k ≠ char →
        get (load_decomposition (lines ++ [line])) k
        = get (load_decomposition lines) k
  end.
Proof.
  unfold load_decomposition. rewrite load_decomposition_from_app. simpl.
  destruct (strip line) as [|c0 r0] eqn:Hs; [done|].
  destruct (split_on_from_head 9 [] (c0 :: r0)) as (char & parts & Hsplit & _).
  unfold split_on. rewrite Hsplit. exists char, parts. split; [done|]. split.
  - rewrite get_set. by case_decide.
  - intros k Hk. rewrite get_set. by case_decide.
Qed.

End LoaderExtras.

(** ** The resolver: what it returns, records and reads *)

Module ResolverExtras.
Import Generator Props MoreProps ResolverFacts.

Section Bookkeeping.
Variable decomposition : pydict (list (list pystr)).
Variable rootmap : gmap pystr pystr.

Lemma bookkeeping_refl (st : rstate) : bookkeeping rootmap st st.
Proof. split; [done|]. split; [done|]. intros p Hp. by left. Qed.

Lemma bookkeeping_trans (st1 st2 st3 : rstate) :
  bookkeeping rootmap st1 st2 → bookkeeping rootmap st2 st3 →
  bookkeeping rootmap st1 st3.
Proof.
  intros (V12 & M12 & N12) (V23 & M23 & N23).
  split; [set_solver|]. split; [set_solver|].
  intros p [Hp|(Hr & Hv & Hn)]%N23.
  - destruct (N12 p Hp) as [?|(Hr & Hv & Hn)]; [by left|right].
    split; [done|]. split; [set_solver|done].
  - right. split; [done|]. split; [done|set_solver].
Qed.

Lemma expand_sub_parts_bookkeeping (rec : resolver)
    (sub_parts expanded : list pystr) (st st' : rstate) r :
  (∀ sp s s' r', rec sp s = Some (s', r') → bookkeeping rootmap s s') →
  expand_sub_parts rec sub_parts expanded st = Some (st', r) →
  bookkeeping rootmap st st'.
Proof.
  intros Hrec. revert expanded st.
  induction sub_parts as [|sp rest IH]; intros expanded st; simpl.
  - intros [= <- <-]. apply bookkeeping_refl.
  - destruct (rec sp st) as [[sta [res|]]|] eqn:E; [| |done].
    + intros H%IH. eapply bookkeeping_trans; [by eapply Hrec|done].
    + intros [= <- <-]. by eapply Hrec.
Qed.

Lemma try_alternatives_bookkeeping (rec : resolver)
    (alts : list (list pystr)) (st st' : rstate) r :
  (∀ sp s s' r', rec sp s = Some (s', r') → bookkeeping rootmap s s') →
  try_alternatives rec alts st = Some (st', r) →
  bookkeeping rootmap st st'.
Proof.
  intros Hrec. revert st.
  induction alts as [|alt more IH]; intros st; simpl.
  - intros [= <- <-]. apply bookkeeping_refl.
  - destruct (expand_sub_parts rec _ [] st) as [[sta [res|]]|] eqn:E;
      [| |done]; apply expand_sub_parts_bookkeeping in E; try done.
    + by intros [= <- <-].
    + intros H%IH. by eapply bookkeeping_trans.
Qed.

Lemma expand_part_bookkeeping (fuel : nat) (part : pystr) (st st' : rstate) r :
  expand_part decomposition rootmap fuel part st = Some (st', r) →
  bookkeeping rootmap st st' ∧
  (r = None →
     rootmap !! part = None ∧
     (part ∈ visited st ∨ part ∈ missing_roots st')).
Proof.
  revert part st st' r. induction fuel as [|fuel IH];
    intros part st st' r; [done|].
  destruct (expand_part_cases rootmap part st) as [Hr|[[Hr Hv]|[Hr Hv]]].
  - rewrite expand_part_root by done. intros [= <- <-].
    split; [apply bookkeeping_refl|done].
  - rewrite expand_part_visited by done. intros [= <- <-].
    split; [apply bookkeeping_refl|]. intros _. split; [done|by left].
  - rewrite expand_part_fresh by done.
    assert (bookkeeping rootmap st (add_visited part st)) as Hadd.
    { split; [simpl; set_solver|]. split; [done|]. intros p Hp. by left. }
    assert (∀ sta ra,
      match get decomposition part with
      | Some alts =>
        try_alternatives (expand_part decomposition rootmap fuel) alts
                         (add_visited part st)
      | None => Some (add_visited part st, None)
      end = Some (sta, ra) →
      bookkeeping rootmap st sta ∧ part ∈ visited sta) as Hin.
    { intros sta ra. destruct (get decomposition part) as [alts|].
      - intros H. apply try_alternatives_bookkeeping in H.
        + split; [by eapply bookkeeping_trans|].
          destruct H as (Hv' & _). simpl in Hv'. set_solver.
        + intros sp s s' r' Hs. by apply IH in Hs as [? _].
      - intros [= <- <-]. split; [done|]. simpl. set_solver. }
    destruct (match get decomposition part with Some _ => _ | None => _ end)
      as [[sta [res|]]|]; [| |done].
    + intros [= <- <-]. destruct (Hin _ _ eq_refl) as [Hb _]. done.
    + intros [= <- <-]. destruct (Hin _ _ eq_refl) as [(Hv' & Hm' & Hn') Hp].
      split.
      * split; [done|]. split; [simpl; set_solver|].
        simpl. intros p [->%elem_of_singleton|Hp']%elem_of_union.
        -- right. done.
        -- by apply Hn'.
      * intros _. split; [done|]. right. simpl. set_solver.
Qed.

End Bookkeeping.

(** X7. What [expand_part] returns as a resolved sequence holds roots only:
    every element is a key of the root map. *)
Theorem resolved_sequence_is_roots
    (decomposition : pydict (list (list pystr)))
    (rootmap : gmap pystr pystr) (fuel : nat) (part : pystr)
    (st st' : rstate) (res : list pystr) :
  expand_part decomposition rootmap fuel part st = Some (st', Some res) →
  Forall (λ p, is_Some (rootmap !! p)) res.
Proof. apply expand_part_roots. Qed.

(** 旦 is 日 over 一; both are roots. *)
Lemma resolved_sequence_is_roots_witness :
  let decomposition := [(u "旦", [[u "日"; u "一"]])] in
  let rootmap : gmap pystr pystr := {[ u "一" := u "G"; u "日" := u "J" ]} in
  expand_part decomposition rootmap 2 (u "旦") (RState ∅ ∅)
    = Some (RState {[ u "旦" ]} ∅, Some [u "日"; u "一"]) ∧
  Forall (λ p, is_Some (rootmap !! p)) [u "日"; u "一"].
Proof.
  intros decomposition rootmap.
  assert (expand_part decomposition rootmap 2 (u "旦") (RState ∅ ∅)
          = Some (RState {[ u "旦" ]} ∅, Some [u "日"; u "一"])) as H
    by (vm_compute; reflexivity).
  split; [exact H|].
  exact (resolved_sequence_is_roots _ _ _ _ _ _ _ H).
Defined.

(** X8. The diagnostics of a call of [expand_part]: both sets only grow;
    every part newly recorded in [missing_roots] is not a root and was first
    visited during the call; and a call returns [None] only for a part that
    is not a root and that either was already visited (the cycle guard,
    which records nothing) or is recorded in [missing_roots] afterwards. *)
Theorem failures_are_recorded
    (decomposition : pydict (list (list pystr)))
    (rootmap : gmap pystr pystr) (fuel : nat) (part : pystr)
    (st st' : rstate) r :
  expand_part decomposition rootmap fuel part st = Some (st', r) →
  bookkeeping rootmap st st' ∧
  (r = None →
     rootmap !! part = None ∧
     (part ∈ visited st ∨ part ∈ missing_roots st')).
Proof. apply expand_part_bookkeeping. Qed.

(** 甲 is made of 乙, which is neither a root nor in the table: both are
    recorded as missing. *)
Lemma failures_are_recorded_witness :
  let decomposition := [(u "甲", [[u "乙"]])] in
  expand_part decomposition ∅ 2 (u "甲") (RState ∅ ∅)
    = Some (RState {[ u "甲"; u "乙" ]} {[ u "甲"; u "乙" ]}, None) ∧
  bookkeeping ∅ (RState ∅ ∅) (RState {[ u "甲"; u "乙" ]} {[ u "甲"; u "乙" ]}).
Proof.
  intros decomposition.
  assert (expand_part decomposition ∅ 2 (u "甲") (RState ∅ ∅)
          = Some (RState {[ u "甲"; u "乙" ]} {[ u "甲"; u "乙" ]}, None)) as H
    by (vm_compute; reflexivity).
  split; [exact H|].
  exact (proj1 (failures_are_recorded _ _ _ _ _ _ _ H)).
Defined.

Section Reading.
Variable rootmap : gmap pystr pystr.

Lemma agree_outside_mono (V V' : gset pystr)
    (d1 d2 : pydict (list (list pystr))) :
  V ⊆ V' → agree_outside V d1 d2 → agree_outside V' d1 d2.
Proof. intros Hsub H k Hk. apply H. set_solver. Qed.

Lemma expand_part_agree_1 (d1 d2 : pydict (list (list pystr)))
    (fuel : nat) (part : pystr) (st st' : rstate) r :
  agree_outside (visited st) d1 d2 →
  expand_part d1 rootmap fuel part st = Some (st', r) →
  expand_part d2 rootmap fuel part st = Some (st', r).
Proof.
  revert part st st' r. induction fuel as [|fuel IH];
    intros part st st' r Hag; [done|].
  destruct (expand_part_cases rootmap part st) as [Hr|[[Hr Hv]|[Hr Hv]]].
  - by rewrite !expand_part_root.
  - by rewrite !expand_part_visited.
  - rewrite !expand_part_fresh by done. rewrite <- (Hag part Hv).
    destruct (get d1 part) as [alts|]; [|done].
    pose proof (try_alternatives_simulates
      (expand_part d1 rootmap fuel) (expand_part d2 rootmap fuel)
      (λ s1 s2, s1 = s2 ∧ visited st ⊆ visited s1) alts) as Hsim.
    destruct (try_alternatives (expand_part d1 rootmap fuel) alts
                (add_visited part st)) as [[sta ra]|] eqn:E1; [|done].
    assert (∀ alt sp s1 s2, alt ∈ alts → sp ∈ apply_replacements alt →
              s1 = s2 ∧ visited st ⊆ visited s1 →
              simulates (λ s1 s2, s1 = s2 ∧ visited st ⊆ visited s1)
                (expand_part d1 rootmap fuel sp s1)
                (expand_part d2 rootmap fuel sp s2)) as Hrec.
    { intros alt sp s1 s2 _ _ [<- Hsub] s' r' Hs.
      exists s'. split; [|split; [done|]].
      - eapply IH; [|done]. by eapply agree_outside_mono.
      - apply expand_part_grows in Hs as [? _]. set_solver. }
    assert (add_visited part st = add_visited part st ∧
            visited st ⊆ visited (add_visited part st)) as Hst
      by (split; [done|simpl; set_solver]).
    destruct (Hsim Hrec _ _ Hst sta ra E1) as (stb & -> & <- & _).
    done.
Qed.

End Reading.

(** X9. [expand_part] never reads the table entry of a part that is already
    visited: on two tables that have the same entries for all the parts not
    yet visited, it gives the same result. *)
Theorem visited_entries_are_not_read
    (d1 d2 : pydict (list (list pystr))) (rootmap : gmap pystr pystr)
    (fuel : nat) (part : pystr) (st : rstate) :
  agree_outside (visited st) d1 d2 →
  expand_part d1 rootmap fuel part st = expand_part d2 rootmap fuel part st.
Proof.
  intros Hag.
  assert (agree_outside (visited st) d2 d1) as Hga
    by (intros k Hk; symmetry; by apply Hag).
  destruct (expand_part d1 rootmap fuel part st) as [[s1 r1]|] eqn:E1.
  - symmetry. by eapply expand_part_agree_1.
  - destruct (expand_part d2 rootmap fuel part st) as [[s2 r2]|] eqn:E2;
      [|done].
    eapply expand_part_agree_1 in E2; [|done]. congruence.
Qed.

(** With 甲 visited, the entry of 甲 does not matter to the expansion of 乙,
    which is made of 甲 and fails on the cycle guard either way. *)
Lemma visited_entries_are_not_read_witness :
  let d1 := [(u "甲", [[u "一"]]); (u "乙", [[u "甲"]])] in
  let d2 := [(u "甲", [[u "口"]; [u "日"]]); (u "乙", [[u "甲"]])] in
  let st := RState {[ u "甲" ]} ∅ in
  agree_outside (visited st) d1 d2 ∧
  expand_part d1 ∅ 3 (u "乙") st = expand_part d2 ∅ 3 (u "乙") st.
Proof.
  intros d1 d2 st.
  assert (agree_outside (visited st) d1 d2) as Hag.
  { intros k Hk. simpl in Hk. unfold d1, d2. simpl.
    destruct (decide (u "甲" = k)) as [<-|_]; [|done]. set_solver. }
  split; [exact Hag|].
  exact (visited_entries_are_not_read d1 d2 ∅ 3 (u "乙") st Hag).
Defined.

Lemma try_alternatives_app (rec : resolver) (alts more : list (list pystr))
    (st st' : rstate) (res : list pystr) :
  try_alternatives rec alts st = Some (st', Some res) →
  try_alternatives rec (alts ++ more) st = Some (st', Some res).
Proof.
  revert st. induction alts as [|alt alts IH]; intros st; simpl; [done|].
  destruct (expand_sub_parts rec _ [] st) as [[sta [r1|]]|]; [done| |done].
  apply IH.
Qed.

(** X10. The first alternative that resolves wins: when a part resolves,
    alternatives added after its alternatives in the table change neither
    the sequence returned nor the state. *)
Theorem first_resolving_alternative_wins
    (decomposition : pydict (list (list pystr)))
    (rootmap : gmap pystr pystr) (fuel : nat) (part : pystr)
    (alts more : list (list pystr)) (st st' : rstate) (res : list pystr) :
  get decomposition part = Some alts →
  expand_part decomposition rootmap fuel part st = Some (st', Some res) →
  expand_part (set decomposition part (alts ++ more)) rootmap fuel part st
  = Some (st', Some res).
Proof.
  intros Hget. destruct fuel as [|fuel]; [done|].
  destruct (expand_part_cases rootmap part st) as [Hr|[[Hr Hv]|[Hr Hv]]].
  - by rewrite !expand_part_root.
  - by rewrite !expand_part_visited.
  - rewrite !expand_part_fresh by done.
    rewrite Hget, PyFacts.get_set. case_decide; [|done].
    destruct (try_alternatives _ alts _) as [[sta [r1|]]|] eqn:E; [|done..].
    intros [= <- <-].
    pose proof (try_alternatives_simulates
      (expand_part decomposition rootmap fuel)
      (expand_part (set decomposition part (alts ++ more)) rootmap fuel)
      (λ s1 s2, s1 = s2 ∧ part ∈ visited s1) alts) as Hsim.
    assert (∀ alt sp s1 s2, alt ∈ alts → sp ∈ apply_replacements alt →
              s1 = s2 ∧ part ∈ visited s1 →
              simulates (λ s1 s2, s1 = s2 ∧ part ∈ visited s1)
                (expand_part decomposition rootmap fuel sp s1)
                (expand_part (set decomposition part (alts ++ more))
                             rootmap fuel sp s2)) as Hrec.
    { intros alt sp s1 s2 _ _ [<- Hin] s' r' Hs.
      exists s'. split; [|split; [done|]].
      - eapply expand_part_agree_1; [|done].
        intros k Hk. rewrite PyFacts.get_set. case_decide; [|done].
        subst. done.
      - apply expand_part_grows in Hs as [? _]. set_solver. }
    assert (add_visited part st = add_visited part st ∧
            part ∈ visited (add_visited part st)) as Hst
      by (split; [done|simpl; set_solver]).
    destruct (Hsim Hrec _ _ Hst sta (Some r1) E) as (stb & Hb & <- & _).
    by rewrite (try_alternatives_app _ _ more _ _ _ Hb).
Qed.

(** 甲 resolves by its alternative 一; a further alternative 乙, which would
    fail, is not tried. *)
Lemma first_resolving_alternative_wins_witness :
  let decomposition := [(u "甲", [[u "一"]])] in
  let rootmap : gmap pystr pystr := {[ u "一" := u "g" ]} in
  get decomposition (u "甲") = Some [[u "一"]] ∧
  expand_part decomposition rootmap 2 (u "甲") (RState ∅ ∅)
    = Some (RState {[ u "甲" ]} ∅, Some [u "一"]) ∧
  expand_part (set decomposition (u "甲") ([[u "一"]] ++ [[u "乙"]])) rootmap 2
              (u "甲") (RState ∅ ∅)
    = Some (RState {[ u "甲" ]} ∅, Some [u "一"]).
Proof.
  intros decomposition rootmap.
  assert (get decomposition (u "甲") = Some [[u "一"]]) as Hget by reflexivity.
  assert (expand_part decomposition rootmap 2 (u "甲") (RState ∅ ∅)
          = Some (RState {[ u "甲" ]} ∅, Some [u "一"])) as H
    by (vm_compute; reflexivity).
  split; [exact Hget|]. split; [exact H|].
  exact (first_resolving_alternative_wins decomposition rootmap 2 (u "甲")
           [[u "一"]] [[u "乙"]] _ _ _ Hget H).
Defined.

(** X11. [missing_roots] is only written: run from a state with any set of
    missing roots, [expand_part] returns the same value and visited set as
    from the empty set, and the missing roots it records are added to those
    that were there. *)
Theorem missing_roots_only_written
    (decomposition : pydict (list (list pystr)))
    (rootmap : gmap pystr pystr) (fuel : nat) (part : pystr)
    (V V' M M0 : gset pystr) r :
  expand_part decomposition rootmap fuel part (RState V ∅)
    = Some (RState V' M0, r) →
  expand_part decomposition rootmap fuel part (RState V M)
    = Some (RState V' (M ∪ M0), r).
Proof.
  intros H.
  set (Rel := λ s1 s2 : rstate,
                visited s1 = visited s2 ∧
                missing_roots s2 = M ∪ missing_roots s1).
  assert (∀ s1 s2, Rel s1 s2 → visited s1 = visited s2) as H1
    by (by intros s1 s2 [? _]).
  assert (∀ p s1 s2, Rel s1 s2 → Rel (add_visited p s1) (add_visited p s2))
    as H2 by (intros p s1 s2 [HV HM]; split; simpl; [by rewrite HV|done]).
  assert (∀ p s1 s2, Rel s1 s2 → Rel (add_missing p s1) (add_missing p s2))
    as H3.
  { intros p s1 s2 [HV HM]. split; simpl; [done|]. rewrite HM. set_solver. }
  assert (Rel (RState V ∅) (RState V M)) as H0
    by (split; simpl; [done|set_solver]).
  destruct (expand_part_simulates decomposition rootmap Rel H1 H2 H3
              fuel fuel part _ _ (le_n _) H0 _ _ H)
    as ([V2 M2] & -> & HV & HM).
  simpl in *. by subst.
Qed.

(** 甲 is made of 乙, which is unknown; 丙 was recorded before. *)
Lemma missing_roots_only_written_witness :
  let decomposition := [(u "甲", [[u "乙"]])] in
  expand_part decomposition ∅ 2 (u "甲") (RState ∅ ∅)
    = Some (RState {[ u "甲"; u "乙" ]} {[ u "甲"; u "乙" ]}, None) ∧
  expand_part decomposition ∅ 2 (u "甲") (RState ∅ {[ u "丙" ]})
    = Some (RState {[ u "甲"; u "乙" ]}
                   ({[ u "丙" ]} ∪ {[ u "甲"; u "乙" ]}), None).
Proof.
  intros decomposition.
  assert (expand_part decomposition ∅ 2 (u "甲") (RState ∅ ∅)
          = Some (RState {[ u "甲"; u "乙" ]} {[ u "甲"; u "乙" ]}, None)) as H
    by (vm_compute; reflexivity).
  split; [exact H|].
  exact (missing_roots_only_written decomposition ∅ 2 (u "甲") ∅ _
           {[ u "丙" ]} _ None H).
Defined.

End ResolverExtras.

(** ** Stage 1: the codes and the missing log *)

Module TableExtras.
Import Generator Props MoreProps ResolverFacts DeriverFacts TableFacts.

Lemma ones_chars (codes : list pystr) :
  Forall (λ l, length l = 1%nat) codes → ∃ cs, codes = chars cs.
Proof.
  induction 1 as [|l codes Hl _ [cs ->]]; [by exists []|].
  destruct l as [|c [|? ?]]; try done. by exists (c :: cs).
Qed.

(** The code made from one-character letters. *)
Lemma code_of_letters_length (codes parts : list pystr) (char : pystr)
    (single single' : list (pystr * pystr)) (code : pystr) :
  Forall (λ l, length l = 1%nat) codes →
  code_of_letters codes parts char single = (single', Some code) →
  single' = single ∧
  (2 ≤ length codes)%nat ∧ length code = (length codes `min` 4)%nat ∧
  ∀ c, c ∈ code → [c] ∈ codes.
Proof.
  intros [cs ->]%ones_chars. unfold code_of_letters.
  destruct cs as [|a [|b [|c [|d rest]]]].
  - by case_decide.
  - repeat case_decide; done.
  - repeat case_decide; try (simpl in *; done || lia).
    intros [= <- <-]. simpl. repeat split; try lia.
    intros x. rewrite !elem_of_cons. set_solver.
  - repeat case_decide; try (simpl in *; done || lia).
    intros [= <- <-]. simpl. repeat split; try lia.
    intros x. rewrite !elem_of_cons. set_solver.
  - repeat case_decide; try (simpl in *; done || lia).
    unfold chars. rewrite fmap_last.
    destruct (last (a :: b :: c :: d :: rest)) as [z|] eqn:Hz;
      [|by apply last_None in Hz].
    intros [= <- <-]. simpl. split; [done|]. split; [lia|]. split; [lia|].
    assert (z ∈ a :: b :: c :: d :: rest) as Hzin.
    { apply last_Some in Hz as (l' & ->). set_solver. }
    intros x Hx.
    assert (x ∈ a :: b :: c :: d :: rest) as Hxin.
    { apply elem_of_cons in Hx as [->|Hx]; [set_solver|].
      apply elem_of_cons in Hx as [->|Hx]; [set_solver|].
      apply elem_of_cons in Hx as [->|Hx]; [set_solver|].
      apply list_elem_of_singleton in Hx as ->. done. }
    exact (list_elem_of_fmap_2 (λ c0 : N, c0 :: nil) _ x Hxin).
Qed.

(** A code [get_code_for_decomp] returns with a loaded root map. *)
Lemma returned_code_shape
    (decomposition : pydict (list (list pystr)))
    (root_lines : list pystr) (fuel : nat) (parts : list pystr)
    (char : pystr) (g g' : gstate) (code : pystr) :
  get_code_for_decomp decomposition (load_roots root_lines) fuel parts char g
    = Some (g', Some code) →
  (2 ≤ length code ≤ 4)%nat ∧
  (∀ c, c ∈ code → ∃ p, load_roots root_lines !! p = Some [c]) ∧
  g_singlecode_chars g' = g_singlecode_chars g.
Proof.
  unfold get_code_for_decomp.
  destruct (expand_top _ _ fuel _ [] _) as [[missing [expanded|]]|]; [|done..].
  destruct (code_of_letters _ parts char _) as [single c0] eqn:Hc.
  intros [= <- ->].
  apply code_of_letters_length in Hc as (-> & H2 & Hlen & Hin).
  - split; [lia|]. split; [|done].
    intros c Hc. by eapply root_letters_values, Hin.
  - apply Forall_forall. intros l (p & Hp)%root_letters_values.
    by eapply load_roots_letters.
Qed.

(** X12. With a root map loaded by [load_roots], a code returned by
    [get_code_for_decomp] has 2, 3 or 4 characters, every one of them the
    letter of some root, and nothing is added to the single-letter list. *)
Theorem shape_code_length
    (decomposition : pydict (list (list pystr)))
    (root_lines : list pystr) (fuel : nat) (parts : list pystr)
    (char : pystr) (g g' : gstate) (code : pystr) :
  get_code_for_decomp decomposition (load_roots root_lines) fuel parts char g
    = Some (g', Some code) →
  (2 ≤ length code ≤ 4)%nat ∧
  (∀ c, c ∈ code → ∃ p, load_roots root_lines !! p = Some [c]) ∧
  g_singlecode_chars g' = g_singlecode_chars g.
Proof. apply returned_code_shape. Qed.

(** 旦 = 日一 with the roots G一, K口, J日. *)
Lemma shape_code_length_witness :
  let decomposition := [(u "旦", [[u "日"; u "一"]])] in
  let root_lines := [u "G一"; u "K口"; u "J日"] in
  let g := GState ∅ [] [] [] in
  get_code_for_decomp decomposition (load_roots root_lines) 2
                      [u "日"; u "一"] (u "旦") g = Some (g, Some (u "JG")) ∧
  (2 ≤ length (u "JG") ≤ 4)%nat.
Proof.
  intros decomposition root_lines g.
  assert (get_code_for_decomp decomposition (load_roots root_lines) 2
            [u "日"; u "一"] (u "旦") g = Some (g, Some (u "JG"))) as H
    by (vm_compute; reflexivity).
  split; [exact H|].
  exact (proj1 (shape_code_length _ _ _ _ _ _ _ _ H)).
Defined.

Section MissingLog.
Variable decomposition : pydict (list (list pystr)).
Variable rootmap : gmap pystr pystr.
Hypothesis letters_nonempty : ∀ p l, rootmap !! p = Some l → l ≠ [].

Lemma get_code_for_decomp_frame (fuel : nat) (parts : list pystr)
    (char : pystr) (g g' : gstate) code :
  get_code_for_decomp decomposition rootmap fuel parts char g
    = Some (g', code) →
  g_missing_lines g' = g_missing_lines g.
Proof.
  unfold get_code_for_decomp.
  destruct (expand_top _ _ fuel _ [] _) as [[missing [expanded|]]|]; [| |done].
  - destruct (code_of_letters _ parts char _). by intros [= <- _].
  - by intros [= <- _].
Qed.

Lemma main_alternatives_success (fuel : nat) (char : pystr)
    (decomps : list (list pystr)) (success : bool) (g : gstate) :
  (length decomposition < fuel)%nat →
  ∃ g',
    main_alternatives decomposition rootmap fuel char decomps success g
      = Some (g', success
                  || negb (forallb
                             (λ parts, bool_decide
                                (code_of decomposition rootmap parts = None))
                             decomps)) ∧
    g_missing_lines g' = g_missing_lines g.
Proof.
  intros Hfuel. revert success g. induction decomps as [|parts more IH];
    intros success g; simpl.
  - eexists. by rewrite orb_false_r.
  - destruct (get_code_for_decomp_code_of decomposition rootmap
                letters_nonempty fuel parts char g Hfuel)
      as (g' & Hget & _ & Ht).
    rewrite Hget, Ht.
    pose proof (get_code_for_decomp_frame _ _ _ _ _ _ Hget) as Hml.
    destruct (code_of decomposition rootmap parts) as [code|]; simpl.
    + edestruct IH as (g'' & -> & Hml''). eexists. split.
      * by rewrite orb_true_r.
      * by rewrite Hml''.
    + edestruct IH as (g'' & -> & Hml''). eexists. split; [done|].
      by rewrite Hml''.
Qed.

Lemma main_items_missing_lines (fuel : nat)
    (items : pydict (list (list pystr))) (g : gstate) :
  (length decomposition < fuel)%nat →
  ∃ g',
    main_items decomposition rootmap fuel items g = Some g' ∧
    g_missing_lines g'
    = g_missing_lines g ++ missing_lines_of decomposition rootmap items.
Proof.
  intros Hfuel. revert g. induction items as [|[char decomps] more IH];
    intros g; simpl.
  - eexists. by rewrite app_nil_r.
  - destruct (main_alternatives_success fuel char decomps false g Hfuel)
      as (g' & -> & Hml). simpl.
    edestruct IH as (g'' & -> & Hml'').
    eexists. split; [done|]. rewrite Hml''.
    destruct (forallb _ decomps); simpl; rewrite Hml; by rewrite <- ?app_assoc.
Qed.

End MissingLog.

(** X13. The missing log of [main] holds, for every character none of whose
    alternatives has a code, one line per alternative, in table order, and
    nothing else; so a character with alternatives is either in the output
    or in the missing log, never in both. *)
Theorem main_missing_lines (fuel : nat) (root_lines dict_lines : list pystr) :
  let rootmap := load_roots root_lines in
  let decomposition := load_decomposition dict_lines in
  (length decomposition < fuel)%nat →
  ∃ g,
    main fuel root_lines dict_lines = Some g ∧
    g_missing_lines g = missing_lines_of decomposition rootmap decomposition ∧
    ∀ item,
      rows_of decomposition rootmap [item] = [] ∨
      missing_lines_of decomposition rootmap [item] = [].
Proof.
  intros rootmap decomposition Hfuel.
  assert (∀ p l, rootmap !! p = Some l → l ≠ []) as Hletters.
  { intros p l Hl%load_roots_letters ->. done. }
  destruct (main_items_missing_lines decomposition rootmap Hletters fuel
              decomposition (GState ∅ [] [] []) Hfuel) as (g & Hmain & Hml).
  exists g. split; [done|]. split; [done|].
  intros [char decomps]. unfold rows_of, missing_lines_of. simpl.
  rewrite !app_nil_r.
  destruct (forallb _ decomps) eqn:Hall; [left|by right].
  rewrite forallb_forall in Hall.
  induction decomps as [|parts more IH]; simpl; [done|].
  pose proof (Hall parts ltac:(by left)) as Hp.
  apply bool_decide_eq_true in Hp. rewrite Hp. simpl.
  apply IH. intros x Hx. apply Hall. by right.
Qed.

(** 吕 has the one alternative 口, a single letter: nothing is written for
    it and its alternative goes to the missing log; 旦 is written. *)
Lemma main_missing_lines_witness :
  let root_lines := [u "G一"; u "K口"; u "J日"] in
  let dict_lines := [u "旦" ++ [9] ++ u "日一"; u "吕" ++ [9] ++ u "口"] in
  (length (load_decomposition dict_lines) < 3)%nat ∧
  ∃ g,
    main 3 root_lines dict_lines = Some g ∧
    g_missing_lines g = [row (u "吕") (u "口")].
Proof.
  intros root_lines dict_lines.
  assert (length (load_decomposition dict_lines) < 3)%nat as Hfuel
    by (vm_compute; lia).
  split; [exact Hfuel|].
  destruct (main_missing_lines 3 root_lines dict_lines Hfuel)
    as (g & Hmain & Hml & _).
  exists g. split; [exact Hmain|]. rewrite Hml. vm_compute. reflexivity.
Defined.

End TableExtras.

(** ** The transliterator: the split and the failures *)

Module TransliteratorExtras.
Import Transferer Props TransliteratorFacts.

Lemma startswith_drop (s pre : pystr) :
  startswith s pre = true → pre ++ drop (length pre) s = s.
Proof.
  revert s. induction pre as [|p pre IH]; intros s; simpl; [done|].
  destruct s as [|c s]; [done|].
  intros [->%N.eqb_eq H]%andb_true_iff. simpl. by rewrite IH.
Qed.

Lemma startswith_refl (s : pystr) : startswith s s = true.
Proof. induction s as [|c s IH]; simpl; [done|]. by rewrite N.eqb_refl. Qed.

Lemma startswith_nil_l (pre : pystr) : startswith [] pre = true → pre = [].
Proof. by destruct pre. Qed.

(** The two parts of a syllable. *)
Lemma _split_initial_final_cases (pinyin : pystr) :
  let split := _split_initial_final pinyin in
  split.1 ++ split.2 = pinyin ∧
  ((split.1 = [] ∧ zero_initial pinyin) ∨
   (split.1 ≠ [] ∧ split.1 ∈ _INITIALS ∧
    ∀ init, init ∈ _INITIALS → startswith pinyin init = true →
      (length init ≤ length split.1)%nat)).
Proof.
  unfold _split_initial_final.
  pose proof (find_sorted_by_neg_len (startswith pinyin) _INITIALS) as Hf.
  destruct (find _ _) as [init|]; simpl.
  - destruct Hf as (Hs & Hin & Hmax). split; [by apply startswith_drop|].
    right. split; [|done]. intros ->.
    assert (Forall (λ i, i ≠ []) _INITIALS) as Hne
      by (repeat constructor; done).
    rewrite Forall_forall in Hne. by apply (Hne []).
  - split; [done|]. left. done.
Qed.

(** X14. [_split_initial_final] cuts the syllable in two: initial and final
    put together give the syllable back; the initial is either empty, when
    no known initial is a prefix of the syllable, or a known initial that is
    a prefix and that no other such initial exceeds in length (so "zh", "ch",
    "sh" are preferred to "z", "c", "s"). *)
Theorem _split_initial_final_spec (pinyin : pystr) :
  let split := _split_initial_final pinyin in
  split.1 ++ split.2 = pinyin ∧
  ((split.1 = [] ∧ zero_initial pinyin) ∨
   (split.1 ≠ [] ∧ split.1 ∈ _INITIALS ∧
    ∀ init, init ∈ _INITIALS → startswith pinyin init = true →
      (length init ≤ length split.1)%nat)).
Proof. apply _split_initial_final_cases. Qed.

(** The letters of the table are single characters, and no key is empty. *)
Lemma _XH_letters_one (k l : pystr) : get _XH k = Some l → length l = 1%nat.
Proof.
  assert (Forall (λ kv : pystr * pystr, length kv.2 = 1%nat) _XH) as H
    by (repeat constructor).
  rewrite Forall_forall in H. intros Hget%get_Some_item. by apply H in Hget.
Qed.

Lemma suffix_lookup_nil : suffix_lookup _XH [] = None.
Proof.
  pose proof (suffix_lookup_spec _XH []) as H.
  destruct (suffix_lookup _XH []) as [letter|]; [|done].
  destruct H as (k & (Hk & Hs & _) & _).
  apply endswith_length in Hs. apply _XH_keys_long in Hk. simpl in Hs. lia.
Qed.

Lemma suffix_lookup_one (fin l : pystr) :
  suffix_lookup _XH fin = Some l → length l = 1%nat.
Proof.
  intros H. pose proof (suffix_lookup_spec _XH fin) as Hs. rewrite H in Hs.
  destruct Hs as (k & _ & Hget). by eapply _XH_letters_one.
Qed.

Lemma first_char_one (s : pystr) : s ≠ [] → length (first_char s) = 1%nat.
Proof. by destruct s. Qed.

(** X15. With the table of the source, [_xiaohe_double] raises [ValueError]
    exactly on the bare initials ("zh", "b", ..., "w": an initial with no
    final); on every other non-empty syllable it returns two one-character
    strings. *)
Theorem _xiaohe_double_failures (isalpha : N → bool) (pinyin : pystr) :
  (_xiaohe_double _XH isalpha pinyin = ValueError ↔ pinyin ∈ _INITIALS) ∧
  (∀ a b, _xiaohe_double _XH isalpha pinyin = Return (a, b) →
     pinyin ≠ [] → length a = 1%nat ∧ length b = 1%nat).
Proof.
  pose proof (_split_initial_final_cases pinyin) as Hsplit.
  unfold _xiaohe_double.
  destruct (_split_initial_final pinyin) as [init fin]. simpl in Hsplit.
  destruct Hsplit as [Hcat [[-> Hz]|(Hne & Hin & Hmax)]].
  - simpl in Hcat. subst fin. split.
    + split; [done|]. intros Hp. specialize (Hz pinyin Hp).
      by rewrite startswith_refl in Hz.
    + intros a b [= Hab] Hp. unfold _xiaohe_double_for_zero_initial in Hab.
      destruct pinyin as [|p0 pinyin]; [done|].
      destruct (orb _ _).
      * by injection Hab as <- <-.
      * destruct (get _XH (p0 :: pinyin)) as [l|] eqn:Hg.
        { injection Hab as <- <-. split; [done|]. by eapply _XH_letters_one. }
        destruct (suffix_lookup _XH (p0 :: pinyin)) as [l|] eqn:Hs.
        { injection Hab as <- <-. split; [done|]. by eapply suffix_lookup_one. }
        by injection Hab as <- <-.
  - destruct init as [|i0 init]; [done|].
    assert (length (match get _XH (i0 :: init) with
                    | Some l => l
                    | None => first_char (i0 :: init)
                    end) = 1%nat) as Hfirst.
    { destruct (get _XH (i0 :: init)) as [l|] eqn:Hg; [|done].
      by eapply _XH_letters_one. }
    destruct (match get _XH (i0 :: init) with Some _ => _ | None => _ end)
      as [|f0 first]; [done|].
    destruct fin as [|f1 fin].
    + rewrite app_nil_r in Hcat. subst pinyin.
      replace (get _XH []) with (@None pystr) by reflexivity.
      rewrite suffix_lookup_nil. split; [done|]. done.
    + assert (length (match get _XH (f1 :: fin) with
                      | Some l => l
                      | None =>
                        match suffix_lookup _XH (f1 :: fin) with
                        | Some (c :: l) => c :: l
                        | _ => first_char (f1 :: fin)
                        end
                      end) = 1%nat) as Hsecond.
      { destruct (get _XH (f1 :: fin)) as [l|] eqn:Hg;
          [by eapply _XH_letters_one|].
        destruct (suffix_lookup _XH (f1 :: fin)) as [[|c l]|] eqn:Hs;
          [done| |done].
        by eapply suffix_lookup_one. }
      destruct (match get _XH (f1 :: fin) with Some _ => _ | None => _ end)
        as [|s0 second]; [done|].
      split.
      * split; [done|]. intros Hp. specialize (Hmax pinyin Hp).
        rewrite startswith_refl in Hmax. specialize (Hmax eq_refl).
        rewrite <- Hcat, length_app in Hmax. simpl in Hmax. lia.
      * intros a b [= <- <-] _. done.
Qed.

End TransliteratorExtras.

(** ** Stage 2: the rows of a finished run *)

Module MergeExtras.
Import Transferer Props MoreProps MergeFacts.

Section Rows.
Variable XH : pydict pystr.
Variable isalpha : N → bool.
Variable pinyin_map : gmap pystr (list pystr).

Lemma merge_pinyins_spec (ch shape : pystr) (pinyins char_lines : list pystr)
    (cc : list (pystr * pystr)) :
  merge_pinyins XH isalpha ch (first_char shape) (last_char shape) pinyins
                char_lines cc
  = (char_lines ++ omap (composite XH isalpha ch shape) pinyins,
     cc ++ omap (unconverted XH isalpha ch) pinyins).
Proof.
  revert char_lines cc. induction pinyins as [|p rest IH];
    intros char_lines cc; simpl.
  - by rewrite !app_nil_r.
  - unfold composite, unconverted at 1.
    destruct (_xiaohe_double XH isalpha p) as [[a b]|]; rewrite IH; simpl.
    + by rewrite <- app_assoc.
    + by rewrite <- app_assoc.
Qed.

Lemma merge_shapes_spec (ch : pystr) (shapes pinyins char_lines : list pystr)
    (cc : list (pystr * pystr)) cl' cc' :
  merge_shapes XH isalpha ch shapes pinyins char_lines cc = inr (cl', cc') →
  cl' = char_lines
        ++ flat_map (λ shape, omap (composite XH isalpha ch shape) pinyins)
                    shapes ∧
  cc' = cc ++ flat_map (λ shape, omap (unconverted XH isalpha ch) pinyins)
                       shapes.
Proof.
  revert char_lines cc. induction shapes as [|shape rest IH];
    intros char_lines cc; simpl.
  - intros [= <- <-]. by rewrite !app_nil_r.
  - destruct (length shape <? 2)%nat; [done|].
    rewrite merge_pinyins_spec. intros [-> ->]%IH.
    by rewrite <- !app_assoc.
Qed.

Lemma pairs_split (ch shape : pystr) (pinyins : list pystr) :
  (length (omap (composite XH isalpha ch shape) pinyins)
   + length (omap (unconverted XH isalpha ch) pinyins))%nat
  = length pinyins.
Proof.
  induction pinyins as [|p rest IH]; simpl; [done|].
  assert ((is_Some (composite XH isalpha ch shape p) ∧
           unconverted XH isalpha ch p = None) ∨
          (composite XH isalpha ch shape p = None ∧
           is_Some (unconverted XH isalpha ch p))) as Hcase.
  { unfold composite, unconverted.
    destruct (_xiaohe_double XH isalpha p) as [[a b]|]; [left|right]; eauto. }
  unfold omap in IH.
  destruct Hcase as [[[r ->] ->]|[-> [e ->]]]; simpl; lia.
Qed.

Lemma pairs_split_shapes (ch : pystr) (shapes pinyins : list pystr) :
  (length (flat_map (λ shape, omap (composite XH isalpha ch shape) pinyins)
                    shapes)
   + length (flat_map (λ shape, omap (unconverted XH isalpha ch) pinyins)
                      shapes))%nat
  = (length shapes * length pinyins)%nat.
Proof.
  induction shapes as [|shape rest IH]; simpl; [done|].
  rewrite !length_app. pose proof (pairs_split ch shape pinyins). lia.
Qed.

Lemma readings_has (ch : pystr) :
  has_readings pinyin_map ch = false → readings pinyin_map ch = [].
Proof.
  unfold has_readings, readings.
  by destruct (pinyin_map !! ch) as [[|? ?]|].
Qed.

Lemma flat_map_nil {A B} (l : list A) : flat_map (λ _ : A, @nil B) l = [].
Proof. by induction l. Qed.

Lemma merge_items_spec (items : pydict (list pystr)) (m m' : mstate) :
  merge_items XH isalpha pinyin_map items m = inr m' →
  out_lines m' = out_lines m ++ merged_rows XH isalpha pinyin_map items ∧
  cannot_convert m'
  = cannot_convert m ++ unconverted_of XH isalpha pinyin_map items ∧
  (∀ ch, ch ∈ missing_pinyin m' ↔
         ch ∈ missing_pinyin m ∨
         (ch ∈ keys items ∧ has_readings pinyin_map ch = false)) ∧
  (length (out_lines m') + length (cannot_convert m'))%nat
  = (length (out_lines m) + length (cannot_convert m)
     + pair_count pinyin_map items)%nat.
Proof.
  revert m. induction items as [|[ch shapes] items IH]; intros m.
  - intros [= <-]. unfold merged_rows, unconverted_of, pair_count. simpl.
    rewrite !app_nil_r. split; [done|]. split; [done|]. split; [|lia].
    intros ch. split; [by left|]. intros [?|[?%elem_of_nil _]]; done.
  - destruct (has_readings pinyin_map ch) eqn:Hch.
    + destruct (merge_items_read XH isalpha pinyin_map ch shapes items m Hch)
        as (pinyins & Hp & ->).
      destruct (merge_shapes XH isalpha ch shapes pinyins [] (cannot_convert m))
        as [[c s]|[cl' cc']] eqn:Hs; [done|].
      apply merge_shapes_spec in Hs as [-> ->].
      intros (H1 & H2 & H3 & H4)%IH. simpl in *.
      assert (readings pinyin_map ch = pinyins) as Hr
        by (unfold readings; by rewrite Hp).
      unfold merged_rows, unconverted_of, pair_count in *. simpl.
      rewrite Hr.
      split; [by rewrite H1, <- app_assoc|].
      split; [by rewrite H2, <- app_assoc|]. split.
      * intros c. rewrite H3. split.
        -- intros [?|[Hk Hc]]; [by left|right]. split; [by right|done].
        -- intros [?|[Hk Hc]]; [by left|].
           apply elem_of_cons in Hk as [->|Hk]; [congruence|].
           right. done.
      * rewrite H4, !length_app.
        pose proof (pairs_split_shapes ch shapes pinyins). lia.
    + rewrite merge_items_unread by done.
      intros (H1 & H2 & H3 & H4)%IH. simpl in *.
      unfold merged_rows, unconverted_of, pair_count in *. simpl.
      rewrite (readings_has ch Hch). simpl.
      rewrite !flat_map_nil. simpl.
      split; [done|]. split; [done|]. split.
      * intros c. rewrite H3, elem_of_union, elem_of_singleton. split.
        -- intros [[->|?]|[Hk Hc]]; [right|by left|right].
           ++ split; [by left|done].
           ++ split; [by right|done].
        -- intros [?|[Hk Hc]]; [left; by right|].
           apply elem_of_cons in Hk as [->|Hk]; [left; by left|].
           right. done.
      * rewrite H4. lia.
Qed.

End Rows.

(** X16. What a finished run of stage 2 has written. The rows are, for the
    characters in table order, for each shape code in order, for each
    reading in order, the character, a tab, the two letters of the reading
    and the first and last letter of the shape code, for the readings that
    can be transliterated; the others are listed as unconverted, once per
    shape code. The missing characters are those of the table without
    readings, the count is the number of rows, and rows and unconverted
    entries together are as many as there are pairs of a shape code and a
    reading. *)
Theorem finished_run_rows
    (XH : pydict pystr) (isalpha : N → bool)
    (shape_map : pydict (list pystr)) (pinyin_map : gmap pystr (list pystr))
    (rows : list pystr) (missing : gset pystr)
    (cc : list (pystr * pystr)) (n : nat) :
  main XH isalpha shape_map pinyin_map
  = (Files (Some rows) (Some (ReportLog missing cc n)), Finished) →
  rows = map (λ line, line ++ [10])
             (merged_rows XH isalpha pinyin_map shape_map) ∧
  cc = unconverted_of XH isalpha pinyin_map shape_map ∧
  (∀ ch, ch ∈ missing ↔
         ch ∈ keys shape_map ∧ has_readings pinyin_map ch = false) ∧
  n = length rows ∧
  (length rows + length cc)%nat = pair_count pinyin_map shape_map.
Proof.
  unfold main.
  destruct (merge_items XH isalpha pinyin_map shape_map (MState [] ∅ []))
    as [[c s]|m'] eqn:Hm; [done|].
  intros [= <- <- <- <-].
  apply merge_items_spec in Hm as (H1 & H2 & H3 & H4). simpl in *.
  rewrite H1, H2. split; [done|]. split; [done|]. split.
  - intros ch. rewrite H3. split; [|by right].
    intros [?%elem_of_empty|?]; done.
  - rewrite length_map. split; [done|].
    by rewrite <- H1, <- H2.
Qed.

(** 日 has the codes jg and jk and the readings "ri" and "r" (a bare
    initial, which cannot be transliterated); 口 has no reading. *)
Lemma finished_run_rows_witness :
  let isalpha := λ c, (97 <=? c) && (c <=? 122) in
  let pinyin_map : gmap pystr (list pystr) :=
    {[ u "日" := [u "ri"; u "r"] ]} in
  let shape_map := [(u "口", [u "k"]); (u "日", [u "jg"; u "jk"])] in
  main _XH isalpha shape_map pinyin_map
  = (Files (Some [u "日" ++ [9] ++ u "rijg" ++ [10];
                  u "日" ++ [9] ++ u "rijk" ++ [10]])
           (Some (ReportLog {[ u "口" ]}
                            [(u "日", u "r"); (u "日", u "r")] 2)),
     Finished) ∧
  (2 + 2)%nat = pair_count pinyin_map shape_map.
Proof.
  intros isalpha pinyin_map shape_map.
  assert (main _XH isalpha shape_map pinyin_map
          = (Files (Some [u "日" ++ [9] ++ u "rijg" ++ [10];
                          u "日" ++ [9] ++ u "rijk" ++ [10]])
                   (Some (ReportLog {[ u "口" ]}
                                    [(u "日", u "r"); (u "日", u "r")] 2)),
             Finished)) as H by (vm_compute; reflexivity).
  split; [exact H|].
  exact (proj2 (proj2 (proj2 (proj2
           (finished_run_rows _ _ _ _ _ _ _ _ H))))).
Defined.

End MergeExtras.

(** ** The Pinyin Normalizer *)

Module NormalizerExtras.
Import Transferer TransfererIO Props PyFacts TransliteratorFacts.

Section Digits.
Variable isdecimal : N → bool.

Lemma lstrip_digits_head (s : pystr) (c : N) (r : pystr) :
  lstrip_digits isdecimal s = c :: r → isdecimal c = false.
Proof.
  induction s as [|d s IH]; simpl; [done|].
  destruct (isdecimal d) eqn:Hd; [done|]. by intros [= <- _].
Qed.

Lemma lstrip_digits_suffix (s : pystr) : lstrip_digits isdecimal s `suffix_of` s.
Proof.
  induction s as [|d s IH]; simpl; [done|].
  destruct (isdecimal d); [by apply suffix_cons_r|done].
Qed.

Lemma sub_trailing_digits_prefix (s : pystr) :
  sub_trailing_digits isdecimal s `prefix_of` s.
Proof.
  unfold sub_trailing_digits.
  pose proof (lstrip_digits_suffix (reverse s)) as H.
  apply suffix_prefix_reverse in H. by rewrite reverse_involutive in H.
Qed.

Lemma sub_trailing_digits_last (s : pystr) (c : N) :
  last (sub_trailing_digits isdecimal s) = Some c → isdecimal c = false.
Proof.
  unfold sub_trailing_digits. rewrite last_reverse.
  destruct (lstrip_digits isdecimal (reverse s)) as [|d t] eqn:Hl; [done|].
  intros [= <-]. by eapply lstrip_digits_head.
Qed.

End Digits.

(** The letters the tone map gives are single characters, not white space,
    and none of them is a key of the map. *)
Lemma _TONE_MAP_values (k r : pystr) :
  (k, r) ∈ _TONE_MAP →
  ∃ c, r = [c] ∧ isspace c = false ∧ get _TONE_MAP [c] = None.
Proof.
  assert (Forall (λ kv : pystr * pystr,
            ∃ c, kv.2 = [c] ∧ isspace c = false ∧ get _TONE_MAP [c] = None)
            _TONE_MAP) as H
    by (repeat constructor; eexists; repeat split; reflexivity).
  rewrite Forall_forall in H. intros Hin. by apply H in Hin.
Qed.

Lemma translate_cons (c : N) (s : pystr) :
  translate _TONE_MAP (c :: s)
  = match get _TONE_MAP [c] with Some r => r | None => [c] end
    ++ translate _TONE_MAP s.
Proof. reflexivity. Qed.

Lemma translate_length (s : pystr) :
  length (translate _TONE_MAP s) = length s.
Proof.
  induction s as [|c s IH]; [done|].
  rewrite translate_cons, length_app, IH.
  destruct (get _TONE_MAP [c]) as [r|] eqn:Hg; [|done].
  apply get_Some_item, _TONE_MAP_values in Hg as (d & -> & _). done.
Qed.

Lemma translate_elements (s : pystr) (c : N) :
  c ∈ translate _TONE_MAP s → get _TONE_MAP [c] = None.
Proof.
  induction s as [|d s IH]; [by intros ?%elem_of_nil|].
  rewrite translate_cons. intros [Hc|Hc]%elem_of_app; [|by apply IH].
  destruct (get _TONE_MAP [d]) as [r|] eqn:Hg.
  - apply get_Some_item, _TONE_MAP_values in Hg as (e & -> & _ & He).
    by apply list_elem_of_singleton in Hc as ->.
  - by apply list_elem_of_singleton in Hc as ->.
Qed.

Lemma translate_head (s : pystr) (c : N) :
  (∀ d, head s = Some d → isspace d = false) →
  head (translate _TONE_MAP s) = Some c → isspace c = false.
Proof.
  destruct s as [|d s]; [done|]. intros Hd. rewrite translate_cons.
  destruct (get _TONE_MAP [d]) as [r|] eqn:Hg.
  - apply get_Some_item, _TONE_MAP_values in Hg as (e & -> & He & _).
    by intros [= <-].
  - intros [= <-]. by apply Hd.
Qed.

(** X17. What [_remove_tone] returns does not start with white space, does
    not end with a decimal digit, holds none of the tone-marked letters of
    the tone map (nor ü), and is not longer than the input. *)
Theorem _remove_tone_spec (isdecimal : N → bool) (s : pystr) :
  let r := _remove_tone isdecimal s in
  (∀ c, head r = Some c → isspace c = false) ∧
  (∀ c, last r = Some c → isdecimal c = false) ∧
  (∀ c, c ∈ r → get _TONE_MAP [c] = None) ∧
  (length r ≤ length s)%nat.
Proof.
  unfold _remove_tone. simpl.
  pose proof (sub_trailing_digits_prefix isdecimal
                (translate _TONE_MAP (strip s))) as Hpre.
  split; [|split; [|split]].
  - intros c Hc.
    destruct (sub_trailing_digits isdecimal _) as [|c0 r] eqn:Hr; [done|].
    injection Hc as ->.
    apply (translate_head (strip s)).
    + intros d Hd. destruct (strip s) as [|d0 t] eqn:Hs; [done|].
      injection Hd as ->. by eapply strip_head.
    + destruct Hpre as [k ->]. done.
  - apply sub_trailing_digits_last.
  - intros c Hc. apply (translate_elements (strip s)).
    destruct Hpre as [k ->]. set_solver.
  - apply prefix_length in Hpre. rewrite translate_length in Hpre.
    etrans; [exact Hpre|].
    unfold strip. rewrite length_reverse.
    etrans; [apply suffix_length, lstrip_suffix|].
    rewrite length_reverse. apply suffix_length, lstrip_suffix.
Qed.

(** The examples of the specification, with the ASCII digits as decimal
    digits; and an input with a digit after a space, of which the space
    is left at the end. *)
Example _remove_tone_examples :
  let isdecimal := λ c, (48 <=? c) && (c <=? 57) in
  _remove_tone isdecimal (u "pīn") = u "pin" ∧
  _remove_tone isdecimal (u "nǚ") = u "nv" ∧
  _remove_tone isdecimal (u "nv3") = u "nv" ∧
  _remove_tone isdecimal (u " zhōng1 ") = u "zhong" ∧
  _remove_tone isdecimal (u "ni 3") = u "ni ".
Proof. repeat split; reflexivity. Qed.

End NormalizerExtras.

(** ** The shape-table loader of stage 2 *)

Module ShapeTableFacts.
Import Transferer TransfererIO Props MoreProps PyFacts.

Lemma get_append_code (mp : pydict (list pystr)) (ch code ch' : pystr) :
  default [] (get (append_code mp ch code) ch')
  = default [] (get mp ch') ++ (if decide (ch = ch') then [code] else []).
Proof.
  unfold append_code. rewrite get_set. case_decide as H.
  - by subst.
  - by rewrite app_nil_r.
Qed.

Lemma append_code_nonempty (mp : pydict (list pystr)) (ch code : pystr) :
  (∀ c l, get mp c = Some l → l ≠ []) →
  ∀ c l, get (append_code mp ch code) c = Some l → l ≠ [].
Proof.
  intros Hmp c l. unfold append_code. rewrite get_set. case_decide.
  - intros [= <-]. by destruct (default [] (get mp ch)).
  - apply Hmp.
Qed.

Lemma shape_fields_blank (line : pystr) :
  strip (rstrip_newlines line) = [] → shape_fields line = None.
Proof. unfold shape_fields. simpl. by intros ->. Qed.

Lemma shape_fields_some (line : pystr) (c : N) (r : pystr) :
  strip (rstrip_newlines line) = c :: r →
  shape_fields line = Some (split_on 9 (rstrip_newlines line)).
Proof. unfold shape_fields. simpl. by intros ->. Qed.

(** What the loop of the loader gives, from any table and line number. *)
Lemma _load_shape_table_from_spec (ln : nat) (lines : list pystr)
    (mp : pydict (list pystr)) :
  NoDup (keys mp) → (∀ c l, get mp c = Some l → l ≠ []) →
  match _load_shape_table_from ln lines mp with
  | Loaded mp' =>
    Forall (λ line, well_formed line = true) lines ∧
    NoDup (keys mp') ∧
    (∀ c l, get mp' c = Some l → l ≠ []) ∧
    ∀ ch, default [] (get mp' ch) = default [] (get mp ch) ++ codes_in lines ch
  | FormatError n line =>
    ∃ before bad after,
      lines = before ++ bad :: after ∧
      Forall (λ line, well_formed line = true) before ∧
      well_formed bad = false ∧
      n = (ln + length before)%nat ∧ line = rstrip_newlines bad
  end.
Proof.
  revert ln mp. induction lines as [|line rest IH]; intros ln mp Hnd Hne.
  - simpl. split; [constructor|]. split; [done|]. split; [done|].
    intros ch. by rewrite app_nil_r.
  - simpl.
    assert (∀ mp1 : pydict (list pystr),
      NoDup (keys mp1) → (∀ c l, get mp1 c = Some l → l ≠ []) →
      well_formed line = true →
      (∀ ch, default [] (get mp1 ch)
             = default [] (get mp ch) ++ codes_in [line] ch) →
      match _load_shape_table_from (S ln) rest mp1 with
      | Loaded mp' =>
        Forall (λ line, well_formed line = true) (line :: rest) ∧
        NoDup (keys mp') ∧
        (∀ c l, get mp' c = Some l → l ≠ []) ∧
        ∀ ch, default [] (get mp' ch)
              = default [] (get mp ch) ++ codes_in (line :: rest) ch
      | FormatError n line0 =>
        ∃ before bad after,
          line :: rest = before ++ bad :: after ∧
          Forall (λ line, well_formed line = true) before ∧
          well_formed bad = false ∧
          n = (ln + length before)%nat ∧ line0 = rstrip_newlines bad
      end) as Hstep.
    { intros mp1 Hnd1 Hne1 Hwf Hget.
      specialize (IH (S ln) mp1 Hnd1 Hne1).
      destruct (_load_shape_table_from (S ln) rest mp1) as [mp'|n line0].
      - destruct IH as (Hall & Hnd' & Hne' & Hcodes).
        split; [by constructor|]. split; [done|]. split; [done|].
        intros ch. rewrite Hcodes, Hget, <- app_assoc. f_equal.
        unfold codes_in. simpl. by destruct (match shape_fields line with
                                             | Some (c :: code :: _) => _
                                             | _ => None end).
      - destruct IH as (before & bad & after & -> & Hall & Hbad & -> & ->).
        exists (line :: before), bad, after. split; [done|].
        split; [by constructor|]. split; [done|]. split; [simpl; lia|done]. }
    destruct (strip (rstrip_newlines line)) as [|c0 r0] eqn:Hs.
    { apply Hstep; try done.
      - unfold well_formed. by rewrite (shape_fields_blank _ Hs).
      - intros ch. unfold codes_in. simpl.
        by rewrite (shape_fields_blank _ Hs), app_nil_r. }
    pose proof (shape_fields_some _ _ _ Hs) as Hsf.
    destruct (split_on 9 (rstrip_newlines line)) as [|ch [|code more]] eqn:Hf.
    + exists [], line, rest. split; [done|]. split; [constructor|].
      split; [|split; [simpl; lia|done]].
      unfold well_formed. by rewrite Hsf.
    + exists [], line, rest. split; [done|]. split; [constructor|].
      split; [|split; [simpl; lia|done]].
      unfold well_formed. by rewrite Hsf.
    + apply Hstep; try done.
      * unfold append_code. by apply keys_set_NoDup.
      * by apply append_code_nonempty.
      * unfold well_formed. by rewrite Hsf.
      * intros ch'. rewrite get_append_code. unfold codes_in. simpl.
        rewrite Hsf. by case_decide.
Qed.

End ShapeTableFacts.

Module ShapeTableExtras.
Import Transferer TransfererIO Props MoreProps ShapeTableFacts.

(** X18. [_load_shape_table] either loads the whole file or stops at the
    first line that is not blank and has no tab, naming its number (from 1)
    and its text. A loaded table has each character once, and for every
    character exactly the second fields of the lines that start with it, in
    the order of the lines; a character without such a line is not in the
    table, and blank lines and fields after the second are ignored. *)
Theorem _load_shape_table_spec (lines : list pystr) :
  match _load_shape_table lines with
  | Loaded mp =>
    Forall (λ line, well_formed line = true) lines ∧
    NoDup (keys mp) ∧
    ∀ ch, get mp ch
          = match codes_in lines ch with [] => None | codes => Some codes end
  | FormatError n line =>
    ∃ before bad after,
      lines = before ++ bad :: after ∧
      Forall (λ line, well_formed line = true) before ∧
      well_formed bad = false ∧
      n = S (length before) ∧ line = rstrip_newlines bad
  end.
Proof.
  pose proof (_load_shape_table_from_spec 1 lines [] (NoDup_nil_2)
                ltac:(done)) as H.
  unfold _load_shape_table.
  destruct (_load_shape_table_from 1 lines []) as [mp|n line].
  - destruct H as (Hall & Hnd & Hne & Hcodes).
    split; [done|]. split; [done|].
    intros ch. specialize (Hcodes ch). simpl in Hcodes.
    destruct (get mp ch) as [l|] eqn:Hg; simpl in Hcodes.
    + rewrite <- Hcodes. apply Hne in Hg. by destruct l.
    + by rewrite <- Hcodes.
  - done.
Qed.

(** Two codes for 日, one for 口, a blank line, a third field; and a file
    whose second line has no tab. *)
Example _load_shape_table_examples :
  _load_shape_table [u "日" ++ [9] ++ u "jg" ++ [10];
                     u "口" ++ [9] ++ u "kk" ++ [9] ++ u "x" ++ [10];
                     [10];
                     u "日" ++ [9] ++ u "jk"]
  = Loaded [(u "日", [u "jg"; u "jk"]); (u "口", [u "kk"])] ∧
  _load_shape_table [u "日" ++ [9] ++ u "jg" ++ [10]; u "口kk" ++ [10]]
  = FormatError 2 (u "口kk").
Proof. split; reflexivity. Qed.

End ShapeTableExtras.

(** ** From stage 1 to stage 2 *)

Module PipelineFacts.
Import Generator Transferer TransfererIO Props MoreProps PyFacts
       ShapeTableFacts.

(** *** The file written and read back *)

Lemma file_lines_from_body (cur body rest : pystr) :
  10 ∉ body → 13 ∉ body →
  file_lines_from cur (body ++ 10 :: rest)
  = (reverse cur ++ body ++ [10]) :: file_lines_from [] rest.
Proof.
  revert cur. induction body as [|c body IH]; intros cur H10 H13; simpl.
  - by rewrite reverse_cons.
  - apply not_elem_of_cons in H10 as [Hc10 H10].
    apply not_elem_of_cons in H13 as [Hc13 H13].
    destruct (N.eqb_spec c 13); [done|]. destruct (N.eqb_spec c 10); [done|].
    rewrite IH by done. by rewrite reverse_cons, <- app_assoc.
Qed.

Lemma file_lines_rows (rows : list pystr) :
  Forall (λ row, ∃ body, row = body ++ [10] ∧ (10 ∉ body) ∧ (13 ∉ body)) rows →
  file_lines (concat rows) = rows.
Proof.
  unfold file_lines. induction 1 as [|row rows (body & -> & H10 & H13) _ IH];
    simpl; [done|].
  rewrite <- app_assoc. simpl.
  rewrite file_lines_from_body by done. by rewrite IH.
Qed.

(** *** One row, as the loader reads it *)

Lemma rstrip_newlines_row (s : pystr) (z : N) :
  z ≠ 10 → z ≠ 13 → rstrip_newlines (s ++ [z; 10]) = s ++ [z].
Proof.
  intros H10 H13. unfold rstrip_newlines.
  rewrite reverse_app. simpl.
  change (reverse [z; 10]) with [10; z]. simpl.
  destruct (N.eqb_spec z 10); [done|]. destruct (N.eqb_spec z 13); [done|].
  simpl. by rewrite reverse_cons, reverse_involutive.
Qed.

Lemma lstrip_keeps (s : pystr) (c : N) :
  c ∈ s → isspace c = false → c ∈ lstrip s.
Proof.
  intros Hin Hc. induction s as [|d s IH]; simpl; [done|].
  destruct (isspace d) eqn:Hd; [|done].
  apply elem_of_cons in Hin as [->|Hin]; [congruence|by apply IH].
Qed.

Lemma strip_keeps (s : pystr) (c : N) :
  c ∈ s → isspace c = false → c ∈ strip s.
Proof.
  intros Hin Hc. unfold strip.
  rewrite elem_of_reverse. apply lstrip_keeps; [|done].
  rewrite elem_of_reverse. by apply lstrip_keeps.
Qed.

Lemma split_on_from_nosep (sep : N) (cur s : pystr) :
  sep ∉ s → split_on_from sep cur s = [reverse cur ++ s].
Proof.
  revert cur. induction s as [|c s IH]; intros cur Hs; simpl.
  - by rewrite app_nil_r.
  - apply not_elem_of_cons in Hs as [Hc Hs].
    destruct (N.eqb_spec c sep); [done|].
    rewrite IH by done. by rewrite reverse_cons, <- app_assoc.
Qed.

Lemma split_on_from_sep (sep : N) (cur a b : pystr) :
  sep ∉ a →
  split_on_from sep cur (a ++ sep :: b)
  = (reverse cur ++ a) :: split_on_from sep [] b.
Proof.
  revert cur. induction a as [|c a IH]; intros cur Ha; simpl.
  - by rewrite N.eqb_refl, app_nil_r.
  - apply not_elem_of_cons in Ha as [Hc Ha].
    destruct (N.eqb_spec c sep); [done|].
    rewrite IH by done. by rewrite reverse_cons, <- app_assoc.
Qed.

Lemma nonspace_not (code : pystr) (c : N) :
  Forall (λ c, isspace c = false) code → isspace c = true → c ∉ code.
Proof.
  intros Hall Hc Hin. rewrite Forall_forall in Hall.
  apply Hall in Hin. congruence.
Qed.

Lemma row_body (ch code : pystr) :
  readable ch code →
  ∃ body, row ch code = body ++ [10] ∧ (10 ∉ body) ∧ (13 ∉ body).
Proof.
  intros (H9 & H10 & H13 & Hne & Hall).
  exists (ch ++ [9] ++ code). unfold row.
  split; [by rewrite <- !app_assoc|].
  split; rewrite !not_elem_of_app; (split; [done|]); (split; [set_solver|]);
    by apply nonspace_not.
Qed.

Lemma row_fields (ch code : pystr) :
  readable ch code →
  rstrip_newlines (row ch code) = ch ++ [9] ++ code ∧
  strip (ch ++ [9] ++ code) ≠ [] ∧
  split_on 9 (ch ++ [9] ++ code) = [ch; code].
Proof.
  intros (H9 & H10 & H13 & Hne & Hall).
  destruct code as [|c0 code'] using rev_ind; [done|]. clear IHcode'.
  apply Forall_app in Hall as [Hall Hz].
  rewrite Forall_singleton in Hz.
  split; [|split].
  - unfold row.
    replace (ch ++ [9] ++ (code' ++ [c0]) ++ [10])
      with ((ch ++ [9] ++ code') ++ [c0; 10])
      by (by rewrite <- !app_assoc).
    rewrite rstrip_newlines_row; [by rewrite <- !app_assoc| |];
      intros ->; by vm_compute in Hz.
  - intros Hs.
    assert (c0 ∈ strip (ch ++ [9] ++ code' ++ [c0])) as Hin
      by (apply strip_keeps; [set_solver|done]).
    rewrite Hs in Hin. by apply elem_of_nil in Hin.
  - unfold split_on. simpl app.
    rewrite split_on_from_sep by done.
    rewrite split_on_from_nosep.
    + done.
    + apply nonspace_not; [|done]. apply Forall_app. split; [done|].
      by apply Forall_singleton.
Qed.

(** *** The loader on the rows of stage 1 *)

Lemma get_absent {V} (d : pydict V) (k : pystr) : k ∉ keys d → get d k = None.
Proof.
  induction d as [|[k0 v0] d IH]; simpl; [done|].
  intros [Hne Hk]%not_elem_of_cons.
  destruct (decide (k0 = k)); [congruence|by apply IH].
Qed.

Lemma set_absent {V} (d : pydict V) (k : pystr) (v : V) :
  k ∉ keys d → set d k v = d ++ [(k, v)].
Proof.
  induction d as [|[k0 v0] d IH]; simpl; [done|].
  intros [Hne Hk]%not_elem_of_cons.
  destruct (decide (k0 = k)); [congruence|]. by rewrite IH.
Qed.

Lemma get_last {V} (d : pydict V) (k : pystr) (v : V) :
  k ∉ keys d → get (d ++ [(k, v)]) k = Some v.
Proof.
  induction d as [|[k0 v0] d IH]; simpl.
  - intros _. by destruct (decide (k = k)).
  - intros [Hne Hk]%not_elem_of_cons.
    destruct (decide (k0 = k)); [congruence|by apply IH].
Qed.

Lemma set_last {V} (d : pydict V) (k : pystr) (v v' : V) :
  k ∉ keys d → set (d ++ [(k, v)]) k v' = d ++ [(k, v')].
Proof.
  induction d as [|[k0 v0] d IH]; simpl.
  - intros _. by destruct (decide (k = k)).
  - intros [Hne Hk]%not_elem_of_cons.
    destruct (decide (k0 = k)); [congruence|]. by rewrite IH.
Qed.

Lemma load_row (ln : nat) (ch code : pystr) (rest : list pystr)
    (mp : pydict (list pystr)) :
  readable ch code →
  _load_shape_table_from ln (row ch code :: rest) mp
  = _load_shape_table_from (S ln) rest (append_code mp ch code).
Proof.
  intros (Hr & Hs & Hf)%row_fields. simpl. rewrite Hr, Hf.
  by destruct (strip (ch ++ [9] ++ code)).
Qed.

Lemma load_group_tail (ch : pystr) (codes acc : list pystr) (ln : nat)
    (rest : list pystr) (mp : pydict (list pystr)) :
  ch ∉ keys mp → Forall (readable ch) codes →
  _load_shape_table_from ln (map (row ch) codes ++ rest) (mp ++ [(ch, acc)])
  = _load_shape_table_from (ln + length codes) rest
      (mp ++ [(ch, acc ++ codes)]).
Proof.
  intros Hch Hall. revert acc ln.
  induction Hall as [|code codes Hc _ IH]; intros acc ln.
  - simpl. by rewrite app_nil_r, Nat.add_0_r.
  - rewrite map_cons, <- app_comm_cons, load_row by done. unfold append_code.
    rewrite get_last, set_last by done. cbn [default].
    rewrite IH, <- app_assoc. cbn [app length]. f_equal. lia.
Qed.

Lemma load_group (ch : pystr) (codes : list pystr) (ln : nat)
    (rest : list pystr) (mp : pydict (list pystr)) :
  ch ∉ keys mp → Forall (readable ch) codes →
  _load_shape_table_from ln (map (row ch) codes ++ rest) mp
  = _load_shape_table_from (ln + length codes) rest
      (match codes with [] => mp | _ => mp ++ [(ch, codes)] end).
Proof.
  intros Hch Hall. destruct Hall as [|code codes Hc Hall].
  - simpl. by rewrite Nat.add_0_r.
  - rewrite map_cons, <- app_comm_cons, load_row by done. unfold append_code.
    rewrite get_absent, set_absent by done. cbn [default app].
    rewrite load_group_tail by done. cbn [app length]. f_equal. lia.
Qed.

Lemma load_groups {A} (codes : A → list pystr) (items : list (pystr * A))
    (ln : nat) (mp : pydict (list pystr)) :
  NoDup (keys mp ++ map fst items) →
  Forall (λ item, Forall (readable item.1) (codes item.2)) items →
  _load_shape_table_from ln
    (flat_map (λ item, map (row item.1) (codes item.2)) items) mp
  = Loaded (mp ++ omap (λ item : pystr * A,
                          match codes item.2 with
                          | [] => None
                          | cs => Some (item.1, cs)
                          end) items).
Proof.
  intros Hnd Hall. revert ln mp Hnd.
  induction Hall as [|[ch a] items Hc _ IH]; intros ln mp Hnd.
  - simpl. by rewrite app_nil_r.
  - cbn [flat_map omap list_omap fst snd]. simpl in Hc. simpl in Hnd.
    assert (ch ∉ keys mp) as Hch.
    { apply NoDup_app in Hnd as (_ & Hdisj & _). intros Hin.
      apply (Hdisj ch Hin). by left. }
    rewrite load_group by done.
    assert (NoDup (keys mp ++ map fst items)) as Hnd1.
    { apply NoDup_app in Hnd as (H1 & H2 & H3). apply NoDup_cons in H3 as [_ H3].
      apply NoDup_app. split; [done|]. split; [|done].
      intros x Hx Hin. apply (H2 x Hx). by right. }
    destruct (codes a) as [|c cs] eqn:Hcodes.
    + by apply IH.
    + rewrite IH.
      * by rewrite <- app_assoc.
      * unfold keys in *. rewrite map_app. simpl. rewrite <- app_assoc. done.
Qed.

(** The rows of stage 1, grouped by character. *)
Lemma rows_of_grouped (decomposition : pydict (list (list pystr)))
    (rootmap : gmap pystr pystr) (items : pydict (list (list pystr))) :
  rows_of decomposition rootmap items
  = flat_map (λ item, map (row item.1)
                          (omap (code_of decomposition rootmap) item.2))
             items.
Proof.
  unfold rows_of. induction items as [|[ch alts] items IH]; simpl; [done|].
  rewrite IH. f_equal. clear IH.
  induction alts as [|parts alts IH]; simpl; [done|].
  rewrite IH. by destruct (code_of decomposition rootmap parts).
Qed.

(** *** The characters and codes of stage 1 are readable *)

Lemma split_on_from_elements (sep : N) (cur s f : pystr) (c : N) :
  f ∈ split_on_from sep cur s → c ∈ f → c ∈ cur ∨ c ∈ s.
Proof.
  revert cur. induction s as [|d s IH]; intros cur; simpl.
  - intros ->%list_elem_of_singleton Hc. left. by rewrite <- elem_of_reverse.
  - destruct (N.eqb_spec d sep) as [->|Hne].
    + intros [->|Hf]%elem_of_cons Hc.
      * left. by rewrite <- elem_of_reverse.
      * destruct (IH [] Hf Hc) as [?%elem_of_nil|?]; [done|]. right. by right.
    + intros Hf Hc. destruct (IH (d :: cur) Hf Hc) as [[->|?]%elem_of_cons|?].
      * right. by left.
      * by left.
      * right. by right.
Qed.

Lemma load_decomposition_keys_lines (Q : N → Prop) (lines : list pystr) :
  Forall (λ line, ∀ c, c ∈ strip line → Q c) lines →
  ∀ item, item ∈ load_decomposition lines → ∀ c, c ∈ item.1 → Q c.
Proof.
  unfold load_decomposition.
  assert (∀ d : pydict (list (list pystr)),
    Forall (λ line, ∀ c, c ∈ strip line → Q c) lines →
    (∀ item, item ∈ d → ∀ c, c ∈ item.1 → Q c) →
    ∀ item, item ∈ load_decomposition_from lines d → ∀ c, c ∈ item.1 → Q c)
    as Hgen.
  { induction lines as [|line rest IH]; intros d Hall Hd; simpl; [done|].
    apply Forall_cons in Hall as [Hline Hall].
    destruct (strip line) as [|c0 r0] eqn:Hs; [by apply IH|].
    destruct (split_on 9 (c0 :: r0)) as [|char parts] eqn:Hsplit;
      [by apply IH|].
    apply IH; [done|].
    intros item [->|Hin]%set_items; [|by apply Hd].
    simpl. intros c Hc. apply Hline.
    destruct (split_on_from_elements 9 [] (c0 :: r0) char c) as [?%elem_of_nil|?];
      try done.
    unfold split_on in Hsplit. rewrite Hsplit. by left. }
  intros Hall. apply Hgen; [done|]. by intros item ?%elem_of_nil.
Qed.

Lemma code_of_readable (decomposition : pydict (list (list pystr)))
    (root_lines parts : list pystr) (code : pystr) :
  code_of decomposition (load_roots root_lines) parts = Some code →
  (2 ≤ length code ≤ 4)%nat ∧ Forall (λ c, isspace c = false) code.
Proof.
  unfold code_of.
  destruct (get_code_for_decomp _ _ _ parts [] _) as [[g' c]|] eqn:Hg; [|done].
  intros ->. apply TableExtras.returned_code_shape in Hg as (Hlen & Hin & _).
  split; [done|]. apply Forall_forall. intros c Hc.
  destruct (Hin c Hc) as (p & Hp).
  apply LoaderExtras.load_roots_entries in Hp as (_ & letter & [= ->] & Hl).
  done.
Qed.

Section Pipeline.
Variables root_lines dict_lines : list pystr.

Lemma stage1_groups_readable :
  Forall (λ line, (10 ∉ strip line) ∧ (13 ∉ strip line)) dict_lines →
  Forall (λ item : pystr * list (list pystr),
            Forall (readable item.1)
                   (omap (code_of (load_decomposition dict_lines)
                                  (load_roots root_lines)) item.2))
         (load_decomposition dict_lines).
Proof.
  intros Hlines. apply Forall_forall. intros item Hitem.
  apply Forall_forall. intros code (parts & _ & Hcode)%list_elem_of_omap.
  apply code_of_readable in Hcode as [Hlen Hns].
  destruct (LoaderExtras.load_decomposition_entries dict_lines) as [_ Hall].
  rewrite Forall_forall in Hall. destruct (Hall item Hitem) as (_ & H9 & _).
  pose proof (load_decomposition_keys_lines (λ c, c ≠ 10 ∧ c ≠ 13) dict_lines)
    as Hkeys.
  assert (∀ c, c ∈ item.1 → c ≠ 10 ∧ c ≠ 13) as Hk.
  { apply Hkeys; [|done]. eapply Forall_impl; [exact Hlines|].
    intros line [H10 H13] c Hc. split; intros ->; done. }
  split; [done|]. split; [intros H; by destruct (Hk _ H)|].
  split; [intros H; by destruct (Hk _ H)|].
  split; [|done]. intros ->. simpl in Hlen. lia.
Qed.

(** The output file of stage 1 loads as the table of the characters that
    have a code, each with its codes. *)
Lemma stage1_output_loaded (fuel : nat) :
  (length (load_decomposition dict_lines) < fuel)%nat →
  Forall (λ line, (10 ∉ strip line) ∧ (13 ∉ strip line)) dict_lines →
  load_stage1_output fuel root_lines dict_lines
  = Some (Loaded (shape_map_of (load_decomposition dict_lines)
                               (load_roots root_lines))).
Proof.
  intros Hfuel Hlines.
  pose proof (stage1_groups_readable Hlines) as Hread.
  assert (∀ p l, load_roots root_lines !! p = Some l → l ≠ []) as Hletters.
  { intros p l Hl%TableFacts.load_roots_letters ->. done. }
  destruct (TableFacts.main_items_rows (load_decomposition dict_lines)
              (load_roots root_lines) Hletters fuel
              (load_decomposition dict_lines) (GState ∅ [] [] []) Hfuel)
    as (g & Hmain & Hout).
  unfold load_stage1_output, Generator.main. rewrite Hmain, Hout. simpl.
  rewrite rows_of_grouped, file_lines_rows.
  - unfold _load_shape_table. rewrite load_groups; [done| |done].
    simpl. apply LoaderExtras.load_decomposition_entries.
  - apply Forall_forall. intros r Hr.
    apply list_elem_of_In, in_flat_map in Hr as (item & Hitem & Hr).
    apply list_elem_of_In in Hitem, Hr.
    apply list_elem_of_fmap in Hr as (code & -> & Hcode).
    apply row_body. rewrite Forall_forall in Hread.
    specialize (Hread item Hitem). rewrite Forall_forall in Hread.
    by apply Hread.
Qed.

(** Every shape code of that table is long enough for stage 2. *)
Lemma stage1_codes_long (c : pystr) (sl : list pystr) :
  (c, sl) ∈ shape_map_of (load_decomposition dict_lines)
                         (load_roots root_lines) →
  Forall long_enough sl.
Proof.
  unfold shape_map_of. intros (item & _ & Hitem)%list_elem_of_omap.
  destruct (omap _ item.2) as [|code codes] eqn:Hcodes; [done|].
  injection Hitem as <- <-. rewrite <- Hcodes.
  apply Forall_forall. intros x (parts & _ & Hx)%list_elem_of_omap.
  apply code_of_readable in Hx as [Hlen _]. unfold long_enough. lia.
Qed.

End Pipeline.

End PipelineFacts.

Module PipelineExtras.
Import Generator Transferer TransfererIO Props MoreProps PipelineFacts.

(** X19. Stage 2 reads back what stage 1 wrote: when no line of the table
    file holds a line feed or carriage return inside (as the lines of a file
    never do), loading the output file of stage 1 gives, for the characters
    of the decomposition table that have a code, in table order, each
    character once with the codes of its alternatives in order. *)
Theorem stage1_output_loads (fuel : nat) (root_lines dict_lines : list pystr) :
  (length (load_decomposition dict_lines) < fuel)%nat →
  Forall (λ line, (10 ∉ strip line) ∧ (13 ∉ strip line)) dict_lines →
  load_stage1_output fuel root_lines dict_lines
  = Some (Loaded (shape_map_of (load_decomposition dict_lines)
                               (load_roots root_lines))).
Proof. apply stage1_output_loaded. Qed.

(** 旦 has the alternatives 日一 and 口一; 吕 resolves to one letter and is
    not in the table. *)
Lemma stage1_output_loads_witness :
  let root_lines := [u "G一"; u "K口"; u "J日"] in
  let dict_lines := [u "旦" ++ [9] ++ u "日一" ++ [9] ++ u "口一" ++ [10];
                     u "吕" ++ [9] ++ u "口" ++ [10]] in
  (length (load_decomposition dict_lines) < 3)%nat ∧
  Forall (λ line, (10 ∉ strip line) ∧ (13 ∉ strip line)) dict_lines ∧
  load_stage1_output 3 root_lines dict_lines
  = Some (Loaded [(u "旦", [u "JG"; u "KG"])]).
Proof.
  intros root_lines dict_lines.
  assert (length (load_decomposition dict_lines) < 3)%nat as Hfuel
    by (vm_compute; lia).
  assert (Forall (λ line, (10 ∉ strip line) ∧ (13 ∉ strip line)) dict_lines)
    as Hlines.
  { apply Forall_cons_2; [|apply Forall_cons_2; [|apply Forall_nil_2]];
      (split; intros Hin; apply list_elem_of_In in Hin; vm_compute in Hin;
       intuition discriminate). }
  split; [exact Hfuel|]. split; [exact Hlines|].
  rewrite (stage1_output_loads 3 root_lines dict_lines Hfuel Hlines).
  vm_compute. reflexivity.
Defined.

(** X20. Stage 2 never takes its fatal exit on the output of stage 1: under
    the same condition, the table loaded from that output makes [main] of
    stage 2 finish, with its output file written, for every scheme table
    and every phonetic map. *)
Theorem stage2_accepts_stage1_output
    (fuel : nat) (root_lines dict_lines : list pystr) :
  (length (load_decomposition dict_lines) < fuel)%nat →
  Forall (λ line, (10 ∉ strip line) ∧ (13 ∉ strip line)) dict_lines →
  ∃ mp,
    load_stage1_output fuel root_lines dict_lines = Some (Loaded mp) ∧
    ∀ XH isalpha pinyin_map, ∃ rows log,
      Transferer.main XH isalpha mp pinyin_map
      = (Files (Some rows) (Some log), Finished).
Proof.
  intros Hfuel Hlines. eexists. split; [by apply stage1_output_loaded|].
  intros XH isalpha pinyin_map.
  destruct (MergeFacts.merge_items_long XH isalpha pinyin_map
              (shape_map_of (load_decomposition dict_lines)
                            (load_roots root_lines))
              (MState [] ∅ []))
    as (m' & _ & Hm & _).
  - intros c sl Hin _. by eapply stage1_codes_long.
  - unfold Transferer.main. rewrite Hm. by eexists _, _.
Qed.

(** The table of the witness above, merged with a reading of 旦. *)
Lemma stage2_accepts_stage1_output_witness :
  let root_lines := [u "G一"; u "K口"; u "J日"] in
  let dict_lines := [u "旦" ++ [9] ++ u "日一" ++ [9] ++ u "口一" ++ [10];
                     u "吕" ++ [9] ++ u "口" ++ [10]] in
  let isalpha := λ c, (97 <=? c) && (c <=? 122) in
  let pinyin_map : gmap pystr (list pystr) := {[ u "旦" := [u "dan"] ]} in
  ∃ mp rows log,
    load_stage1_output 3 root_lines dict_lines = Some (Loaded mp) ∧
    Transferer.main _XH isalpha mp pinyin_map
    = (Files (Some rows) (Some log), Finished).
Proof.
  intros root_lines dict_lines isalpha pinyin_map.
  assert (length (load_decomposition dict_lines) < 3)%nat as Hfuel
    by (vm_compute; lia).
  assert (Forall (λ line, (10 ∉ strip line) ∧ (13 ∉ strip line)) dict_lines)
    as Hlines.
  { apply Forall_cons_2; [|apply Forall_cons_2; [|apply Forall_nil_2]];
      (split; intros Hin; apply list_elem_of_In in Hin; vm_compute in Hin;
       intuition discriminate). }
  destruct (stage2_accepts_stage1_output 3 root_lines dict_lines Hfuel Hlines)
    as (mp & Hload & Hmain).
  destruct (Hmain _XH isalpha pinyin_map) as (rows & log & H).
  by exists mp, rows, log.
Defined.

End PipelineExtras.

(** ** The single-code log of stage 1 *)

Module SingleCodeExtras.
Import Generator Props MoreProps ResolverFacts DeriverFacts TableFacts.

Section SingleLog.
Variable decomposition : pydict (list (list pystr)).
Variable rootmap : gmap pystr pystr.

(** What one call of [get_code_for_decomp] appends to the list. *)
Lemma get_code_for_decomp_single (fuel : nat) (parts : list pystr)
    (char : pystr) (g : gstate) :
  (length decomposition < fuel)%nat →
  ∃ g' code,
    get_code_for_decomp decomposition rootmap fuel parts char g
      = Some (g', code) ∧
    g_singlecode_chars g'
    = g_singlecode_chars g
      ++ match letters_of decomposition rootmap parts with
         | Some [_] => [(char, join parts)]
         | _ => []
         end ∧
    (∀ l, letters_of decomposition rootmap parts = Some [l] → code = None).
Proof.
  intros Hfuel. unfold letters_of, get_code_for_decomp.
  destruct (expand_top_enough decomposition rootmap
              (S (length decomposition)) (apply_replacements parts) [] ∅)
    as (m0 & r & H0); [lia|].
  assert (S (length decomposition) ≤ fuel)%nat as Hle by lia.
  destruct (expand_top_any decomposition rootmap _ fuel _ _ _
              (g_missing_roots g) _ _ Hle H0) as (m & H).
  rewrite H0, H. destruct r as [expanded|].
  - unfold code_of_letters.
    destruct (root_letters rootmap expanded) as [|a [|b codes]].
    + rewrite decide_True by done. eexists _, _. split; [done|].
      simpl. rewrite app_nil_r. split; [done|]. by intros l.
    + rewrite decide_False by done. rewrite decide_True by done.
      eexists _, _. split; [done|]. simpl. split; [done|]. by intros l.
    + rewrite decide_False by done. rewrite decide_False by done.
      case_decide; (eexists _, _; split; [done|]; simpl; rewrite app_nil_r;
                    split; [done|]; by intros l).
  - eexists _, _. split; [done|]. simpl. rewrite app_nil_r.
    split; [done|]. by intros l.
Qed.

Lemma main_alternatives_single (fuel : nat) (char : pystr)
    (decomps : list (list pystr)) (success : bool) (g : gstate) :
  (length decomposition < fuel)%nat →
  ∃ g' success',
    main_alternatives decomposition rootmap fuel char decomps success g
      = Some (g', success') ∧
    g_singlecode_chars g'
    = g_singlecode_chars g
      ++ single_entries decomposition rootmap [(char, decomps)].
Proof.
  intros Hfuel. unfold single_entries. simpl. rewrite app_nil_r.
  revert success g. induction decomps as [|parts more IH];
    intros success g; simpl.
  - eexists _, _. by rewrite app_nil_r.
  - destruct (get_code_for_decomp_single fuel parts char g Hfuel)
      as (g' & code & -> & Hs & _).
    destruct (truthy code).
    + edestruct IH as (g'' & s'' & -> & Hs'').
      eexists _, _. split; [done|]. rewrite Hs''. simpl. rewrite Hs.
      rewrite <- app_assoc. f_equal.
      by destruct (letters_of decomposition rootmap parts) as [[|? [|? ?]]|].
    + edestruct IH as (g'' & s'' & -> & Hs'').
      eexists _, _. split; [done|]. rewrite Hs'', Hs.
      rewrite <- app_assoc. f_equal.
      by destruct (letters_of decomposition rootmap parts) as [[|? [|? ?]]|].
Qed.

Lemma main_items_single (fuel : nat) (items : pydict (list (list pystr)))
    (g : gstate) :
  (length decomposition < fuel)%nat →
  ∃ g',
    main_items decomposition rootmap fuel items g = Some g' ∧
    g_singlecode_chars g'
    = g_singlecode_chars g ++ single_entries decomposition rootmap items.
Proof.
  intros Hfuel. revert g. induction items as [|[char decomps] more IH];
    intros g; simpl.
  - eexists. by rewrite app_nil_r.
  - destruct (main_alternatives_single fuel char decomps false g Hfuel)
      as (g' & success & -> & Hs).
    edestruct IH as (g'' & -> & Hs'').
    eexists. split; [done|]. rewrite Hs''.
    unfold single_entries in *. simpl in *. rewrite app_nil_r in Hs.
    destruct success; simpl; rewrite Hs; by rewrite <- app_assoc.
Qed.

(** An alternative that resolves to one letter has no code. *)
Lemma single_letter_no_code (parts : list pystr) (l : pystr) :
  letters_of decomposition rootmap parts = Some [l] →
  code_of decomposition rootmap parts = None.
Proof.
  intros Hl. unfold code_of.
  destruct (get_code_for_decomp_single (S (length decomposition)) parts []
              (GState ∅ [] [] [])) as (g' & code & -> & _ & Hcode); [lia|].
  by eapply Hcode.
Qed.

End SingleLog.

(** X21. The single-code log of [main] holds, in table order, the character
    and the joined parts (as written in the table, before the substitution)
    of every alternative that resolves to exactly one letter, and nothing
    else; such an alternative has no code, so it gives no row. *)
Theorem main_singlecode_log (fuel : nat) (root_lines dict_lines : list pystr) :
  let rootmap := load_roots root_lines in
  let decomposition := load_decomposition dict_lines in
  (length decomposition < fuel)%nat →
  ∃ g,
    main fuel root_lines dict_lines = Some g ∧
    g_singlecode_chars g = single_entries decomposition rootmap decomposition ∧
    ∀ parts l,
      letters_of decomposition rootmap parts = Some [l] →
      code_of decomposition rootmap parts = None.
Proof.
  intros rootmap decomposition Hfuel.
  destruct (main_items_single decomposition rootmap fuel decomposition
              (GState ∅ [] [] []) Hfuel) as (g & Hmain & Hs).
  exists g. split; [done|]. split; [done|].
  apply single_letter_no_code.
Qed.

(** 吕 has the alternatives 口 and 口口: the first resolves to one letter
    and is logged, the second has a code. *)
Lemma main_singlecode_log_witness :
  let root_lines := [u "G一"; u "K口"; u "J日"] in
  let dict_lines := [u "旦" ++ [9] ++ u "日一";
                     u "吕" ++ [9] ++ u "口" ++ [9] ++ u "口口"] in
  (length (load_decomposition dict_lines) < 3)%nat ∧
  ∃ g,
    main 3 root_lines dict_lines = Some g ∧
    g_singlecode_chars g = [(u "吕", u "口")] ∧
    g_fout g = [row (u "旦") (u "JG"); row (u "吕") (u "KK")].
Proof.
  intros root_lines dict_lines.
  assert (length (load_decomposition dict_lines) < 3)%nat as Hfuel
    by (vm_compute; lia).
  split; [exact Hfuel|].
  destruct (main_singlecode_log 3 root_lines dict_lines Hfuel)
    as (g & Hmain & Hs & _).
  exists g. split; [exact Hmain|]. split.
  - rewrite Hs. vm_compute. reflexivity.
  - assert (main 3 root_lines dict_lines
            = Some (GState ∅ [(u "吕", u "口")]
                           [row (u "旦") (u "JG"); row (u "吕") (u "KK")] []))
      as Hrun by (vm_compute; reflexivity).
    rewrite Hrun in Hmain. by injection Hmain as <-.
Defined.

End SingleCodeExtras.

(** ** The pinyin database *)

Module PinyinDbFacts.
Import Transferer TransfererIO Props MoreProps PyFacts.

(** No [ü] is left after [replace("ü", "v")]. *)
Lemma replace_u_diaeresis (s : pystr) : 252 ∉ replace s [252] [118].
Proof.
  unfold replace. induction s as [|c s IH]; simpl.
  - by intros ?%elem_of_nil.
  - destruct (N.eqb_spec c 252) as [->|Hne]; simpl.
    + intros [?|?]%elem_of_cons; done.
    + intros [?|?]%elem_of_cons; done.
Qed.

Lemma uniq_from_spec (seen : gset pystr) (l : list pystr) :
  NoDup (uniq_from seen l) ∧
  ∀ p, p ∈ uniq_from seen l ↔ p ∈ l ∧ p ∉ seen.
Proof.
  revert seen. induction l as [|x l IH]; intros seen; simpl.
  - split; [constructor|]. intros p. split; [by intros ?%elem_of_nil|].
    by intros [?%elem_of_nil _].
  - destruct (decide (x ∈ seen)) as [Hx|Hx].
    + destruct (IH seen) as [Hnd Hin]. split; [done|].
      intros p. rewrite Hin, elem_of_cons. split; [naive_solver|].
      intros [[->|?] Hp]; done.
    + destruct (IH ({[x]} ∪ seen)) as [Hnd Hin]. split.
      * constructor; [|done]. rewrite Hin. set_solver.
      * intros p. rewrite !elem_of_cons, Hin. split.
        -- intros [->|[? ?]]; [split; [by left|done]|].
           split; [by right|set_solver].
        -- intros [[->|?] ?]; [by left|].
           destruct (decide (p = x)) as [->|]; [by left|].
           right. split; [done|set_solver].
Qed.

(** The first field of [split("#", 1)] is what stands before the first
    [#]. *)
Lemma split_on_1_from_nosep (sep : N) (cur s : pystr) :
  sep ∉ s → split_on_1_from sep cur s = [reverse cur ++ s].
Proof.
  revert cur. induction s as [|c s IH]; intros cur Hs; simpl.
  - by rewrite app_nil_r.
  - destruct (N.eqb_spec c sep) as [->|Hne]; [destruct Hs; by left|].
    rewrite IH by (intros ?; apply Hs; by right).
    by rewrite reverse_cons, <- app_assoc.
Qed.

Lemma split_on_1_from_sep (sep : N) (cur s r : pystr) :
  sep ∉ s → split_on_1_from sep cur (s ++ sep :: r) = [reverse cur ++ s; r].
Proof.
  revert cur. induction s as [|c s IH]; intros cur Hs; simpl.
  - by rewrite N.eqb_refl, app_nil_r.
  - destruct (N.eqb_spec c sep) as [->|Hne]; [destruct Hs; by left|].
    rewrite IH by (intros ?; apply Hs; by right).
    by rewrite reverse_cons, <- app_assoc.
Qed.

Section Database.
Variable isdecimal : N → bool.
Variable str_lower : pystr → pystr.

Local Abbreviation read_line := (read_line isdecimal str_lower).
Local Abbreviation _load_pinyin_db_from :=
  (_load_pinyin_db_from isdecimal str_lower).
Local Abbreviation _load_pinyin_db := (_load_pinyin_db isdecimal str_lower).
Local Abbreviation readings_in := (readings_in isdecimal str_lower).

Lemma norm_list_elements (raw : list pystr) (p : pystr) :
  p ∈ norm_list isdecimal str_lower raw → p ≠ [] ∧ 252 ∉ p.
Proof.
  unfold norm_list. intros (t & _ & Ht)%list_elem_of_omap.
  pose proof (replace_u_diaeresis (str_lower (_remove_tone isdecimal t)))
    as Hu.
  destruct (replace _ [252] [118]) as [|c r]; [done|].
  injection Ht as <-. done.
Qed.

(** What a line contributes. *)
Lemma read_line_entry (line ch : pystr) (uniq : list pystr) :
  read_line line = Some (ch, uniq) →
  (∃ n, ch = [n] ∧ n ≤ 1114111) ∧ uniq ≠ [] ∧ NoDup uniq ∧
  Forall (λ p, p ≠ [] ∧ 252 ∉ p) uniq.
Proof.
  unfold TransfererIO.read_line.
  destruct (strip _) as [|c0 r0]; [done|].
  destruct (match_entry _) as [[code_hex payload]|]; [|done].
  unfold chr. destruct (N.leb_spec (int_hex code_hex) 1114111) as [Hle|];
    [|done].
  destruct (uniq_from_spec ∅ (norm_list isdecimal str_lower
                                (raw_list (strip payload))))
    as [Hnd Hin].
  destruct (uniq_from _ _) as [|p0 ps] eqn:Hu; [done|].
  intros [= <- <-]. split; [by eexists|]. split; [done|]. split; [done|].
  apply Forall_forall. intros p Hp. apply Hin in Hp as [Hp _].
  by eapply norm_list_elements.
Qed.

Lemma _load_pinyin_db_from_app (l1 l2 : list pystr)
    (mp : pydict (list pystr)) :
  _load_pinyin_db_from (l1 ++ l2) mp
  = _load_pinyin_db_from l2 (_load_pinyin_db_from l1 mp).
Proof.
  revert mp. induction l1 as [|line l1 IH]; intros mp; simpl; [done|].
  destruct (read_line line) as [[ch uniq]|]; apply IH.
Qed.

(** The entries of a loaded database. *)
Lemma _load_pinyin_db_entries (lines : list pystr) :
  NoDup (keys (_load_pinyin_db lines)) ∧
  Forall (λ item : pystr * list pystr,
            (∃ n, item.1 = [n] ∧ n ≤ 1114111) ∧ item.2 ≠ [] ∧
            Forall (λ p, p ≠ [] ∧ 252 ∉ p) item.2)
         (_load_pinyin_db lines).
Proof.
  unfold TransfererIO._load_pinyin_db.
  assert (∀ mp : pydict (list pystr),
    NoDup (keys mp) ∧
    Forall (λ item : pystr * list pystr,
              (∃ n, item.1 = [n] ∧ n ≤ 1114111) ∧ item.2 ≠ [] ∧
              Forall (λ p, p ≠ [] ∧ 252 ∉ p) item.2) mp →
    NoDup (keys (_load_pinyin_db_from lines mp)) ∧
    Forall (λ item : pystr * list pystr,
              (∃ n, item.1 = [n] ∧ n ≤ 1114111) ∧ item.2 ≠ [] ∧
              Forall (λ p, p ≠ [] ∧ 252 ∉ p) item.2)
           (_load_pinyin_db_from lines mp)) as Hgen.
  { induction lines as [|line rest IH]; intros mp Hmp; simpl; [done|].
    destruct (read_line line) as [[ch uniq]|] eqn:Hr; [|by apply IH].
    apply IH. destruct Hmp as [Hnd Hall]. unfold extend_readings.
    split; [by apply keys_set_NoDup|].
    apply read_line_entry in Hr as (Hch & Hne & _ & Hps).
    apply Forall_forall. intros item [->|Hin]%set_items.
    - simpl. split; [done|]. split.
      + intros [_ ?]%app_eq_nil. done.
      + apply Forall_app. split; [|done].
        destruct (get mp ch) as [old|] eqn:Hget; simpl; [|constructor].
        rewrite Forall_forall in Hall.
        assert ((ch, old) ∈ mp) as Hitem.
        { clear -Hget. induction mp as [|[k v] mp IH]; simpl in *; [done|].
          destruct (decide (k = ch)) as [->|].
          - injection Hget as ->. by left.
          - right. by apply IH. }
        by destruct (Hall _ Hitem) as (_ & _ & ?).
    - rewrite Forall_forall in Hall. by apply Hall. }
  apply Hgen. split; constructor.
Qed.

(** The readings of a character after the loop over the lines. *)
Lemma _load_pinyin_db_from_readings (lines : list pystr)
    (mp : pydict (list pystr)) (ch : pystr) :
  (∀ k ps, get mp k = Some ps → ps ≠ []) →
  get (_load_pinyin_db_from lines mp) ch
  = match default [] (get mp ch) ++ readings_in lines ch with
    | [] => None
    | ps => Some ps
    end.
Proof.
  revert mp. induction lines as [|line rest IH]; intros mp Hmp.
  - simpl. rewrite app_nil_r. destruct (get mp ch) as [ps|] eqn:Hget; [|done].
    simpl. apply Hmp in Hget. by destruct ps.
  - simpl. unfold MoreProps.readings_in. simpl. fold (readings_in rest ch).
    destruct (read_line line) as [[c uniq]|] eqn:Hr; [|by apply IH].
    apply read_line_entry in Hr as (_ & Hne & _).
    rewrite IH.
    + unfold extend_readings. rewrite get_set.
      destruct (decide (c = ch)) as [->|Hc]; simpl; [|done].
      by rewrite <- app_assoc.
    + intros k ps. unfold extend_readings. rewrite get_set.
      case_decide; [|by apply Hmp].
      intros [= <-] [_ ?]%app_eq_nil. done.
Qed.

Lemma _load_pinyin_db_readings (lines : list pystr) (ch : pystr) :
  get (_load_pinyin_db lines) ch
  = match readings_in lines ch with [] => None | ps => Some ps end.
Proof.
  unfold TransfererIO._load_pinyin_db.
  by rewrite _load_pinyin_db_from_readings.
Qed.

(** What follows [#] does not count. *)
Lemma read_line_comment (line comment : pystr) :
  35 ∉ line → read_line (line ++ 35 :: comment) = read_line line.
Proof.
  intros Hline. unfold TransfererIO.read_line, split_on_1.
  by rewrite split_on_1_from_sep, split_on_1_from_nosep.
Qed.

End Database.

(** The lookup in a table without repeated keys. *)
Lemma lookup_table_get (mp : pydict (list pystr)) (ch : pystr) :
  lookup_table mp !! ch = get mp ch.
Proof.
  unfold lookup_table. induction mp as [|[k v] mp IH]; simpl; [done|].
  destruct (decide (k = ch)) as [->|Hne].
  - by rewrite lookup_insert_eq.
  - by rewrite lookup_insert_ne.
Qed.

End PinyinDbFacts.

Module PinyinDbExtras.
Import Transferer TransfererIO Props MoreProps PinyinDbFacts.

(** X22. In a loaded pinyin database no character occurs twice, every key
    is one character (a code point up to U+10FFFF), every list of readings
    is non-empty, and every reading is non-empty and holds no [ü]; this
    for any lower-casing and any class of digits. *)
Theorem _load_pinyin_db_shape (isdecimal : N → bool)
    (str_lower : pystr → pystr) (lines : list pystr) :
  NoDup (keys (_load_pinyin_db isdecimal str_lower lines)) ∧
  Forall (λ item : pystr * list pystr,
            (∃ n, item.1 = [n] ∧ n ≤ 1114111) ∧ item.2 ≠ [] ∧
            Forall (λ p, p ≠ [] ∧ 252 ∉ p) item.2)
         (_load_pinyin_db isdecimal str_lower lines).
Proof. apply _load_pinyin_db_entries. Qed.

(** X23. What follows the first [#] of a line does not count: the database
    is the same with the comment and without it. *)
Theorem _load_pinyin_db_comment (isdecimal : N → bool)
    (str_lower : pystr → pystr) (before after : list pystr)
    (line comment : pystr) :
  35 ∉ line →
  _load_pinyin_db isdecimal str_lower
    (before ++ (line ++ 35 :: comment) :: after)
  = _load_pinyin_db isdecimal str_lower (before ++ line :: after).
Proof.
  intros Hline. unfold _load_pinyin_db.
  rewrite !_load_pinyin_db_from_app. simpl.
  by rewrite read_line_comment.
Qed.

(** A line with a comment that holds what would be another reading. *)
Lemma _load_pinyin_db_comment_witness :
  let isdecimal := λ c, (48 <=? c) && (c <=? 57) in
  (35 ∉ u "U+65E5: rì ") ∧
  _load_pinyin_db isdecimal lower [u "U+65E5: rì " ++ 35 :: u " mì" ++ [10]]
  = [(u "日", [u "ri"])].
Proof.
  intros isdecimal.
  assert (35 ∉ u "U+65E5: rì ") as Hline.
  { intros Hin. apply list_elem_of_In in Hin. vm_compute in Hin.
    intuition discriminate. }
  split; [exact Hline|].
  etransitivity;
    [exact (_load_pinyin_db_comment isdecimal lower [] [] _
              (u " mì" ++ [10]) Hline)|].
  vm_compute. reflexivity.
Defined.

(** X24. The readings of a character in the loaded database are those of
    the lines that name it, one line after the other in file order; a
    character no line gives a reading for is not in the database. The
    readings of one line are without repetition; those of two lines of the
    same character are not merged. *)
Theorem _load_pinyin_db_spec (isdecimal : N → bool)
    (str_lower : pystr → pystr) (lines : list pystr) :
  (∀ ch,
     get (_load_pinyin_db isdecimal str_lower lines) ch
     = match readings_in isdecimal str_lower lines ch with
       | [] => None
       | ps => Some ps
       end) ∧
  (∀ line ch uniq,
     read_line isdecimal str_lower line = Some (ch, uniq) → NoDup uniq).
Proof.
  split.
  - apply _load_pinyin_db_readings.
  - intros line ch uniq Hr. by apply read_line_entry in Hr as (_ & _ & ? & _).
Qed.

(** The three spellings of the first line are one reading; the second line
    brings it again. *)
Example _load_pinyin_db_examples :
  let isdecimal := λ c, (48 <=? c) && (c <=? 57) in
  _load_pinyin_db isdecimal lower
    [u "U+65E5: rì, ri4 RI" ++ [10]; u "# 日" ++ [10];
     u "U+53E3 : kǒu" ++ [10]; u "u+53E3: kou" ++ [10];
     u "U+110000: x" ++ [10]; u "U+65E5:ri" ++ [10]]
  = [(u "日", [u "ri"; u "ri"]); (u "口", [u "kou"])].
Proof. vm_compute. reflexivity. Qed.

(** X25. Stage 2 on a loaded database: the readings [main] finds for a
    character are those the lines give for it, and the characters a
    finished run reports as missing are the characters of the shape table
    for which the lines give no reading. *)
Theorem missing_pinyin_are_unlisted (isdecimal : N → bool)
    (str_lower : pystr → pystr) (XH : pydict pystr) (isalpha : N → bool)
    (lines : list pystr) (shape_map : pydict (list pystr))
    (rows : list pystr) (missing : gset pystr)
    (cc : list (pystr * pystr)) (n : nat) :
  let pinyin_map := lookup_table (_load_pinyin_db isdecimal str_lower lines) in
  main XH isalpha shape_map pinyin_map
  = (Files (Some rows) (Some (ReportLog missing cc n)), Finished) →
  (∀ ch, readings pinyin_map ch = readings_in isdecimal str_lower lines ch) ∧
  (∀ ch, ch ∈ missing ↔
         ch ∈ keys shape_map ∧
         readings_in isdecimal str_lower lines ch = []).
Proof.
  intros pinyin_map.
  assert (∀ ch, pinyin_map !! ch
                = match readings_in isdecimal str_lower lines ch with
                  | [] => None
                  | ps => Some ps
                  end) as Hget.
  { intros ch. unfold pinyin_map.
    by rewrite lookup_table_get, _load_pinyin_db_readings. }
  unfold main.
  destruct (merge_items XH isalpha pinyin_map shape_map (MState [] ∅ []))
    as [[c s]|m'] eqn:Hm; [done|].
  intros [= <- <- <- <-].
  apply MergeExtras.merge_items_spec in Hm as (_ & _ & H3 & _). simpl in *.
  split.
  - intros ch. unfold readings. rewrite Hget.
    by destruct (readings_in isdecimal str_lower lines ch).
  - intros ch. rewrite H3. unfold has_readings. rewrite Hget.
    destruct (readings_in isdecimal str_lower lines ch) as [|p ps].
    + split; [|intros [? _]; by right].
      intros [?%elem_of_empty|[? _]]; done.
    + split; [|by intros [_ ?]].
      intros [?%elem_of_empty|[_ ?]]; done.
Qed.

(** 口 is in the shape table and in no line of the database. *)
Lemma missing_pinyin_are_unlisted_witness :
  let isdecimal := λ c, (48 <=? c) && (c <=? 57) in
  let isalpha := λ c, (97 <=? c) && (c <=? 122) in
  let lines := [u "# readings" ++ [10]; u "U+65E5: rì" ++ [10]] in
  let shape_map := [(u "口", [u "kk"]); (u "日", [u "jg"])] in
  main _XH isalpha shape_map
       (lookup_table (_load_pinyin_db isdecimal lower lines))
  = (Files (Some [u "日" ++ [9] ++ u "rijg" ++ [10]])
           (Some (ReportLog {[ u "口" ]} [] 1)), Finished) ∧
  (u "口" ∈ ({[ u "口" ]} : gset pystr) ↔
   u "口" ∈ keys shape_map ∧ readings_in isdecimal lower lines (u "口") = []).
Proof.
  intros isdecimal isalpha lines shape_map.
  assert (main _XH isalpha shape_map
               (lookup_table (_load_pinyin_db isdecimal lower lines))
          = (Files (Some [u "日" ++ [9] ++ u "rijg" ++ [10]])
                   (Some (ReportLog {[ u "口" ]} [] 1)), Finished)) as H
    by (vm_compute; reflexivity).
  split; [exact H|].
  exact (proj2 (missing_pinyin_are_unlisted _ _ _ _ _ _ _ _ _ _ H) (u "口")).
Defined.

End PinyinDbExtras.

(** ** The scheme table builder *)

Module BuilderFacts.
Import Transferer Props MoreProps PyFacts TransliteratorFacts.

Lemma take_word_spec (s : pystr) :
  s = (take_word s).1 ++ (take_word s).2 ∧
  Forall (λ c, isspace c = false) (take_word s).1 ∧
  (∀ c r, (take_word s).2 = c :: r → isspace c = true).
Proof.
  induction s as [|c s IH]; simpl.
  - split; [done|]. split; [constructor|done].
  - destruct (isspace c) eqn:Hc; simpl.
    + split; [done|]. split; [constructor|]. by intros ? ? [= <- _].
    + destruct (take_word s) as [w r]. simpl in *.
      destruct IH as (H1 & H2 & H3). split; [by rewrite <- H1|].
      split; [by constructor|done].
Qed.

Lemma take_word_all (s : pystr) :
  Forall (λ c, isspace c = false) s → take_word s = (s, []).
Proof.
  induction 1 as [|c s Hc Hs IH]; simpl; [done|]. by rewrite Hc, IH.
Qed.

Lemma lstrip_nil (s : pystr) :
  lstrip s = [] → Forall (λ c, isspace c = true) s.
Proof.
  induction s as [|c s IH]; simpl; [constructor|].
  destruct (isspace c) eqn:Hc; [|done]. intros ?. constructor; auto.
Qed.

(** [split(None, 1)] of a stripped line: one field when the line holds no
    white space, two otherwise, the first of them a word. *)
Lemma split_ws_1_stripped (s : pystr) :
  strip s ≠ [] →
  (Forall (λ c, isspace c = false) (strip s) ∧
   split_ws_1 (strip s) = [strip s]) ∨
  (¬ Forall (λ c, isspace c = false) (strip s) ∧
   ∃ w toks, split_ws_1 (strip s) = [w; toks] ∧ w ≠ [] ∧
             Forall (λ c, isspace c = false) w).
Proof.
  intros Hne. pose proof (strip_last s) as Hlast.
  destruct (strip s) as [|c t] eqn:Hs; [done|].
  pose proof (strip_head s c t Hs) as Hc.
  unfold split_ws_1. simpl lstrip. rewrite Hc.
  pose proof (take_word_spec (c :: t)) as (H1 & H2 & H3).
  assert ((take_word (c :: t)).1 ≠ []) as Hw.
  { simpl. rewrite Hc. by destruct (take_word t). }
  destruct (take_word (c :: t)) as [w r]. simpl in *.
  destruct (lstrip r) as [|c' r'] eqn:Hr.
  - apply lstrip_nil in Hr. destruct r as [|d r].
    + rewrite app_nil_r in H1. subst w. by left.
    + exfalso. rewrite H1 in Hlast.
      rewrite last_app in Hlast.
      destruct (last (d :: r)) as [e|] eqn:He; [|by apply last_None in He].
      specialize (Hlast e eq_refl).
      apply last_Some_elem_of in He.
      rewrite Forall_forall in Hr. apply Hr in He. congruence.
  - right. split.
    + intros Hall. destruct r as [|d r]; [done|].
      specialize (H3 d r eq_refl).
      rewrite H1, Forall_app, Forall_cons in Hall.
      destruct Hall as (_ & Hd & _). congruence.
    + by eexists _, _.
Qed.

Lemma strip_nonempty (w : pystr) :
  w ≠ [] → Forall (λ c, isspace c = false) w → strip w ≠ [].
Proof.
  intros Hne Hall. destruct w as [|c w]; [done|].
  apply Forall_cons in Hall as [Hc _].
  assert (c ∈ strip (c :: w)) as Hin
    by (apply PipelineFacts.strip_keeps; [by left|done]).
  intros Hs. rewrite Hs in Hin. by apply elem_of_nil in Hin.
Qed.

Lemma lower_nonempty (s : pystr) : s ≠ [] → lower s ≠ [].
Proof. by destruct s. Qed.

(** A table whose keys are distinct and whose keys and letters are not
    empty. *)
Lemma add_tokens_usable (key : pystr) (toks : list pystr) (m : pydict pystr) :
  key ≠ [] → usable m → usable (add_tokens key toks m).
Proof.
  intros Hkey. revert m. induction toks as [|tok rest IH]; intros m Hm;
    simpl; [done|].
  apply IH. destruct (lower (strip tok)) as [|c t] eqn:Ht; [done|].
  destruct Hm as [Hnd Hall]. split; [by apply keys_set_NoDup|].
  apply Forall_forall. intros item [->|Hin]%set_items; [done|].
  rewrite Forall_forall in Hall. by apply Hall.
Qed.

Lemma add_lines_usable (lines : list pystr) (m m' : pydict pystr) :
  add_lines lines m = Some m' → usable m → usable m'.
Proof.
  revert m. induction lines as [|line rest IH]; intros m; simpl.
  - by intros [= <-].
  - destruct (decide (strip line = [])) as [Hs|Hs].
    + rewrite Hs. apply IH.
    + destruct (split_ws_1_stripped line Hs)
        as [[_ Hsplit]|(_ & w & toks & Hsplit & Hw & Hall)];
        rewrite Hsplit; destruct (strip line) as [|c0 r0]; try done.
      intros Hadd Hm. apply (IH _ Hadd). apply add_tokens_usable; [|done].
      by apply lower_nonempty, strip_nonempty.
Qed.

(** The lines at which the unpacking of [key, toks] fails. *)
Lemma add_lines_error (lines : list pystr) (m : pydict pystr) :
  add_lines lines m = None ↔ Exists lone_word lines.
Proof.
  revert m. induction lines as [|line rest IH]; intros m; simpl.
  - split; [done|]. by intros ?%Exists_nil.
  - rewrite Exists_cons. unfold lone_word at 1.
    destruct (decide (strip line = [])) as [Hs|Hs].
    + rewrite Hs. rewrite IH. split; [by right|]. by intros [[? _]|?].
    + destruct (split_ws_1_stripped line Hs)
        as [[Hall Hsplit]|(Hnot & w & toks & Hsplit & _)];
        rewrite Hsplit; destruct (strip line) as [|c0 r0] eqn:Hl; try done.
      * split; [by left|done].
      * rewrite IH. split; [by right|]. by intros [[_ ?]|?].
Qed.

Section Table.
Variable XH : pydict pystr.
Variable isalpha : N → bool.
Hypothesis XH_usable : usable XH.

Lemma usable_letter (k l : pystr) : get XH k = Some l → k ≠ [] ∧ l ≠ [].
Proof.
  intros Hget%get_Some_item. destruct XH_usable as [_ Hall].
  rewrite Forall_forall in Hall. by apply Hall in Hget.
Qed.

Lemma usable_get_nil : get XH [] = None.
Proof.
  destruct (get XH []) as [l|] eqn:Hget; [|done].
  by apply usable_letter in Hget as [? _].
Qed.

Lemma usable_suffix_lookup_nil : suffix_lookup XH [] = None.
Proof.
  pose proof (suffix_lookup_spec XH []) as H.
  destruct (suffix_lookup XH []) as [letter|]; [|done].
  destruct H as (k & (_ & Hs & _) & Hget).
  apply endswith_length in Hs. apply usable_letter in Hget as [Hk _].
  destruct k; [done|]. simpl in Hs. lia.
Qed.

(** Over a usable table [_xiaohe_double] fails on the bare initials and
    nowhere else. *)
Lemma usable_failures (pinyin : pystr) :
  _xiaohe_double XH isalpha pinyin = ValueError ↔ pinyin ∈ _INITIALS.
Proof.
  pose proof (TransliteratorExtras._split_initial_final_cases pinyin)
    as Hsplit.
  unfold _xiaohe_double.
  destruct (_split_initial_final pinyin) as [init fin]. simpl in Hsplit.
  destruct Hsplit as [Hcat [[-> Hz]|(Hne & Hin & Hmax)]].
  - simpl in Hcat. subst fin. split; [done|].
    intros Hp. specialize (Hz pinyin Hp).
    by rewrite TransliteratorExtras.startswith_refl in Hz.
  - destruct init as [|i0 init]; [done|].
    assert (match get XH (i0 :: init) with
            | Some l => l
            | None => first_char (i0 :: init)
            end ≠ []) as Hfirst.
    { destruct (get XH (i0 :: init)) as [l|] eqn:Hg; [|done].
      by apply usable_letter in Hg as [_ ?]. }
    destruct (match get XH (i0 :: init) with Some _ => _ | None => _ end)
      as [|f0 first]; [done|].
    destruct fin as [|f1 fin].
    + rewrite app_nil_r in Hcat. subst pinyin.
      rewrite usable_get_nil, usable_suffix_lookup_nil. done.
    + assert (match get XH (f1 :: fin) with
              | Some l => l
              | None =>
                match suffix_lookup XH (f1 :: fin) with
                | Some (c :: l) => c :: l
                | _ => first_char (f1 :: fin)
                end
              end ≠ []) as Hsecond.
      { destruct (get XH (f1 :: fin)) as [l|] eqn:Hg;
          [by apply usable_letter in Hg as [_ ?]|].
        by destruct (suffix_lookup XH (f1 :: fin)) as [[|c l]|]. }
      destruct (match get XH (f1 :: fin) with Some _ => _ | None => _ end)
        as [|s0 second]; [done|].
      split; [done|]. intros Hp. specialize (Hmax pinyin Hp).
      rewrite TransliteratorExtras.startswith_refl in Hmax.
      specialize (Hmax eq_refl).
      rewrite <- Hcat, length_app in Hmax. simpl in Hmax. lia.
Qed.

End Table.

End BuilderFacts.

Module BuilderExtras.
Import Transferer Props MoreProps BuilderFacts.

(** X26. [_build_xiaohe_map] raises (the unpacking of [key, toks] fails)
    exactly when the stripped source has a line that, stripped, is a
    single word: a key letter without tokens. Blank lines are passed
    over. *)
Theorem _build_xiaohe_map_failure (raw : pystr) :
  _build_xiaohe_map raw = None ↔ Exists lone_word (splitlines (strip raw)).
Proof. apply add_lines_error. Qed.

(** A key without tokens, and the same source with the line completed. *)
Example _build_xiaohe_map_examples :
  _build_xiaohe_map (u "Q iu" ++ [10] ++ u "W" ++ [10]) = None ∧
  _build_xiaohe_map (u "Q iu" ++ [10; 10] ++ u " W  ei, , UI " ++ [10])
  = Some [(u "iu", u "q"); (u "ei", u "w"); (u "ui", u "w")].
Proof. split; vm_compute; reflexivity. Qed.

(** X27. A table [_build_xiaohe_map] builds from an ASCII source has no
    key twice and no empty key or letter, and over such a table
    [_xiaohe_double] raises [ValueError] exactly on the bare initials
    ("zh", "b", ..., "w"), whatever the tokens of the source are. *)
Theorem built_table_failures (raw : pystr) (m : pydict pystr)
    (isalpha : N → bool) (pinyin : pystr) :
  Forall (λ c, c < 128) raw →
  _build_xiaohe_map raw = Some m →
  usable m ∧
  (_xiaohe_double m isalpha pinyin = ValueError ↔ pinyin ∈ _INITIALS).
Proof.
  intros _ Hbuild.
  assert (usable m) as Hm.
  { apply (add_lines_usable _ _ _ Hbuild). split; constructor. }
  split; [done|]. by apply usable_failures.
Qed.

(** The table source of the repository, and the syllable "zh". *)
Lemma built_table_failures_witness :
  let isalpha := λ c, (97 <=? c) && (c <=? 122) in
  Forall (λ c, c < 128) _RAW_XIAOHE ∧
  _build_xiaohe_map _RAW_XIAOHE = Some _XH ∧
  usable _XH ∧
  (_xiaohe_double _XH isalpha (u "zh") = ValueError ↔ u "zh" ∈ _INITIALS).
Proof.
  intros isalpha.
  assert (Forall (λ c, c < 128) _RAW_XIAOHE) as Hascii.
  { apply Forall_forall. intros c Hc. apply list_elem_of_In in Hc.
    vm_compute in Hc. repeat (destruct Hc as [<-|Hc]; [done|]). done. }
  assert (_build_xiaohe_map _RAW_XIAOHE = Some _XH) as Hbuild
    by (vm_compute; reflexivity).
  split; [exact Hascii|]. split; [exact Hbuild|].
  exact (built_table_failures _ _ isalpha (u "zh") Hascii Hbuild).
Defined.

End BuilderExtras.
